(** * Negotiation state machine of [blitz-frost/webrtc]

    A shallow embedding of the [Signaler] of the non-wasm build
    (the file with [conflictMessage], [Candidate], [Signaler], [Negotiate],
    [Answer], [CandidateAdd], [candidateHandle], [candidateProcess],
    [finish] and [finishAnswer]) as a transition system over goroutines,
    followed by the properties of the specification that concern it.

    Goroutines are program counters in a pool; the mutex is a boolean of
    the shared record; a critical section without a blocking statement is
    one transition; an unbuffered channel operation is a rendezvous of two
    goroutines.  The peer connection and the transport ([SignalerSet]) are
    external: the outcome of each call into them is supplied by the
    environment. *)

From stdpp Require Import base option list strings gmap.

Set Default Proof Using "Type".

(** ** External collaborators *)

(** github.com/pion/webrtc: only the data this package reads or builds. *)
Module webrtc.

Inductive SDPType :=
| SDPTypeUnknown          (* the zero value *)
| SDPTypeOffer
| SDPTypePranswer
| SDPTypeAnswer
| SDPTypeRollback.

Record SessionDescription := {
  Type_ : SDPType;
  SDP : string
}.

(** Pointer fields are options: [nil] is [None], [new(T)] is [Some] of
    the zero value of [T]. *)
Record ICECandidateInit := {
  Candidate : string;
  SDPMid : option string;
  SDPMLineIndex : option N;
  UsernameFragment : option string
}.

(** An [ICECandidate] is used through [ToJSON] only, so it is
    represented by what [ToJSON] returns. *)
Record ICECandidate := { ToJSON : ICECandidateInit }.

End webrtc.

(** github.com/blitz-frost/errors: [Simple] makes an error out of a
  message, [Message] wraps a cause, [Link] attaches a second error. *)
Module errors.

Inductive error :=
| Simple (msg : string)
| Linked (msg : string) (cause link : error).

(** The method [Error()].  A simple error prints as its message. *)
Definition Error (e : error) : string :=
  match e with
  | Simple msg => msg
  | Linked msg _ _ => msg
  end.

#[global] Instance error_eq_dec : EqDecision error.
Proof. solve_decision. Defined.

End errors.
Import errors.

(** A Go value of interface type [error]: [None] is [nil]. *)
Abbreviation result := (option error).

(** ** Candidates and session descriptions *)

Definition conflictMessage : string := "conflict".

Definition Candidate := string.

(** The empty candidate, which [candidateHandle] uses for the end of
    gathering. *)
Definition sentinel : Candidate := EmptyString.

Definition CandidateOf (candidate : webrtc.ICECandidate) : Candidate :=
  webrtc.Candidate (webrtc.ToJSON candidate).

Definition Convert (x : Candidate) : webrtc.ICECandidateInit :=
  {| webrtc.Candidate := x;
     webrtc.SDPMid := Some EmptyString;
     webrtc.SDPMLineIndex := Some 0%N;
     webrtc.UsernameFragment := None |}.

Record SessionDescription := {
  Type_ : webrtc.SDPType;
  String_ : string
}.

Definition SessionDescriptionOf (sd : webrtc.SessionDescription) : SessionDescription :=
  {| Type_ := webrtc.Type_ sd; String_ := webrtc.SDP sd |}.

Definition SessionDescription_Convert (x : SessionDescription) : webrtc.SessionDescription :=
  {| webrtc.Type_ := Type_ x; webrtc.SDP := String_ x |}.

(** The zero value [SessionDescription{}]. *)
Definition zeroSessionDescription : SessionDescription :=
  {| Type_ := webrtc.SDPTypeUnknown; String_ := EmptyString |}.

(** ** The Signaler *)

Inductive signalerState :=
| signalerStateIdle
| signalerStateOffering
| signalerStateAnswering.

#[global] Instance signalerState_eq_dec : EqDecision signalerState.
Proof. solve_decision. Defined.

(** Channels are identified by the order of their creation. *)
Abbreviation chan := nat.

(** The fields of the Go struct that hold data.  [conn] and [set] are the
    external collaborators; [priorityChan] and [candidateChan] are
    unbuffered and hold nothing.  [mux] is [true] while the mutex is
    locked. *)
Record Signaler := {
  sdpAlter : option (webrtc.SessionDescription -> webrtc.SessionDescription);
  priority : bool;
  candidates : list Candidate;
  candidateWant : bool;
  candidateAnswer : option chan;
  state : signalerState;
  waitPending : list chan;
  waitSimple : list chan;
  mux : bool
}.

Definition SignalerMake (priority : bool) : Signaler :=
  {| sdpAlter := None; priority := priority; candidates := []; candidateWant := false;
     candidateAnswer := None; state := signalerStateIdle;
     waitPending := []; waitSimple := []; mux := false |}.

(** [SdpAlter]: registers the hook. *)
Definition SdpAlter (fn : webrtc.SessionDescription -> webrtc.SessionDescription)
    (x : Signaler) : Signaler :=
  {| sdpAlter := Some fn; priority := priority x; candidates := candidates x;
     candidateWant := candidateWant x; candidateAnswer := candidateAnswer x;
     state := state x; waitPending := waitPending x; waitSimple := waitSimple x;
     mux := mux x |}.

Definition set_candidates (v : list Candidate) (x : Signaler) : Signaler :=
  {| sdpAlter := sdpAlter x; priority := priority x; candidates := v;
     candidateWant := candidateWant x; candidateAnswer := candidateAnswer x;
     state := state x; waitPending := waitPending x; waitSimple := waitSimple x;
     mux := mux x |}.

Definition set_candidateWant (v : bool) (x : Signaler) : Signaler :=
  {| sdpAlter := sdpAlter x; priority := priority x; candidates := candidates x;
     candidateWant := v; candidateAnswer := candidateAnswer x;
     state := state x; waitPending := waitPending x; waitSimple := waitSimple x;
     mux := mux x |}.

Definition set_candidateAnswer (v : option chan) (x : Signaler) : Signaler :=
  {| sdpAlter := sdpAlter x; priority := priority x; candidates := candidates x;
     candidateWant := candidateWant x; candidateAnswer := v;
     state := state x; waitPending := waitPending x; waitSimple := waitSimple x;
     mux := mux x |}.

Definition set_state (v : signalerState) (x : Signaler) : Signaler :=
  {| sdpAlter := sdpAlter x; priority := priority x; candidates := candidates x;
     candidateWant := candidateWant x; candidateAnswer := candidateAnswer x;
     state := v; waitPending := waitPending x; waitSimple := waitSimple x;
     mux := mux x |}.

Definition set_waitPending (v : list chan) (x : Signaler) : Signaler :=
  {| sdpAlter := sdpAlter x; priority := priority x; candidates := candidates x;
     candidateWant := candidateWant x; candidateAnswer := candidateAnswer x;
     state := state x; waitPending := v; waitSimple := waitSimple x;
     mux := mux x |}.

Definition set_waitSimple (v : list chan) (x : Signaler) : Signaler :=
  {| sdpAlter := sdpAlter x; priority := priority x; candidates := candidates x;
     candidateWant := candidateWant x; candidateAnswer := candidateAnswer x;
     state := state x; waitPending := waitPending x; waitSimple := v;
     mux := mux x |}.

Definition set_mux (v : bool) (x : Signaler) : Signaler :=
  {| sdpAlter := sdpAlter x; priority := priority x; candidates := candidates x;
     candidateWant := candidateWant x; candidateAnswer := candidateAnswer x;
     state := state x; waitPending := waitPending x; waitSimple := waitSimple x;
     mux := v |}.

(** What lives outside the struct: the next channel identity and the
    content of the buffered channels ([make(chan error, 1)]); a channel
    that is absent from [buffered] has an empty buffer. *)
Record Heap := {
  self : Signaler;
  fresh : chan;
  buffered : gmap chan result
}.

Definition with_self (x : Signaler) (h : Heap) : Heap :=
  {| self := x; fresh := fresh h; buffered := buffered h |}.

(** [make(chan ...)]: the new channel is [fresh h]. *)
Definition make_chan (h : Heap) : Heap :=
  {| self := self h; fresh := S (fresh h); buffered := buffered h |}.

Definition with_buffered (b : gmap chan result) (h : Heap) : Heap :=
  {| self := self h; fresh := fresh h; buffered := b |}.

(** The outcome of the call into the peer connection or the transport
    that a statement makes: its error, and the description it returns when
    it returns one. *)
Record ext := {
  ext_err : result;
  ext_sdp : webrtc.SessionDescription;
  ext_answer : SessionDescription
}.

(** ** Program counters *)

(** Which function [candidateProcess] was given. *)
Inductive mode :=
| Send        (* candidateProcessSend: x.set.CandidateAdd *)
| Discard.    (* candidateProcessDiscard: the closure returning nil *)

#[global] Instance mode_eq_dec : EqDecision mode.
Proof. solve_decision. Defined.

(** Where [candidateProcess] was called from. *)
Inductive caller :=
| InNegotiate (sameBatch : list chan)
    (* candidatesDone, err = x.candidateProcessSend() *)
| InNegotiateDefer (sameBatch : list chan) (err : result)
    (* the deferred x.candidateProcessDiscard() *)
| InSendGoroutine
    (* done, err := x.candidateProcessSend() in the goroutine of CandidateAdd *)
| InSendGoroutineDiscard (err : result)
    (* x.candidateProcessDiscard() after it, when !done *)
| InRejectGoroutine.
    (* x.candidateProcessDiscard() in the goroutine of CandidateAdd() *)

(** Where [candidateAdd_finish] was called from in the loop of
    [CandidateAdd]. *)
Inductive loop_exit :=
| AtSentinel                   (* return x.candidateAdd_finish() *)
| AtError (err : error).       (* err2 := x.candidateAdd_finish() *)

(** What follows [finish]. *)
Inductive after_finish :=
| ThenBroadcast (sameBatch : list chan) (err : result)
    (* the loop over sameBatch in the deferred function of Negotiate *)
| ThenExit
    (* the goroutine of CandidateAdd() ends *)
| ThenReturn (k : loop_exit) (err : result).
    (* candidateAdd_finish returns err *)

(** How a call of [Negotiate] ended: having run a round for the batch
    [sameBatch], or as the member of a batch that waited on [ch].  This is
    a record of the path taken, not a Go value. *)
Inductive role :=
| Active (sameBatch : list chan)
| Member (ch : chan).

Inductive pc :=
(* Negotiate *)
| N_lock                                  (* x.mux.Lock() at entry *)
| N_wait (ch : chan)                      (* err := <-ch *)
| N_woken (ch : chan) (err : result)      (* x.mux.Lock() after it *)
| N_CreateOffer (sameBatch : list chan)
| N_Answer (sameBatch : list chan) (offer : webrtc.SessionDescription)
| N_concede (sameBatch : list chan)       (* x.mux.Lock() when conceding *)
| N_handoff (sameBatch : list chan) (ch : chan)    (* x.priorityChan <- struct{}{} *)
| N_conceded (sameBatch : list chan) (ch : chan)   (* err = <-ch *)
| N_SetLocalDescription (sameBatch : list chan)
    (offer : webrtc.SessionDescription) (answer : SessionDescription)
| N_SetRemoteDescription (sameBatch : list chan) (answer : SessionDescription)
| N_reject (sameBatch : list chan) (err : error)   (* x.set.CandidateAdd() *)
| N_defer (sameBatch : list chan) (priorityConceded : bool) (err : result)
| N_broadcast (sameBatch rest : list chan) (err : result)   (* ch <- err *)
| N_return (r : role) (err : result)
(* Answer *)
| A_lock (offer : SessionDescription)
| A_wait (offer : SessionDescription)     (* <-x.priorityChan *)
| A_take (offer : SessionDescription)     (* x.state = ...; x.mux.Unlock() *)
| A_SetRemoteDescription (offer : SessionDescription)
| A_CreateAnswer
| A_SetLocalDescription (answer : webrtc.SessionDescription)
| A_return (answer : SessionDescription) (err : result)
(* CandidateAdd and candidateAdd_finish *)
| CA_enter (c : list Candidate)
| CA_loop (c : list Candidate)
| CA_finish (k : loop_exit)                        (* evaluates x.candidateAnswer *)
| CA_finish_recv (ch : option chan) (k : loop_exit)    (* err := <-ch *)
| CA_finish_clear (err : result) (k : loop_exit)   (* x.candidateAnswer = nil *)
| CA_return (err : result)
(* the goroutines started by CandidateAdd *)
| G_answer (err : result)                          (* evaluates x.candidateAnswer *)
| G_answer_send (ch : option chan) (err : result)  (* ch <- err *)
| G_exit
(* candidateProcess; [batches] are the batches already given to fn *)
| P_lock (m : mode) (k : caller) (batches : list (list Candidate))
| P_recv (m : mode) (k : caller) (batches : list (list Candidate))
| P_call (m : mode) (k : caller) (batches : list (list Candidate)) (c : list Candidate)
| P_return (m : mode) (k : caller) (batches : list (list Candidate))
    (done : bool) (err : result)
(* finishAnswer and finish *)
| FA_range (err : result) (k : after_finish)
| FA_send (chs : list chan) (err : result) (k : after_finish)   (* ch <- err *)
| F_lock (k : after_finish)
| F_send (ch : chan) (k : after_finish)            (* x.waitPending[0] <- nil *)
| F_unlock (k : after_finish).

(** The goroutine in which the peer connection runs the callback given to
    [OnICECandidate]; it calls [candidateHandle] once per event. *)
Inductive callback_pc :=
| H_idle
| H_lock (c : Candidate)      (* x.mux.Lock() *)
| H_send (c : Candidate)      (* x.candidateChan <- c, mutex held *)
| H_clear.                    (* x.candidateWant = false; x.mux.Unlock() *)

(** ** The statements of each function *)

(** The effect of one transition of a goroutine: the heap after it, where
    the goroutine continues, and the goroutines it starts.  A goroutine
    that cannot move (the mutex is locked, a channel is not ready) has no
    transition. *)
Definition outcome : Type := Heap * pc * list pc.

Definition goto (h : Heap) (p : pc) : option outcome := Some (h, p, []).

(** [if x.sdpAlter != nil { x.sdpAlter(&sd) }] *)
Definition alter (x : Signaler) (sd : webrtc.SessionDescription) : webrtc.SessionDescription :=
  match sdpAlter x with
  | Some fn => fn sd
  | None => sd
  end.

(** The error that [CandidateAdd] returns after the loop left through
    [candidateAdd_finish], which returned [err]. *)
Definition CandidateAdd_result (k : loop_exit) (err : result) : result :=
  match k with
  | AtSentinel => err
  | AtError e =>
      match err with
      | Some err2 => Some (Linked "add ice candidate" e err2)
      | None => Some e
      end
  end.

Definition after_finish_pc (k : after_finish) : pc :=
  match k with
  | ThenBroadcast sameBatch err => N_broadcast sameBatch sameBatch err
  | ThenExit => G_exit
  | ThenReturn k err => CA_return (CandidateAdd_result k err)
  end.

(** [finish] *)
Definition finish (h : Heap) (p : pc) : option outcome :=
  let x := self h in
  match p with
  | F_lock k =>
      if mux x then None else
      match waitPending x with
      | ch :: _ => goto (with_self (set_mux true x) h) (F_send ch k)
      | [] => goto (with_self (set_state signalerStateIdle x) h) (after_finish_pc k)
      end
  | F_unlock k => goto (with_self (set_mux false x) h) (after_finish_pc k)
  | _ => None
  end.

(** [finishAnswer]; the range expression [x.waitSimple] is evaluated once. *)
Definition finishAnswer (h : Heap) (p : pc) : option outcome :=
  match p with
  | FA_range err k => goto h (FA_send (waitSimple (self h)) err k)
  | FA_send [] err k => goto h (F_lock k)
  | _ => None
  end.

(** What the caller of [candidateProcess] does with [(done, err)]. *)
Definition after_candidateProcess (k : caller) (done : bool) (err : result) : pc :=
  match k with
  | InNegotiate sameBatch =>
      (* candidatesDone, err = ...; return err; deferred: if !candidatesDone *)
      if done then N_defer sameBatch false err
      else P_lock Discard (InNegotiateDefer sameBatch err) []
  | InNegotiateDefer sameBatch err0 => N_defer sameBatch false err0
  | InSendGoroutine =>
      if done then G_answer err
      else P_lock Discard (InSendGoroutineDiscard err) []
  | InSendGoroutineDiscard err0 => G_answer err0
  | InRejectGoroutine => FA_range (Some (Simple "peer rejected answer")) ThenExit
  end.

(** [c[len(c)-1] == ""] *)
Definition last_is_sentinel (c : list Candidate) : bool :=
  bool_decide (last c = Some sentinel).

(** [candidateProcess]; in mode [Send] the call [fn(c...)] is
    [x.set.CandidateAdd(c...)], whose error is [ext_err r]. *)
Definition candidateProcess (h : Heap) (r : ext) (p : pc) : option outcome :=
  let x := self h in
  match p with
  | P_lock m k batches =>
      if mux x then None else
      match candidates x with
      | _ :: _ => goto (with_self (set_candidates [] x) h) (P_call m k batches (candidates x))
      | [] => goto (with_self (set_candidateWant true x) h) (P_recv m k batches)
      end
  | P_call m k batches c =>
      let done := last_is_sentinel c in
      match match m with Send => ext_err r | Discard => None end with
      | Some e => goto h (P_return m k (batches ++ [c]) done (Some e))
      | None =>
          if done then goto h (P_return m k (batches ++ [c]) done None)
          else goto h (P_lock m k (batches ++ [c]))
      end
  | P_return m k batches done err => goto h (after_candidateProcess k done err)
  | _ => None
  end.

(** [Negotiate] *)
Definition Negotiate (h : Heap) (r : ext) (p : pc) : option outcome :=
  let x := self h in
  match p with
  | N_lock =>
      if mux x then None else
      if decide (state x = signalerStateIdle) then
        goto (with_self (set_state signalerStateOffering x) h) (N_CreateOffer [])
      else
        let ch := fresh h in
        goto (with_self (set_waitPending (waitPending x ++ [ch]) x) (make_chan h)) (N_wait ch)
  | N_woken ch err =>
      if mux x then None else
      match waitPending x with
      | ch0 :: rest =>
          if decide (ch0 = ch) then
            goto (with_self (set_state signalerStateOffering (set_waitPending [] x)) h)
                 (N_CreateOffer rest)
          else goto h (N_return (Member ch) err)
      | [] => goto h (N_return (Member ch) err)
      end
  | N_CreateOffer sameBatch =>
      match ext_err r with
      | Some e => goto h (N_defer sameBatch false (Some e))
      | None => goto h (N_Answer sameBatch (alter x (ext_sdp r)))
      end
  | N_Answer sameBatch offer =>
      (* x.set.Answer(SessionDescriptionOf(offer)) *)
      match ext_err r with
      | Some e =>
          if decide (Error e = conflictMessage) then goto h (N_concede sameBatch)
          else goto h (N_defer sameBatch false (Some e))
      | None => goto h (N_SetLocalDescription sameBatch offer (ext_answer r))
      end
  | N_concede sameBatch =>
      if mux x then None else
      let ch := fresh h in
      goto (with_self (set_waitPending []
                        (set_waitSimple (waitSimple x ++ [ch]) (set_mux true x)))
                      (make_chan h))
           (N_handoff (sameBatch ++ waitPending x) ch)
  | N_SetLocalDescription sameBatch offer answer =>
      match ext_err r with
      | Some e => goto h (N_defer sameBatch false (Some e))
      | None => goto h (N_SetRemoteDescription sameBatch answer)
      end
  | N_SetRemoteDescription sameBatch answer =>
      (* x.conn.SetRemoteDescription(answer.Convert()) *)
      match ext_err r with
      | Some e => goto h (N_reject sameBatch e)
      | None => goto h (P_lock Send (InNegotiate sameBatch) [])
      end
  | N_reject sameBatch e =>
      (* err2 := x.set.CandidateAdd(); return err; deferred discard *)
      let err :=
        match ext_err r with
        | Some err2 => Linked "negotiation set remote answer" e err2
        | None => e
        end in
      goto h (P_lock Discard (InNegotiateDefer sameBatch (Some err)) [])
  | N_defer sameBatch priorityConceded err =>
      if priorityConceded then goto h (N_broadcast sameBatch sameBatch err)
      else goto h (F_lock (ThenBroadcast sameBatch err))
  | N_broadcast sameBatch [] err => goto h (N_return (Active sameBatch) err)
  | _ => None
  end.

(** [Answer] *)
Definition Answer (h : Heap) (r : ext) (p : pc) : option outcome :=
  let x := self h in
  match p with
  | A_lock offer =>
      if mux x then None else
      if decide (state x = signalerStateOffering) then
        if priority x then
          goto h (A_return zeroSessionDescription (Some (Simple conflictMessage)))
        else goto h (A_wait offer)
      else
        goto (with_self (set_state signalerStateAnswering x) h) (A_SetRemoteDescription offer)
  | A_take offer =>
      goto (with_self (set_mux false (set_state signalerStateAnswering x)) h)
           (A_SetRemoteDescription offer)
  | A_SetRemoteDescription offer =>
      (* x.conn.SetRemoteDescription(offer.Convert()) *)
      match ext_err r with
      | Some e => goto h (A_return zeroSessionDescription (Some e))
      | None => goto h A_CreateAnswer
      end
  | A_CreateAnswer =>
      match ext_err r with
      | Some e => goto h (A_return zeroSessionDescription (Some e))
      | None => goto h (A_SetLocalDescription (alter x (ext_sdp r)))
      end
  | A_SetLocalDescription answer =>
      match ext_err r with
      | Some e => goto h (A_return zeroSessionDescription (Some e))
      | None => goto h (A_return (SessionDescriptionOf answer) None)
      end
  | _ => None
  end.

(** [CandidateAdd], [candidateAdd_finish] and the goroutine that sends the
    local candidates of an answer; in the loop, the error of
    [x.conn.AddICECandidate(candidate.Convert())] is [ext_err r].  A
    channel operation on a nil channel never completes. *)
Definition CandidateAdd (h : Heap) (r : ext) (p : pc) : option outcome :=
  let x := self h in
  match p with
  | CA_enter [] =>
      Some (h, CA_return None, [P_lock Discard InRejectGoroutine []])
  | CA_enter c =>
      match candidateAnswer x with
      | None =>
          Some (with_self (set_candidateAnswer (Some (fresh h)) x) (make_chan h),
                CA_loop c, [P_lock Send InSendGoroutine []])
      | Some _ => goto h (CA_loop c)
      end
  | CA_loop [] => goto h (CA_return None)
  | CA_loop (candidate :: rest) =>
      if decide (candidate = sentinel) then goto h (CA_finish AtSentinel)
      else
        match ext_err r with
        | Some e => goto h (CA_finish (AtError e))
        | None => goto h (CA_loop rest)
        end
  | CA_finish k => goto h (CA_finish_recv (candidateAnswer x) k)
  | CA_finish_recv (Some ch) k =>
      match buffered h !! ch with
      | Some err => goto (with_buffered (delete ch (buffered h)) h) (CA_finish_clear err k)
      | None => None
      end
  | CA_finish_clear err k =>
      goto (with_self (set_candidateAnswer None x) h) (FA_range err (ThenReturn k err))
  | G_answer err => goto h (G_answer_send (candidateAnswer x) err)
  | G_answer_send (Some ch) err =>
      match buffered h !! ch with
      | None => goto (with_buffered (<[ch := err]> (buffered h)) h) G_exit
      | Some _ => None
      end
  | _ => None
  end.

(** The first statements of [candidateHandle]. *)
Definition candidateHandle_enter (candidate : option webrtc.ICECandidate) : Candidate :=
  match candidate with
  | None => sentinel
  | Some c => CandidateOf c
  end.

(** [candidateHandle], from [x.mux.Lock()] on. *)
Definition candidateHandle (h : Heap) (p : callback_pc) : option (Heap * callback_pc) :=
  let x := self h in
  match p with
  | H_lock c =>
      if mux x then None else
      if candidateWant x then Some (with_self (set_mux true x) h, H_send c)
      else Some (with_self (set_candidates (candidates x ++ [c]) x) h, H_idle)
  | H_clear => Some (with_self (set_mux false (set_candidateWant false x)) h, H_idle)
  | _ => None
  end.

(** ** Unbuffered channels *)

Inductive message :=
| OnResult (ch : chan) (err : result)    (* a channel of waitPending or waitSimple *)
| OnPriority                             (* x.priorityChan *)
| OnCandidate (c : Candidate).           (* x.candidateChan *)

(** The send a goroutine is blocked in, and where it continues. *)
Definition sends (p : pc) : option (message * pc) :=
  match p with
  | N_broadcast sameBatch (ch :: rest) err => Some (OnResult ch err, N_broadcast sameBatch rest err)
  | N_handoff sameBatch ch => Some (OnPriority, N_conceded sameBatch ch)
  | FA_send (ch :: rest) err k => Some (OnResult ch err, FA_send rest err k)
  | F_send ch k => Some (OnResult ch None, F_unlock k)
  | _ => None
  end.

Definition callback_sends (p : callback_pc) : option (message * callback_pc) :=
  match p with
  | H_send c => Some (OnCandidate c, H_clear)
  | _ => None
  end.

(** Where a goroutine blocked in a receive continues with message [m]. *)
Definition receives (p : pc) (m : message) : option pc :=
  match p, m with
  | N_wait ch, OnResult ch' err =>
      if decide (ch = ch') then Some (N_woken ch err) else None
  | N_conceded sameBatch ch, OnResult ch' err =>
      if decide (ch = ch') then Some (N_defer sameBatch true err) else None
  | A_wait offer, OnPriority => Some (A_take offer)
  | P_recv m k batches, OnCandidate c => Some (P_call m k batches [c])
  | _, _ => None
  end.

(** ** The system *)

(** [delivered] lists the candidates in the order in which the callback
    was invoked with them, and [sent] the values that went through the
    channels of [waitPending] and [waitSimple]; both are records of what
    happened, which no transition reads. *)
Record World := {
  heap : Heap;
  threads : list pc;
  callback : callback_pc;
  delivered : list Candidate;
  sent : list (chan * result)
}.

Definition init (x : Signaler) : World :=
  {| heap := {| self := x; fresh := 0; buffered := ∅ |};
     threads := []; callback := H_idle; delivered := []; sent := [] |}.

Inductive event :=
| CallNegotiate                                    (* a local goroutine calls Negotiate *)
| CallAnswer (offer : SessionDescription)          (* the remote peer calls Answer *)
| CallCandidateAdd (c : list Candidate)            (* the remote peer calls CandidateAdd *)
| Gather (candidate : option webrtc.ICECandidate)  (* the peer connection calls the callback *)
| Run (i : nat) (r : ext)                          (* goroutine i makes a transition *)
| Sync (i j : nat)                                 (* goroutine j receives what i sends *)
| RunCallback
| SyncCallback (j : nat).                          (* goroutine j receives the candidate *)

(** The functions have disjoint program counters: the transition of a
    goroutine is that of the function it is in. *)
Definition orelse {A} (a b : option A) : option A :=
  match a with
  | Some o => Some o
  | None => b
  end.

Definition thread_step (h : Heap) (r : ext) (p : pc) : option outcome :=
  orelse (Negotiate h r p)
  (orelse (Answer h r p)
  (orelse (CandidateAdd h r p)
  (orelse (candidateProcess h r p)
  (orelse (finishAnswer h p) (finish h p))))).

Definition log (m : message) (l : list (chan * result)) : list (chan * result) :=
  match m with
  | OnResult ch err => l ++ [(ch, err)]
  | _ => l
  end.

Definition spawn (p : pc) (w : World) : World :=
  {| heap := heap w; threads := threads w ++ [p]; callback := callback w;
     delivered := delivered w; sent := sent w |}.

Definition step (w : World) (e : event) : option World :=
  match e with
  | CallNegotiate => Some (spawn N_lock w)
  | CallAnswer offer => Some (spawn (A_lock offer) w)
  | CallCandidateAdd c => Some (spawn (CA_enter c) w)
  | Gather candidate =>
      match callback w with
      | H_idle =>
          let c := candidateHandle_enter candidate in
          Some {| heap := heap w; threads := threads w; callback := H_lock c;
                  delivered := delivered w ++ [c]; sent := sent w |}
      | _ => None
      end
  | Run i r =>
      p ← threads w !! i;
      '(h, p', new) ← thread_step (heap w) r p;
      Some {| heap := h; threads := <[i := p']> (threads w) ++ new;
              callback := callback w; delivered := delivered w; sent := sent w |}
  | Sync i j =>
      p ← threads w !! i;
      q ← threads w !! j;
      '(m, p') ← sends p;
      q' ← receives q m;
      Some {| heap := heap w; threads := <[j := q']> (<[i := p']> (threads w));
              callback := callback w; delivered := delivered w;
              sent := log m (sent w) |}
  | RunCallback =>
      '(h, p') ← candidateHandle (heap w) (callback w);
      Some {| heap := h; threads := threads w; callback := p';
              delivered := delivered w; sent := sent w |}
  | SyncCallback j =>
      q ← threads w !! j;
      '(m, p') ← callback_sends (callback w);
      q' ← receives q m;
      Some {| heap := heap w; threads := <[j := q']> (threads w);
              callback := p'; delivered := delivered w; sent := sent w |}
  end.

Fixpoint run (es : list event) (w : World) : option World :=
  match es with
  | [] => Some w
  | e :: es => w' ← step w e; run es w'
  end.

(** The states of a Signaler made by [SignalerMake], with or without a
    hook registered through [SdpAlter] before any negotiation. *)
Inductive reachable : World -> Prop :=
| reachable_make priority :
    reachable (init (SignalerMake priority))
| reachable_alter priority fn :
    reachable (init (SdpAlter fn (SignalerMake priority)))
| reachable_step w e w' :
    reachable w -> step w e = Some w' -> reachable w'.

(** ** The data channel wrapper *)

(** [Channel] of the file with [ChannelMake], with the [ErrorHandle] of
    each build.  Callbacks are Go closures: they are identified by a
    name, and what an [InputTaker] returns for a message is supplied by the
    environment. *)
Module channel.

Definition bytes := list Byte.byte.

(** A function given to [OpenHandle], [CloseHandle] or [ErrorHandle]. *)
Definition handler := nat.

(** A [msg.InputTaker]. *)
Definition taker := nat.

(** pion's [DataChannel], as this package drives it: the callbacks it
    holds; [OnOpen], [OnClose], [OnError] and [OnMessage] each replace
    one. *)
Record DataChannel := {
  onOpen : option handler;
  onClose : option handler;
  onError : option handler;
  onMessage : option taker     (* the closure of InputChain over dst *)
}.

Record Channel := {
  V : DataChannel;
  buf : bytes;                       (* stdbytes.Buffer *)
  errorHandle : option handler       (* nil is None *)
}.

(** What a method does to the outside. *)
Inductive effect :=
| Sent (b : bytes)                         (* x.V.Send(b) *)
| Closed                                   (* x.V.Close() *)
| Took (dst : taker) (data : bytes)        (* dst(msg.Input{...}) on m.Data *)
| Handled (fn : handler) (err : error).    (* x.errorHandle(err) *)

Definition ChannelMake (v : DataChannel) : Channel :=
  {| V := v; buf := []; errorHandle := None |}.

(** [Close]; [r] is what [x.V.Close()] returns. *)
Definition Close (r : result) (x : Channel) : Channel * list effect * result :=
  (x, [Closed], r).

Definition CloseHandle (fn : handler) (x : Channel) : Channel :=
  {| V := {| onOpen := onOpen (V x); onClose := Some fn; onError := onError (V x);
             onMessage := onMessage (V x) |};
     buf := buf x; errorHandle := errorHandle x |}.

Definition OpenHandle (fn : handler) (x : Channel) : Channel :=
  {| V := {| onOpen := Some fn; onClose := onClose (V x); onError := onError (V x);
             onMessage := onMessage (V x) |};
     buf := buf x; errorHandle := errorHandle x |}.

Definition InputChain (dst : taker) (x : Channel) : Channel :=
  {| V := {| onOpen := onOpen (V x); onClose := onClose (V x); onError := onError (V x);
             onMessage := Some dst |};
     buf := buf x; errorHandle := errorHandle x |}.

(** [ErrorHandle] of the build without wasm; [fn] may be nil. *)
Definition ErrorHandle (fn : option handler) (x : Channel) : Channel :=
  {| V := {| onOpen := onOpen (V x); onClose := onClose (V x); onError := fn;
             onMessage := onMessage (V x) |};
     buf := buf x; errorHandle := fn |}.

(** [ErrorHandle] of the wasm build: the data channel has no [OnError]. *)
Definition ErrorHandle_wasm (fn : option handler) (x : Channel) : Channel :=
  {| V := V x; buf := buf x; errorHandle := fn |}.

(** The closure that [InputChain] gives to [OnMessage], called with a
    message whose data is [data]; [r] is what [dst] returns. *)
Definition InputChain_closure (dst : taker) (data : bytes) (r : result) (x : Channel)
    : list effect :=
  Took dst data ::
  match r with
  | Some err =>
      match errorHandle x with
      | Some fn => [Handled fn err]
      | None => []
      end
  | None => []
  end.

(** The data channel receives a message and calls its handler. *)
Definition message (data : bytes) (r : result) (x : Channel) : list effect :=
  match onMessage (V x) with
  | Some dst => InputChain_closure dst data r x
  | None => []
  end.

(** The functions of the [msg.Output] that [Output] returns; they share
    the buffer of the channel. *)

(** [Write: x.buf.Write] *)
Definition Output_Write (b : bytes) (x : Channel) : Channel * (nat * result) :=
  ({| V := V x; buf := buf x ++ b; errorHandle := errorHandle x |}, (length b, None)).

(** [Close]; [r] is what [x.V.Send(b)] returns. *)
Definition Output_Close (r : result) (x : Channel) : Channel * list effect * result :=
  ({| V := V x; buf := []; errorHandle := errorHandle x |}, [Sent (buf x)], r).

Definition Output_Cancel (x : Channel) : Channel * result :=
  ({| V := V x; buf := []; errorHandle := errorHandle x |}, None).

(** [ReadFrom]: [x.buf.ReadFrom(r)] appends what the reader yields up to
    its end or its error, [data], and returns that error, [err]. *)
Definition Output_ReadFrom (data : bytes) (err : result) (x : Channel)
    : Channel * (nat * result) :=
  ({| V := V x; buf := buf x ++ data; errorHandle := errorHandle x |}, (length data, err)).

(** A call on the output, with what the environment answers. *)
Inductive call :=
| Write (b : bytes)
| ReadFrom (data : bytes) (err : result)
| CloseOutput (r : result)
| Cancel.

Definition do_call (c : call) (x : Channel) : Channel * list effect :=
  match c with
  | Write b => ((Output_Write b x).1, [])
  | ReadFrom data err => ((Output_ReadFrom data err x).1, [])
  | CloseOutput r => (Output_Close r x).1
  | Cancel => ((Output_Cancel x).1, [])
  end.

(** A sequence of calls, with the effects in order. *)
Fixpoint do_calls (cs : list call) (x : Channel) : Channel * list effect :=
  match cs with
  | [] => (x, [])
  | c :: cs =>
      let '(x1, e1) := do_call c x in
      let '(x2, e2) := do_calls cs x1 in
      (x2, e1 ++ e2)
  end.

(** A registration of a callback. *)
Inductive registration :=
| RegInput (dst : taker)
| RegError (fn : option handler)
| RegErrorWasm (fn : option handler)
| RegOpen (fn : handler)
| RegClose (fn : handler).

Definition register (g : registration) (x : Channel) : Channel :=
  match g with
  | RegInput dst => InputChain dst x
  | RegError fn => ErrorHandle fn x
  | RegErrorWasm fn => ErrorHandle_wasm fn x
  | RegOpen fn => OpenHandle fn x
  | RegClose fn => CloseHandle fn x
  end.

End channel.

(** ** The former signaling functions *)

(** [signaler], [SignalAnswer] and [SignalOffer] of the file with [Sdp],
    [CandidateProcedureName] and [SdpProcedureName]: the two procedures
    that [setup] registers for the remote peer, the callback that it gives
    to [OnICECandidate], and the function that [SignalOffer] returns.  The
    mutex of [setup] guards two sections without a blocking statement,
    each of which is one transition. *)
Module legacy.

Record Sdp := {
  Type_ : webrtc.SDPType;
  String_ : string
}.

(** Which function called [setup], and so which [answerFunc] it was
    given. *)
Inductive side :=
| Offerer      (* SignalOffer: func() error { return nil } *)
| Answerer.    (* SignalAnswer: creates, sends and sets the answer *)

(** What the code does to the peer connection and to the remote peer. *)
Inductive effect :=
| GoCandidate (s : string)                         (* go x.candidate(candidate) *)
| GoSdp (s : Sdp)                                  (* go sig.sdp(answer) *)
| CallSdp (s : Sdp)                                (* sig.sdp(offer), waited for *)
| SetRemoteDescription (sd : webrtc.SessionDescription)
| SetLocalDescription (sd : webrtc.SessionDescription)
| AddICECandidate (ci : webrtc.ICECandidateInit).

(** [signaler.candidate]: the argument of [x.fnCandidate]. *)
Definition candidate (c : webrtc.ICECandidate) : string :=
  webrtc.Candidate (webrtc.ToJSON c).

(** [signaler.sdp]: the argument of [x.fnSdp]. *)
Definition sdp (sd : webrtc.SessionDescription) : Sdp :=
  {| Type_ := webrtc.Type_ sd; String_ := webrtc.SDP sd |}.

(** The argument that the candidate procedure gives to
    [conn.AddICECandidate]. *)
Definition candidate_init (s : string) : webrtc.ICECandidateInit :=
  {| webrtc.Candidate := s; webrtc.SDPMid := Some EmptyString;
     webrtc.SDPMLineIndex := Some 0%N; webrtc.UsernameFragment := None |}.

(** The argument that the sdp procedure gives to
    [conn.SetRemoteDescription]. *)
Definition description (s : Sdp) : webrtc.SessionDescription :=
  {| webrtc.Type_ := Type_ s; webrtc.SDP := String_ s |}.

Inductive pc :=
(* the sdp procedure *)
| S_SetRemoteDescription (s : Sdp)
| S_answerFunc                                       (* err := answerFunc() *)
| S_CreateAnswer                                     (* answerFunc of SignalAnswer *)
| S_SetLocalDescription (answer : webrtc.SessionDescription)
| S_flush                                            (* the loop over pending *)
| S_return (err : result)
(* the candidate procedure *)
| C_AddICECandidate (s : string)
| C_return (err : result)
(* the function returned by SignalOffer *)
| O_CreateOffer
| O_SetLocalDescription (offer : webrtc.SessionDescription)
| O_sdp (offer : webrtc.SessionDescription)
| O_return (err : result).

Record World := {
  who : side;
  pending : list webrtc.ICECandidate;
  procs : list pc;
  log : list effect
}.

(** The state after [SignalOffer] or [SignalAnswer] returned; [setup]
    has no failing path. *)
Definition setup (s : side) : World :=
  {| who := s; pending := []; procs := []; log := [] |}.

Definition SignalOffer : World := setup Offerer.
Definition SignalAnswer : World := setup Answerer.

Inductive event :=
| Gathered (candidate : option webrtc.ICECandidate)
           (desc : option webrtc.SessionDescription)
    (* the peer connection calls the callback; desc is what
       conn.RemoteDescription() returns in it *)
| RemoteSdp (s : Sdp)                  (* the remote peer calls the sdp procedure *)
| RemoteCandidate (s : string)         (* the remote peer calls the candidate procedure *)
| Start                                (* the function returned by SignalOffer is called *)
| Step (i : nat) (r : ext).            (* call i makes a transition *)

(** The callback given to [OnICECandidate]. *)
Definition OnICECandidate (cand : option webrtc.ICECandidate)
    (desc : option webrtc.SessionDescription) (w : World) : World :=
  match cand with
  | None => w
  | Some c =>
      match desc with
      | None =>
          {| who := who w; pending := pending w ++ [c]; procs := procs w; log := log w |}
      | Some _ =>
          {| who := who w; pending := pending w; procs := procs w;
             log := log w ++ [GoCandidate (candidate c)] |}
      end
  end.

(** One transition of a call: where it continues and what it does. *)
Definition proc_step (w : World) (r : ext) (p : pc) : option (pc * list effect) :=
  match p with
  | S_SetRemoteDescription s =>
      Some (match ext_err r with
            | Some e => S_return (Some e)
            | None => S_answerFunc
            end, [SetRemoteDescription (description s)])
  | S_answerFunc =>
      match who w with
      | Offerer => Some (S_flush, [])
      | Answerer => Some (S_CreateAnswer, [])
      end
  | S_CreateAnswer =>
      match ext_err r with
      | Some e => Some (S_return (Some e), [])
      | None => Some (S_SetLocalDescription (ext_sdp r), [GoSdp (sdp (ext_sdp r))])
      end
  | S_SetLocalDescription answer =>
      Some (match ext_err r with
            | Some e => S_return (Some e)
            | None => S_flush
            end, [SetLocalDescription answer])
  | S_flush => Some (S_return None, GoCandidate ∘ candidate <$> pending w)
  | C_AddICECandidate s => Some (C_return (ext_err r), [AddICECandidate (candidate_init s)])
  | O_CreateOffer =>
      match ext_err r with
      | Some e => Some (O_return (Some e), [])
      | None => Some (O_SetLocalDescription (ext_sdp r), [])
      end
  | O_SetLocalDescription offer =>
      Some (match ext_err r with
            | Some e => O_return (Some e)
            | None => O_sdp offer
            end, [SetLocalDescription offer])
  | O_sdp offer => Some (O_return (ext_err r), [CallSdp (sdp offer)])
  | S_return _ | C_return _ | O_return _ => None
  end.

Definition spawn (p : pc) (w : World) : World :=
  {| who := who w; pending := pending w; procs := procs w ++ [p]; log := log w |}.

Definition step (w : World) (e : event) : option World :=
  match e with
  | Gathered candidate desc => Some (OnICECandidate candidate desc w)
  | RemoteSdp s => Some (spawn (S_SetRemoteDescription s) w)
  | RemoteCandidate s => Some (spawn (C_AddICECandidate s) w)
  | Start =>
      match who w with
      | Offerer => Some (spawn O_CreateOffer w)
      | Answerer => None
      end
  | Step i r =>
      p ← procs w !! i;
      '(p', es) ← proc_step w r p;
      Some {| who := who w; pending := pending w; procs := <[i := p']> (procs w);
              log := log w ++ es |}
  end.

Fixpoint run (es : list event) (w : World) : option World :=
  match es with
  | [] => Some w
  | e :: es => w' ← step w e; run es w'
  end.

End legacy.

(** ** The former data channel wrapper *)

(** [Channel] and [writer] of the files with [ChannelNew] and
    [NewChannel]: the writer is the channel itself under another type, so
    that all writers of a channel share its buffer. *)
Module former.

Definition bytes := list Byte.byte.

(** A [msg.ReaderTaker]: [msg.Void] or one given to [ReaderChain]. *)
Inductive taker :=
| Void
| Taker (name : nat).

Record Channel := {
  buf : bytes;       (* buffer outgoing messages *)
  dst : taker
}.

Inductive effect :=
| Sent (b : bytes)                       (* x.V.Send(x.buf) *)
| Took (dst : taker) (data : bytes).     (* x.dst.ReaderTake(...) on m.Data *)

Definition ChannelNew : Channel := {| buf := []; dst := Void |}.

(** The closure that [ChannelNew] gives to [OnMessage]; what
    [ReaderTake] returns is not looked at. *)
Definition message (data : bytes) (x : Channel) : list effect := [Took (dst x) data].

Definition ReaderChain (d : taker) (x : Channel) : Channel * result :=
  ({| buf := buf x; dst := d |}, None).

(** [Writer] returns the pointer [x] under the type of the writer: the
    same channel. *)
Definition Writer (x : Channel) : Channel * result := (x, None).

Definition writer_Cancel (x : Channel) : Channel * result :=
  ({| buf := []; dst := dst x |}, None).

(** [Close]; [r] is what [x.V.Send(x.buf)] returns. *)
Definition writer_Close (r : result) (x : Channel) : Channel * list effect * result :=
  ({| buf := []; dst := dst x |}, [Sent (buf x)], r).

Definition writer_Write (b : bytes) (x : Channel) : Channel * (nat * result) :=
  ({| buf := buf x ++ b; dst := dst x |}, (length b, None)).

End former.

(** ** Predicates of the specification: the accumulator *)

(** The invariant of the accumulator: no consumer is marked as waiting
    while a candidate is buffered. *)
Definition wantInv (x : Signaler) : Prop :=
  candidateWant x = true -> candidates x = [].

(** While the callback is blocked in its send, a consumer is marked as
    waiting. *)
Definition callbackInv (w : World) : Prop :=
  forall c, callback w = H_send c -> candidateWant (self (heap w)) = true.

(** The batches [bs] occur in [d] one after the other, each as a run of
    consecutive elements. *)
Fixpoint segments (bs : list (list Candidate)) (d : list Candidate) : Prop :=
  match bs with
  | [] => True
  | b :: bs' => exists pre post, d = pre ++ b ++ post /\ segments bs' post
  end.

(** The candidate that the callback holds and has not yet stored or
    handed over. *)
Definition in_flight (p : callback_pc) : list Candidate :=
  match p with
  | H_lock c | H_send c => [c]
  | _ => []
  end.

(** The batches that a call of [candidateProcess] has taken so far, the
    one in hand included. *)
Definition process_batches (p : pc) : option (list (list Candidate)) :=
  match p with
  | P_lock _ _ bs | P_recv _ _ bs | P_return _ _ bs _ _ => Some bs
  | P_call _ _ bs c => Some (bs ++ [c])
  | _ => None
  end.

(** A batch after which the loop of [candidateProcess] goes on. *)
Definition open_batch (b : list Candidate) : Prop :=
  b <> [] /\ last_is_sentinel b = false.

(** What the program counter of [candidateProcess] says about its
    batches. *)
Definition process_shape (p : pc) : Prop :=
  match p with
  | P_lock _ _ bs | P_recv _ _ bs => Forall open_batch bs
  | P_call _ _ bs c => Forall open_batch bs /\ c <> []
  | P_return m _ bs done err =>
      (exists bs' b, bs = bs' ++ [b] /\ Forall open_batch bs' /\ b <> [] /\
                     done = last_is_sentinel b) /\
      (err = None -> done = true) /\ (m = Discard -> err = None)
  | _ => True
  end.

(** Every candidate delivered to the callback is in exactly one place:
    taken by a consumer, buffered, or held by the callback. *)
Definition accumulatorInv (w : World) : Prop :=
  exists taken,
    delivered w = taken ++ candidates (self (heap w)) ++ in_flight (callback w) /\
    Forall (fun p => forall bs, process_batches p = Some bs -> segments bs taken)
           (threads w).

(** The function that a caller gives to [candidateProcess]. *)
Definition caller_mode (k : caller) : mode :=
  match k with
  | InNegotiate _ | InSendGoroutine => Send
  | InNegotiateDefer _ _ | InSendGoroutineDiscard _ | InRejectGoroutine => Discard
  end.

(** The mode of a call of [candidateProcess] is that of its caller. *)
Definition mode_ok (p : pc) : Prop :=
  match p with
  | P_lock m k _ | P_recv m k _ | P_call m k _ _ | P_return m k _ _ _ => m = caller_mode k
  | _ => True
  end.

(** The goroutine is in [candidateProcessDiscard]. *)
Definition discarding (p : pc) : bool :=
  match p with
  | P_lock Discard _ _ | P_recv Discard _ _ | P_call Discard _ _ _
  | P_return Discard _ _ _ _ => true
  | _ => false
  end.


(** ** Batches and result channels *)

(** The batch of the call of [Negotiate] that called [candidateProcess]. *)
Definition caller_batch (k : caller) : list chan :=
  match k with
  | InNegotiate sameBatch | InNegotiateDefer sameBatch _ => sameBatch
  | _ => []
  end.

(** The batch that [finish] is followed by the broadcast to. *)
Definition finish_batch (k : after_finish) : list chan :=
  match k with
  | ThenBroadcast sameBatch _ => sameBatch
  | _ => []
  end.

(** The value of [sameBatch] in a call of [Negotiate]. *)
Definition batch_of (p : pc) : list chan :=
  match p with
  | N_CreateOffer sb | N_Answer sb _ | N_concede sb | N_handoff sb _ | N_conceded sb _
  | N_SetLocalDescription sb _ _ | N_SetRemoteDescription sb _ | N_reject sb _
  | N_defer sb _ _ | N_broadcast sb _ _ | N_return (Active sb) _ => sb
  | P_lock _ k _ | P_recv _ k _ | P_call _ k _ _ | P_return _ k _ _ _ => caller_batch k
  | F_lock k | F_send _ k | F_unlock k | FA_range _ k | FA_send _ _ k => finish_batch k
  | _ => []
  end.

(** The channels of a batch were taken out of [waitPending], which has
    since received new channels only. *)
Definition batchInv (w : World) : Prop :=
  Forall (fun ch => ch < fresh (heap w)) (waitPending (self (heap w))) /\
  Forall (fun p => Forall (fun ch => ch < fresh (heap w) /\
                                     ch ∉ waitPending (self (heap w))) (batch_of p))
         (threads w).

(** Callers are queued only while a negotiation is going on. *)
Definition pendingInv (x : Signaler) : Prop :=
  waitPending x <> [] -> state x <> signalerStateIdle.

(** A channel is in the queue or in the batch of one call of [Negotiate],
    never twice. *)
Definition distinctInv (w : World) : Prop :=
  NoDup (waitPending (self (heap w)) ++ concat (batch_of <$> threads w)).

(** The channel a goroutine receives its result from, between its creation
    and the receive. *)
Definition waits_on (p : pc) : option chan :=
  match p with
  | N_wait ch | N_handoff _ ch | N_conceded _ ch => Some ch
  | _ => None
  end.

(** A result channel has one receiver, which receives once: the channels
    still waited on and those a value went through are all different. *)
Definition receiversInv (w : World) : Prop :=
  NoDup (omap waits_on (threads w) ++ (sent w).*1) /\
  Forall (fun ch => ch < fresh (heap w)) (omap waits_on (threads w) ++ (sent w).*1).

(** What a program counter of [Negotiate] says about the values that went
    through the channels. *)
Definition sent_ok (l : list (chan * result)) (p : pc) : Prop :=
  match p with
  | N_broadcast sameBatch rest err =>
      exists served, sameBatch = served ++ rest /\ forall ch, ch ∈ served -> (ch, err) ∈ l
  | N_return (Active sameBatch) err => forall ch, ch ∈ sameBatch -> (ch, err) ∈ l
  | N_woken ch err | N_return (Member ch) err => (ch, err) ∈ l
  | _ => True
  end.

(** Every goroutine of [Negotiate] agrees with the record of the values sent. *)
Definition sentInv (w : World) : Prop := Forall (sent_ok (sent w)) (threads w).

(** [finishAnswer] sends on channels of [waitSimple] only. *)
Definition simple_ok (x : Signaler) (p : pc) : Prop :=
  match p with
  | FA_send chs _ _ => chs ⊆ waitSimple x
  | _ => True
  end.


(** ** Local callers only *)

(** The events without remote activity: no call of [Answer] or
    [CandidateAdd] by the remote peer. *)
Definition local_event (e : event) : Prop :=
  match e with
  | CallAnswer _ | CallCandidateAdd _ => False
  | _ => True
  end.

(** The states of a Signaler whose only callers are local callers of
    [Negotiate]. *)
Inductive negotiating : World -> Prop :=
| negotiating_make priority :
    negotiating (init (SignalerMake priority))
| negotiating_alter priority fn :
    negotiating (init (SdpAlter fn (SignalerMake priority)))
| negotiating_step w e w' :
    negotiating w -> local_event e -> step w e = Some w' -> negotiating w'.

(** The program counters of a call of [Negotiate]. *)
Definition negotiate_pc (p : pc) : Prop :=
  match p with
  | N_lock | N_wait _ | N_woken _ _ | N_CreateOffer _ | N_Answer _ _ | N_concede _
  | N_handoff _ _ | N_conceded _ _ | N_SetLocalDescription _ _ _
  | N_SetRemoteDescription _ _ | N_reject _ _ | N_defer _ _ _ | N_broadcast _ _ _
  | N_return _ _ => True
  | P_lock m k _ | P_recv m k _ | P_call m k _ _ | P_return m k _ _ _ =>
      match k with
      | InNegotiate _ | InNegotiateDefer _ _ => True
      | _ => False
      end
  | F_lock k | F_send _ k | F_unlock k =>
      match k with
      | ThenBroadcast _ _ => True
      | _ => False
      end
  | _ => False
  end.

(** The goroutine is between the creation of its offer and the end of its
    candidate exchange. *)
Definition exchanging (p : pc) : bool :=
  match p with
  | N_CreateOffer _ | N_Answer _ _ | N_SetLocalDescription _ _ _
  | N_SetRemoteDescription _ _ | N_reject _ _
  | P_lock _ _ _ | P_recv _ _ _ | P_call _ _ _ _ | P_return _ _ _ _ _ => true
  | _ => false
  end.

(** The goroutine runs the current round: it is exchanging, conceding,
    about to finish, or has been woken by [finish] to run the next round
    ([wp] is [waitPending]). *)
Definition holder (wp : list chan) (p : pc) : bool :=
  match p with
  | N_concede _ | N_handoff _ _ | N_conceded _ _ | N_defer _ _ _
  | F_lock _ | F_send _ _ => true
  | N_woken ch _ => bool_decide (head wp = Some ch)
  | _ => exchanging p
  end.

(** [holder] as an option, to count the goroutines that run a round. *)
Definition holds (wp : list chan) (p : pc) : option unit :=
  if holder wp p then Some () else None.

(** At most one goroutine runs a round, none when the Signaler is idle;
    [finish] sends on the head of the queue. *)
Definition tokenInv (w : World) : Prop :=
  let wp := waitPending (self (heap w)) in
  length (omap (holds wp) (threads w)) <= 1 /\
  (state (self (heap w)) = signalerStateIdle -> omap (holds wp) (threads w) = []) /\
  Forall (fun p => forall ch k, p = F_send ch k -> head wp = Some ch) (threads w).

(** The value [v] is the result of a round whose batch contains [ch]. *)
Definition served (ts : list pc) (ch : chan) (v : result) : Prop :=
  exists i sameBatch,
    ch ∈ sameBatch /\
    (ts !! i = Some (N_return (Active sameBatch) v) \/
     exists rest, ts !! i = Some (N_broadcast sameBatch rest v)).



(** A goroutine that serves a batch keeps serving it with the same
    result. *)
Definition keeps (p p' : pc) : Prop :=
  forall sameBatch v,
    (p = N_return (Active sameBatch) v \/ exists rest, p = N_broadcast sameBatch rest v) ->
    (p' = N_return (Active sameBatch) v \/ exists rest, p' = N_broadcast sameBatch rest v).

(** Every goroutine of [l] is still in [l'], serving what it served. *)
Definition evolves (l l' : list pc) : Prop :=
  forall i p, l !! i = Some p -> exists p', l' !! i = Some p' /\ keeps p p'.

(** The channels that a goroutine has still to send a result on. *)
Definition pending (p : pc) : list chan :=
  match p with
  | N_broadcast _ rest _ => rest
  | N_return _ _ => []
  | _ => batch_of p
  end.

(** With local callers only, the receiver of every result still to be
    sent is waiting for it, and so is every queued caller, except the head
    of the queue once [finish] has woken it. *)
Definition waitingInv (w : World) : Prop :=
  (forall i p ch, threads w !! i = Some p -> ch ∈ pending p ->
     exists j, threads w !! j = Some (N_wait ch)) /\
  (forall ch, ch ∈ waitPending (self (heap w)) ->
     (exists j, threads w !! j = Some (N_wait ch)) \/
     (head (waitPending (self (heap w))) = Some ch /\
      exists j v, threads w !! j = Some (N_woken ch v))).


(** The value a call of [Negotiate] returned. *)
Definition returned (p : pc) : option result :=
  match p with
  | N_return _ err => Some err
  | _ => None
  end.


(** ** Sample values and runs *)

(** An external call that succeeds. *)
Definition ok : ext :=
  {| ext_err := None;
     ext_sdp := {| webrtc.Type_ := webrtc.SDPTypeOffer; webrtc.SDP := "v=0 local" |};
     ext_answer := {| Type_ := webrtc.SDPTypeAnswer; String_ := "v=0 remote" |} |}.

(** An external call that fails with the message [msg]. *)
Definition failing (msg : string) : ext :=
  {| ext_err := Some (Simple msg); ext_sdp := ext_sdp ok; ext_answer := ext_answer ok |}.

(** Two gathered candidates. *)
Definition host1 : webrtc.ICECandidate :=
  {| webrtc.ToJSON := Convert "candidate:1 1 udp 2130706431 10.0.0.1 5000 typ host" |}.

Definition host2 : webrtc.ICECandidate :=
  {| webrtc.ToJSON := Convert "candidate:2 1 udp 2130706430 10.0.0.2 5001 typ host" |}.

(** An offer of the remote peer. *)
Definition remote_offer : SessionDescription :=
  {| Type_ := webrtc.SDPTypeOffer; String_ := "v=0 remote offer" |}.

(** The world after the events [es], from a fresh Signaler without
    priority. *)
Definition after (es : list event) : World :=
  default (init (SignalerMake false)) (run es (init (SignalerMake false))).

(** The worlds that the events [es] go through from [w], [w] included. *)
Fixpoint history (es : list event) (w : World) : list World :=
  w :: match es with
       | [] => []
       | e :: es => match step w e with
                    | Some w' => history es w'
                    | None => []
                    end
       end.

(** A caller of [Negotiate] gets its answer and starts sending. *)
Definition offer_accepted : list event :=
  [CallNegotiate; Run 0 ok; Run 0 ok; Run 0 ok; Run 0 ok; Run 0 ok].

(** It finds nothing buffered and waits for a candidate. *)
Definition consumer_waits : list event :=
  offer_accepted ++ [Run 0 ok].

(** Two candidates are gathered before the caller starts sending and go
    out as one batch; the end of gathering is handed over directly. *)
Definition send_round : list event :=
  [CallNegotiate; Run 0 ok; Run 0 ok; Run 0 ok; Run 0 ok;
   Gather (Some host1); RunCallback; Gather (Some host2); RunCallback;
   Run 0 ok; Run 0 ok; Run 0 ok; Run 0 ok;
   Gather None; RunCallback; SyncCallback 0; Run 0 ok].

(** A first caller runs a round alone; two more callers arrive while it is
    in flight and are queued; the creation of its offer fails. *)
Definition joined_round : list event :=
  [CallNegotiate; Run 0 ok; CallNegotiate; Run 1 ok; CallNegotiate; Run 2 ok;
   Run 0 (failing "create offer"); Run 0 ok].


(** The glare of the specification up to the answer of the side without
    priority: its offer is refused with the conflict error while the remote
    offer waits in [Answer]; it concedes and answers. *)
Definition glare_answered : list event :=
  [CallNegotiate; Run 0 ok; Run 0 ok; CallAnswer remote_offer; Run 1 ok;
   Run 0 (failing "conflict"); Run 0 ok; Sync 0 1;
   Run 1 ok; Run 1 ok; Run 1 ok; Run 1 ok].

(** The remote peer then rejects the answer with an empty [CandidateAdd];
    gathering has ended, so the discarding goroutine reaches
    [finishAnswer]. *)
Definition glare_rejected : list event :=
  glare_answered ++
  [CallCandidateAdd []; Run 2 ok; Gather None; RunCallback; Run 3 ok; Run 3 ok; Run 3 ok;
   Run 3 ok].

(** The first round ends: the conceding caller receives the error on its
    channel, [finish] returns the Signaler to idle, and the caller
    returns.  Its channel is still in [waitSimple]. *)
Definition glare_round : list event :=
  glare_rejected ++ [Sync 3 0; Run 3 ok; Run 3 ok; Run 0 ok; Run 0 ok].

(** The remote peer offers again, without glare, and rejects the answer
    again. *)
Definition second_rejection : list event :=
  [CallAnswer remote_offer; Run 4 ok; Run 4 ok; Run 4 ok; Run 4 ok;
   CallCandidateAdd []; Run 5 ok; Gather None; RunCallback;
   Run 6 ok; Run 6 ok; Run 6 ok; Run 6 ok].

(** A conceded glare followed by a second rejected answer. *)
Definition stale_waiter : list event := glare_round ++ second_rejection.

(** Gathering ends before the caller starts sending, and the transport
    fails to forward the only batch, which is the empty candidate. *)
Definition final_batch_fails : list event :=
  [CallNegotiate; Run 0 ok; Run 0 ok; Run 0 ok; Run 0 ok; Run 0 ok;
   Gather None; RunCallback; Run 0 ok; Run 0 (failing "transport")].

(** [Negotiate] then returns that error. *)
Definition final_batch_failed : list event :=
  final_batch_fails ++ [Run 0 ok; Run 0 ok; Run 0 ok; Run 0 ok].


(** ** Statements that the code does not satisfy *)

(** The claim that every error of the candidate exchange is followed by
    [candidateProcessDiscard], for the error of forwarding a batch. *)
Definition forward_error_discards : Prop :=
  forall h r sameBatch batches c e,
    ext_err r = Some e ->
    exists p,
      thread_step h r (P_call Send (InNegotiate sameBatch) batches c) = Some (h, p, []) /\
      thread_step h r p
        = Some (h, P_lock Discard (InNegotiateDefer sameBatch (Some e)) [], []).



(** ** A channel left in [waitSimple] *)

(** The program counters from which, while channel 0 heads [waitSimple]
    and nobody receives from it, [finish] cannot be reached. *)
Definition blocked_pc (p : pc) : Prop :=
  match p with
  | N_lock | N_return _ _ => True
  | N_wait ch => ch <> 0
  | A_lock _ | A_wait _ | A_take _ | A_SetRemoteDescription _ | A_CreateAnswer
  | A_SetLocalDescription _ | A_return _ _ => True
  | CA_enter _ | CA_loop _ | CA_finish _ | CA_finish_recv _ _ | CA_finish_clear _ _
  | CA_return _ => True
  | G_answer _ | G_answer_send _ _ | G_exit => True
  | P_lock _ k _ | P_recv _ k _ | P_call _ k _ _ | P_return _ k _ _ _ =>
      match k with
      | InNegotiate _ | InNegotiateDefer _ _ => False
      | _ => True
      end
  | FA_range _ k =>
      match k with
      | ThenBroadcast _ _ => False
      | _ => True
      end
  | FA_send chs _ k =>
      head chs = Some 0 /\
      match k with
      | ThenBroadcast _ _ => False
      | _ => True
      end
  | _ => False
  end.

(** Channel 0 heads [waitSimple], nobody can receive from it, and goroutine 6
    is blocked sending on it; the Signaler is not idle. *)
Definition blockedInv (w : World) : Prop :=
  head (waitSimple (self (heap w))) = Some 0 /\
  state (self (heap w)) <> signalerStateIdle /\
  0 < fresh (heap w) /\
  Forall blocked_pc (threads w) /\
  threads w !! 6 = Some (FA_send [0] (Some (Simple "peer rejected answer")) ThenExit).

(** The goroutine holds the mutex across a blocking statement. *)
Definition locked_pc (p : pc) : bool :=
  match p with
  | N_handoff _ _ | A_take _ | F_send _ _ | F_unlock _ => true
  | _ => false
  end.

Definition locked_callback (p : callback_pc) : bool :=
  match p with
  | H_send _ | H_clear => true
  | _ => false
  end.

(** [locked_pc] as an option, to count the goroutines that hold the mutex. *)
Definition locks (p : pc) : option unit :=
  if locked_pc p then Some () else None.

(** The number of goroutines that hold the mutex, the callback included. *)
Definition lockers (w : World) : nat :=
  length (omap locks (threads w)) + (if locked_callback (callback w) then 1 else 0).

(** The mutex is locked exactly when one goroutine holds it. *)
Definition lockInv (w : World) : Prop :=
  lockers w = if mux (self (heap w)) then 1 else 0.

(** The conceding caller of the glare has locked the mutex and is about to
    hand it to the waiting call of [Answer]. *)
Definition glare_handoff : list event :=
  [CallNegotiate; Run 0 ok; Run 0 ok; CallAnswer remote_offer; Run 1 ok;
   Run 0 (failing "conflict"); Run 0 ok].

(** The goroutine that [CandidateAdd] starts to send the local candidates
    of an answer, up to its send on [candidateAnswer]. *)
Definition answer_sender (p : pc) : bool :=
  match p with
  | P_lock _ k _ | P_recv _ k _ | P_call _ k _ _ | P_return _ k _ _ _ =>
      match k with
      | InSendGoroutine | InSendGoroutineDiscard _ => true
      | _ => false
      end
  | G_answer _ | G_answer_send _ _ => true
  | _ => false
  end.

(** A call of [candidateAdd_finish] between its receive and
    [x.candidateAnswer = nil]. *)
Definition answer_receiver (p : pc) : bool :=
  match p with
  | CA_finish_clear _ _ => true
  | _ => false
  end.

(** The goroutine carries the result of the sending goroutine: it computes
    it, or has received it and is about to clear the field. *)
Definition carries (p : pc) : option unit :=
  if answer_sender p || answer_receiver p then Some () else None.

(** The channel that the goroutine has read from [x.candidateAnswer]. *)
Definition answer_target (p : pc) : option (option chan) :=
  match p with
  | G_answer_send ch _ => Some ch
  | _ => None
  end.

(** [candidateAnswer] is set exactly while the result of one sending
    goroutine is on its way: computed by the goroutine, buffered in the
    channel, or received by a call of [candidateAdd_finish]. *)
Definition answerInv (w : World) : Prop :=
  let x := self (heap w) in
  length (omap carries (threads w)) + size (buffered (heap w))
    = (if candidateAnswer x is Some _ then 1 else 0) /\
  (forall ch v, buffered (heap w) !! ch = Some v -> candidateAnswer x = Some ch) /\
  Forall (fun p => forall o, answer_target p = Some o -> o = candidateAnswer x)
         (threads w).

(** The remote peer offers, gets its answer and sends its candidates; the
    goroutine started by [CandidateAdd] forwards the end of the local
    gathering and is about to report its result. *)
Definition answer_reported : list event :=
  [CallAnswer remote_offer; Run 0 ok; Run 0 ok; Run 0 ok; Run 0 ok;
   CallCandidateAdd [CandidateOf host1; sentinel]; Run 1 ok;
   Gather None; RunCallback; Run 2 ok; Run 2 ok; Run 2 ok; Run 2 ok].

(** While a consumer is marked as waiting and the callback has not yet
    handed a candidate over, a goroutine is blocked in the receive of
    [candidateProcess]. *)
Definition handoverInv (w : World) : Prop :=
  candidateWant (self (heap w)) = true -> callback w <> H_clear ->
  exists j m k bs, threads w !! j = Some (P_recv m k bs).

(** The consumer waits, a candidate is gathered, and the callback blocks in
    its send with the mutex held. *)
Definition handover_pending : list event :=
  consumer_waits ++ [Gather (Some host1); RunCallback].

(** What a call of [candidateProcess] has taken is followed, in the
    sequence of delivered candidates, by what is buffered and by what the
    callback holds. *)
Definition contiguous (w : World) (p : pc) : Prop :=
  forall bs, process_batches p = Some bs ->
    exists before,
      delivered w = before ++ concat bs ++ candidates (self (heap w)) ++ in_flight (callback w).

(** The descriptions that a call of [Negotiate] or [Answer] holds after the
    place where the hook is applied went through [alter]. *)
Definition hooked (x : Signaler) (p : pc) : Prop :=
  match p with
  | N_Answer _ o | N_SetLocalDescription _ o _ | A_SetLocalDescription o =>
      exists sd, o = alter x sd
  | A_return answer None => exists sd, answer = SessionDescriptionOf (alter x sd)
  | _ => True
  end.

(** A hook that appends an attribute line to the description. *)
Definition add_attribute (sd : webrtc.SessionDescription) : webrtc.SessionDescription :=
  {| webrtc.Type_ := webrtc.Type_ sd; webrtc.SDP := webrtc.SDP sd +:+ " a=recvonly" |}.

(** A caller of [Negotiate] on a Signaler with that hook has created its
    offer. *)
Definition hooked_offer : World :=
  let w := init (SdpAlter add_attribute (SignalerMake false)) in
  default w (run [CallNegotiate; Run 0 ok; Run 0 ok] w).

(** The goroutine has returned, or is a caller of [Negotiate] at its entry
    or in the queue. *)
Definition resting (p : pc) : bool :=
  match p with
  | N_lock | N_wait _ | N_return _ _ | A_return _ _ | CA_return _ | G_exit => true
  | _ => false
  end.

(** The goroutine is a caller of [Negotiate] that has not started a round. *)
Definition queued (p : pc) : bool :=
  match p with
  | N_lock | N_wait _ => true
  | _ => false
  end.

(** The remote peer offers and the peer connection refuses the offer. *)
Definition offer_refused : list event :=
  [CallAnswer remote_offer; Run 0 ok; Run 0 (failing "set remote description")].

(** The Signaler is left in the answering state with nobody to end it;
    the goroutines from [n] on are callers of [Negotiate] that wait. *)
Definition strandedInv (n : nat) (w : World) : Prop :=
  state (self (heap w)) = signalerStateAnswering /\
  Forall (fun p => resting p = true) (threads w) /\
  n <= length (threads w) /\
  forall i p, n <= i -> threads w !! i = Some p -> queued p = true.

(** The remote peer has got its answer and calls [CandidateAdd] with a
    candidate, the empty candidate and one more candidate. *)
Definition candidates_arrive : list event :=
  [CallAnswer remote_offer; Run 0 ok; Run 0 ok; Run 0 ok; Run 0 ok;
   CallCandidateAdd [CandidateOf host1; sentinel; CandidateOf host2]; Run 1 ok].

(** The channels of [l] were made in the order in which they are listed. *)
Definition in_order (l : list chan) : Prop :=
  forall i j a b, i < j -> l !! i = Some a -> l !! j = Some b -> a < b.

(** Without a call of [Answer] nobody receives from [priorityChan]: a
    caller that concedes stays at its hand-off. *)
Definition unanswered (p : pc) : Prop :=
  match p with
  | N_conceded _ _ | N_defer _ true _ => False
  | _ => True
  end.

(** With local callers only, somebody runs a round whenever the Signaler
    is not idle. *)
Definition busyInv (w : World) : Prop :=
  state (self (heap w)) <> signalerStateIdle ->
  exists i p, threads w !! i = Some p /\ holder (waitPending (self (heap w))) p = true.

(** Every caller that waits for a result is in the queue or in the batch
    of a caller that has still to send it. *)
Definition waiterInv (w : World) : Prop :=
  forall j ch, threads w !! j = Some (N_wait ch) ->
    ch ∈ waitPending (self (heap w)) \/
    exists i p, threads w !! i = Some p /\ ch ∈ pending p.

(** With local callers only, a consumer blocked in its receive is marked
    as waiting, and the callback is not between the hand-over and the
    clearing of the mark. *)
Definition wantedInv (w : World) : Prop :=
  forall i m k bs, threads w !! i = Some (P_recv m k bs) ->
    candidateWant (self (heap w)) = true /\ callback w <> H_clear.

(** The caller has not been told of a conflict by the remote peer. *)
Definition steady (p : pc) : Prop :=
  match p with
  | N_concede _ | N_handoff _ _ | N_conceded _ _ => False
  | _ => True
  end.

(** The events of a system left to itself in a helpful environment: no
    new call, local or remote; every external call succeeds; gathering
    ends. *)
Definition quiet (e : event) : Prop :=
  match e with
  | CallNegotiate | CallAnswer _ | CallCandidateAdd _ => False
  | Run _ r => r = ok
  | Gather candidate => candidate = None
  | _ => True
  end.

(** A bound on the transitions that a goroutine of [Negotiate] has left
    when every external call succeeds, apart from the candidates that it
    has still to take. *)
Definition process_rank (k : caller) : nat :=
  match k with
  | InNegotiate _ => 22
  | _ => 6
  end.

Definition rank (p : pc) : nat :=
  match p with
  | N_broadcast _ _ _ => 1
  | F_unlock _ => 2
  | F_send _ _ => 3
  | F_lock _ => 4
  | N_defer _ _ _ => 5
  | P_return _ k _ _ _ => process_rank k
  | P_call _ k _ c => process_rank k + (if last_is_sentinel c then 1 else 20)
  | P_recv _ k _ => process_rank k + 9
  | P_lock _ k _ => process_rank k + 15
  | N_reject _ _ => 22
  | N_SetRemoteDescription _ _ => 38
  | N_SetLocalDescription _ _ _ => 39
  | N_Answer _ _ => 40
  | N_CreateOffer _ => 41
  | N_woken _ _ => 42
  | N_wait _ => 43
  | N_lock => 44
  | _ => 0
  end.

(** The transitions that the callback has left, and those of the consumer
    that waits for it. *)
Definition callback_rank (p : callback_pc) (want : bool) : nat :=
  match p with
  | H_idle => if want then 4 else 0
  | H_lock _ => 3
  | H_send _ => 2
  | H_clear => 1
  end.

(** The candidates other than the empty one that are still to be taken. *)
Definition unfinished (l : list Candidate) : nat :=
  length (filter (fun c => c <> sentinel) l).

Definition measure (w : World) : nat :=
  sum_list (rank <$> threads w)
  + callback_rank (callback w) (candidateWant (self (heap w)))
  + unfinished (candidates (self (heap w)) ++ in_flight (callback w)) * 20.

(** The goroutine can make a transition of its own when the mutex is
    free. *)
Definition runnable (p : pc) : bool :=
  match p with
  | N_wait _ | N_return _ _ | P_recv _ _ _ | F_send _ _ | N_broadcast _ (_ :: _) _ => false
  | _ => true
  end.

Definition at_unlock (p : pc) : bool :=
  match p with F_unlock _ => true | _ => false end.

Definition at_wake (p : pc) : bool :=
  match p with F_send _ _ => true | _ => false end.

Definition at_broadcast (p : pc) : bool :=
  match p with N_broadcast _ (_ :: _) _ => true | _ => false end.

Definition at_receive (p : pc) : bool :=
  match p with P_recv _ _ _ => true | _ => false end.






(** *** Predicates on calls *)

(** The bytes that a call appends to the buffer. *)
Definition appended (c : channel.call) : option channel.bytes :=
  match c with
  | channel.Write b => Some b
  | channel.ReadFrom data _ => Some data
  | _ => None
  end.

(** The taker and the error handler that a registration sets. *)
Definition sets_taker (g : channel.registration) : option channel.taker :=
  match g with
  | channel.RegInput dst => Some dst
  | _ => None
  end.

Definition sets_handler (g : channel.registration) : option (option channel.handler) :=
  match g with
  | channel.RegError fn | channel.RegErrorWasm fn => Some fn
  | _ => None
  end.

(** A data channel on which nothing is registered. *)
Definition plain_channel : channel.DataChannel :=
  {| channel.onOpen := None; channel.onClose := None; channel.onError := None;
     channel.onMessage := None |}.

(** *** Predicates on runs *)

(** The candidates that the events deliver while the peer connection has
    no remote description, in order. *)
Definition held (es : list legacy.event) : list webrtc.ICECandidate :=
  omap (fun e => match e with
                 | legacy.Gathered (Some c) None => Some c
                 | _ => None
                 end) es.

(** The candidates that the events deliver while it has one. *)
Definition direct (es : list legacy.event) : list webrtc.ICECandidate :=
  omap (fun e => match e with
                 | legacy.Gathered (Some c) (Some _) => Some c
                 | _ => None
                 end) es.

(** The answer of the remote peer, as the sdp procedure receives it. *)
Definition remote_answer : legacy.Sdp :=
  {| legacy.Type_ := webrtc.SDPTypeAnswer; legacy.String_ := "v=0 remote answer" |}.

(** On the offering side a candidate is gathered before the answer
    arrives; the answer arrives twice, and both calls of the sdp procedure
    come to their loop over the held candidates. *)
Definition two_answers : list legacy.event :=
  [legacy.Gathered (Some host1) None;
   legacy.RemoteSdp remote_answer; legacy.Step 0 ok; legacy.Step 0 ok;
   legacy.RemoteSdp remote_answer; legacy.Step 1 ok; legacy.Step 1 ok].

(** The state after the events [es], from [SignalOffer] or
    [SignalAnswer]. *)
Definition legacy_after (s : legacy.side) (es : list legacy.event) : legacy.World :=
  default (legacy.setup s) (legacy.run es (legacy.setup s)).

(** On the answering side an offer arrives and is set as the remote
    description. *)
Definition offer_arrives : list legacy.event :=
  [legacy.RemoteSdp remote_answer; legacy.Step 0 ok; legacy.Step 0 ok].

(** * Properties *)

(** ** Case analysis of a transition *)

Ltac thread_cases H :=
  unfold thread_step, Negotiate, Answer, CandidateAdd, candidateProcess,
    finishAnswer, finish, goto, orelse in H;
  simpl in H; repeat case_match; simplify_eq; simpl in *.

Ltac bind_cases H :=
  repeat match type of H with
  | (mbind _ ?o) = Some _ =>
      let E := fresh "E" in
      destruct o eqn:E; simpl in H; [|discriminate H]
  | (let (_, _) := ?o in _) = Some _ => destruct o; simpl in H
  | (match ?o with (_, _) => _ end) = Some _ => destruct o; simpl in H
  end.

Ltac step_cases H :=
  match type of H with
  | step _ ?e = Some _ =>
      destruct e; simpl in H; unfold spawn in H; bind_cases H;
      try (injection H as <-); simpl in *
  end.

Ltac pick_disjunct :=
  solve [ eauto 10 | left; pick_disjunct | right; pick_disjunct ].

Ltac list_norm := rewrite ?app_nil_r, <- ?app_assoc; simpl.

Ltac unpack :=
  repeat match goal with
  | H : exists _, _ |- _ => destruct H
  | H : _ /\ _ |- _ => destruct H
  | H : _ \/ _ |- _ => destruct H
  end.

Ltac rew_fields :=
  repeat match goal with
  | H : waitPending _ = _ |- _ => progress rewrite H in *
  | H : waitSimple _ = _ |- _ => progress rewrite H in *
  | H : state _ = _ |- _ => progress rewrite H in *
  | H : candidates _ = _ |- _ => progress rewrite H in *
  end.

Lemma reachable_invariant (P : World -> Prop) :
  (forall x, sdpAlter x = None \/ (exists fn, sdpAlter x = Some fn) ->
     candidates x = [] -> candidateWant x = false -> candidateAnswer x = None ->
     state x = signalerStateIdle -> waitPending x = [] -> waitSimple x = [] ->
     mux x = false -> P (init x)) ->
  (forall w e w', reachable w -> P w -> step w e = Some w' -> P w') ->
  forall w, reachable w -> P w.
Proof.
  intros Hinit Hstep w Hw. induction Hw.
  - apply Hinit; simpl; auto.
  - apply Hinit; simpl; eauto.
  - eauto.
Qed.

(** ** The accumulator *)

Lemma thread_step_wantInv h r p h' p' new :
  thread_step h r p = Some (h', p', new) -> wantInv (self h) -> wantInv (self h').
Proof.
  intros H Hinv. unfold wantInv in *.
  destruct p; thread_cases H; try done.
  all: intros; auto; congruence.
Qed.

Lemma candidateHandle_wantInv h p h' p' :
  candidateHandle h p = Some (h', p') -> wantInv (self h) -> wantInv (self h').
Proof.
  intros H Hinv. unfold wantInv, candidateHandle in *.
  destruct p; simpl in H; repeat case_match; simplify_eq; simpl in *; try done.
  all: intros; auto; congruence.
Qed.

Lemma reachable_wantInv w : reachable w -> wantInv (self (heap w)).
Proof.
  revert w. apply reachable_invariant.
  - intros x _ Hc Hw _ _ _ _ _. unfold wantInv. simpl. auto.
  - intros w e w' _ IH H. step_cases H; eauto using thread_step_wantInv, candidateHandle_wantInv.
    + destruct (callback w); simplify_eq. done.
Qed.

Lemma run_reachable es : forall w w', reachable w -> run es w = Some w' -> reachable w'.
Proof.
  induction es as [|e es IH]; simpl; intros w w' Hw H.
  - by simplify_eq.
  - destruct (step w e) eqn:E; simpl in H; [|done]. eauto using reachable_step.
Qed.

Lemma segments_app_r bs d d' : segments bs d -> segments bs (d ++ d').
Proof.
  revert d. induction bs as [|b bs IH]; simpl; intros d; [done|].
  intros (pre & post & -> & H). exists pre, (post ++ d'). split; [|by apply IH].
  by rewrite <- !app_assoc.
Qed.

Lemma segments_snoc bs b d : segments bs d -> segments (bs ++ [b]) (d ++ b).
Proof.
  revert d. induction bs as [|b0 bs IH]; simpl; intros d.
  - intros _. exists d, []. by rewrite app_nil_r.
  - intros (pre & post & -> & H). exists pre, (post ++ b). split; [|by apply IH].
    by rewrite <- !app_assoc.
Qed.


Lemma thread_step_want_mono h r p h' p' new :
  thread_step h r p = Some (h', p', new) ->
  candidateWant (self h) = true -> candidateWant (self h') = true.
Proof. intros H Hw. destruct p; thread_cases H; done. Qed.

(** A transition of a goroutine takes the whole buffer or leaves it. *)
Lemma thread_step_takes h r p h' p' new :
  thread_step h r p = Some (h', p', new) ->
  exists c, candidates (self h) = c ++ candidates (self h') /\
    (forall taken bs', process_batches p' = Some bs' ->
       (forall bs, process_batches p = Some bs -> segments bs taken) ->
       segments bs' (taken ++ c)) /\
    Forall (fun q => forall bs, process_batches q = Some bs -> bs = []) new.
Proof.
  intros H. destruct p; thread_cases H.
  all: try (exists []; simpl; split; [done|]; split;
            [intros taken bs' Hp' Hbs;
             try match type of Hp' with
               | context [after_candidateProcess ?k ?d _] =>
                   destruct k; try destruct d; simpl in Hp'
               | context [after_finish_pc ?k] => destruct k; simpl in Hp'
               end;
             simplify_eq; rewrite ?app_nil_r; simpl; eauto
            | repeat constructor; simpl; intros; simplify_eq; done]).
  match goal with Hc : candidates _ = ?x |- _ => exists x end.
  split; [by rewrite app_nil_r|]. split; [|done].
  intros taken bs' ? Hbs. simplify_eq. apply segments_snoc; eauto.
Qed.

Lemma sends_inv p m p' :
  sends p = Some (m, p') ->
  (exists sb ch rest err, p = N_broadcast sb (ch :: rest) err /\ m = OnResult ch err /\
                          p' = N_broadcast sb rest err) \/
  (exists sb ch, p = N_handoff sb ch /\ m = OnPriority /\ p' = N_conceded sb ch) \/
  (exists ch rest err k, p = FA_send (ch :: rest) err k /\ m = OnResult ch err /\
                         p' = FA_send rest err k) \/
  (exists ch k, p = F_send ch k /\ m = OnResult ch None /\ p' = F_unlock k).
Proof.
  intros H. destruct p; try discriminate H; simpl in H;
    repeat case_match; simplify_eq.
  all: pick_disjunct.
Qed.

Lemma receives_inv q m q' :
  receives q m = Some q' ->
  (exists ch err, q = N_wait ch /\ m = OnResult ch err /\ q' = N_woken ch err) \/
  (exists sb ch err, q = N_conceded sb ch /\ m = OnResult ch err /\ q' = N_defer sb true err) \/
  (exists offer, q = A_wait offer /\ m = OnPriority /\ q' = A_take offer) \/
  (exists md k bs c, q = P_recv md k bs /\ m = OnCandidate c /\ q' = P_call md k bs [c]).
Proof.
  intros H. destruct q; try discriminate H; destruct m; try discriminate H;
    simpl in H; repeat case_match; simplify_eq.
  all: pick_disjunct.
Qed.

Lemma callback_sends_inv p m p' :
  callback_sends p = Some (m, p') -> exists c, p = H_send c /\ m = OnCandidate c /\ p' = H_clear.
Proof. destruct p; simpl; intros; simplify_eq; eauto. Qed.

Lemma reachable_callbackInv w : reachable w -> callbackInv w.
Proof.
  revert w. apply reachable_invariant.
  - intros x _ _ _ _ _ _ _ _ c. simpl. done.
  - intros w e w' _ IH H. unfold callbackInv in *. step_cases H; eauto.
    + destruct (callback w); simplify_eq. done.
    + intros c0 Hc. eapply thread_step_want_mono; eauto.
    + intros c0 Hc. simpl in *. unfold candidateHandle in *. repeat case_match; simplify_eq; done.
    + apply callback_sends_inv in E0 as (c' & ? & -> & ->). done.
Qed.

Lemma receives_candidate_inv q c q' :
  receives q (OnCandidate c) = Some q' ->
  exists md k bs, q = P_recv md k bs /\ q' = P_call md k bs [c].
Proof. intros H. destruct q; try discriminate H. simpl in H. simplify_eq. eauto. Qed.

Lemma receives_result_inv q ch err q' :
  receives q (OnResult ch err) = Some q' ->
  (q = N_wait ch /\ q' = N_woken ch err) \/
  (exists sb, q = N_conceded sb ch /\ q' = N_defer sb true err).
Proof.
  intros H. destruct q; try discriminate H; simpl in H; case_decide; simplify_eq; eauto.
Qed.

Lemma receives_priority_inv q q' :
  receives q OnPriority = Some q' -> exists offer, q = A_wait offer /\ q' = A_take offer.
Proof. intros H. destruct q; try discriminate H. simpl in H. simplify_eq. eauto. Qed.

Lemma reachable_accumulatorInv w : reachable w -> accumulatorInv w.
Proof.
  revert w. apply reachable_invariant.
  - intros x _ Hc _ _ _ _ _ _. exists []. simpl. rewrite Hc. done.
  - intros w e w' Hw (taken & Hd & Hall) H.
    pose proof (reachable_wantInv _ Hw) as Hwant.
    pose proof (reachable_callbackInv _ Hw) as Hcb.
    unfold accumulatorInv. step_cases H.
    + exists taken. split; [done|]. apply Forall_app. split; [done|]. by repeat constructor.
    + exists taken. split; [done|]. apply Forall_app. split; [done|]. by repeat constructor.
    + exists taken. split; [done|]. apply Forall_app. split; [done|]. by repeat constructor.
    + destruct (callback w) eqn:Ecb; simplify_eq. simpl in *.
      exists taken. split; [|done]. rewrite Hd. by list_norm.
    + destruct (thread_step_takes _ _ _ _ _ _ E0) as (c & Hc & Hp' & Hnew).
      exists (taken ++ c). split.
      { rewrite Hd, Hc. by list_norm. }
      apply Forall_app. split.
      * apply Forall_insert.
        -- eapply Forall_impl; [exact Hall|]. intros q Hq bs Hbs.
           apply segments_app_r. eauto.
        -- intros bs Hbs. apply Hp'; [done|].
           eapply Forall_lookup_1 in Hall; [|exact E]. exact Hall.
      * eapply Forall_impl; [exact Hnew|]. intros q Hq bs Hbs.
        rewrite (Hq _ Hbs). done.
    + exists taken. split; [done|].
      apply sends_inv in E1. apply receives_inv in E2.
      apply Forall_insert; [apply Forall_insert; [done|]|].
      * intros bs Hbs. unpack; simplify_eq; done.
      * intros bs Hbs. unpack; simplify_eq; done.
    + unfold candidateHandle in E. simpl in *.
      destruct (callback w) eqn:Ecb; simpl in *; repeat case_match; simplify_eq; simpl.
      * exists taken. by rewrite Hd.
      * exists taken. split; [|done]. rewrite Hd. by list_norm.
      * exists taken. by rewrite Hd.
    + apply callback_sends_inv in E0 as (c0 & Hcb0 & -> & ->).
      apply receives_candidate_inv in E1 as (md & k & bs0 & -> & ->).
      rewrite Hcb0 in Hd. simpl in Hd. rewrite (Hwant (Hcb _ Hcb0)) in *. simpl in *.
      exists (taken ++ [c0]). split; [rewrite Hd; by list_norm|].
      apply Forall_insert.
      * eapply Forall_impl; [exact Hall|]. intros q Hq bs Hbs. apply segments_app_r. eauto.
      * intros bs Hbs. simpl in Hbs. simplify_eq. apply segments_snoc.
        eapply Forall_lookup_1 in Hall; [|exact E]. by apply Hall.
Qed.

Lemma after_candidateProcess_shape k done err :
  process_shape (after_candidateProcess k done err).
Proof. destruct k, done; simpl; done. Qed.

Lemma after_finish_pc_shape k : process_shape (after_finish_pc k).
Proof. destruct k; simpl; done. Qed.

Lemma thread_step_shape h r p h' p' new :
  thread_step h r p = Some (h', p', new) ->
  process_shape p -> process_shape p' /\ Forall process_shape new.
Proof.
  intros H Hp. destruct p; thread_cases H;
    auto using after_candidateProcess_shape, after_finish_pc_shape.
  all: try (split; [|by repeat constructor]).
  all: try done.
  all: unfold open_batch in *.
  all: try (split; [done|congruence]).
  all: try (apply Forall_app; split; [tauto|]; repeat constructor; tauto).
  all: split_and?; try done; try congruence.
  all: eexists _, _; split_and?; try done; tauto.
Qed.

Lemma reachable_shape w : reachable w -> Forall process_shape (threads w).
Proof.
  revert w. apply reachable_invariant.
  - intros. simpl. done.
  - intros w e w' Hw IH H. step_cases H.
    + apply Forall_app. split; [done|]. by repeat constructor.
    + apply Forall_app. split; [done|]. by repeat constructor.
    + apply Forall_app. split; [done|]. by repeat constructor.
    + destruct (callback w); simplify_eq. done.
    + eapply Forall_lookup_1 in E as Hp; [|exact IH].
      destruct (thread_step_shape _ _ _ _ _ _ E0 Hp).
      apply Forall_app. split; [|done]. by apply Forall_insert.
    + apply sends_inv in E1. apply Forall_insert; [apply Forall_insert; [done|]|].
      * unpack; simplify_eq; done.
      * unpack; simplify_eq.
        all: apply receives_result_inv in E2 || apply receives_priority_inv in E2.
        all: unpack; simplify_eq; done.
    + done.
    + apply callback_sends_inv in E0 as (c0 & Hcb0 & -> & ->).
      apply receives_candidate_inv in E1 as (md & k & bs0 & -> & ->).
      apply Forall_insert; [done|].
      eapply Forall_lookup_1 in E; [|exact IH]. simpl in *. done.
Qed.

Lemma reachable_after es :
  is_Some (run es (init (SignalerMake false))) -> reachable (after es).
Proof.
  intros [w Hw]. unfold after. rewrite Hw. simpl.
  eapply run_reachable; [|exact Hw]. constructor.
Qed.

(** C7: in every reachable state, [candidateWant] is not set while a
    candidate is buffered; when a consumer waits, [candidateHandle] leaves
    the buffer as it is and hands the candidate over through
    [candidateChan], clearing [candidateWant] afterwards; and
    [candidateProcess] sets [candidateWant] only when it finds the buffer
    empty, taking the whole buffer otherwise. *)
Theorem candidateWant_excludes_buffered w :
  reachable w ->
  let x := self (heap w) in
  ~ (candidateWant x = true /\ candidates x <> []) /\
  (forall c, mux x = false -> candidateWant x = true ->
     exists h', candidateHandle (heap w) (H_lock c) = Some (h', H_send c) /\
       candidates (self h') = candidates x /\
       callback_sends (H_send c) = Some (OnCandidate c, H_clear) /\
       forall h1, exists h2, candidateHandle h1 H_clear = Some (h2, H_idle) /\
                             candidateWant (self h2) = false) /\
  (forall r m k bs h' p' new,
     thread_step (heap w) r (P_lock m k bs) = Some (h', p', new) ->
     (candidates x = [] /\ candidateWant (self h') = true /\ p' = P_recv m k bs) \/
     (candidates x <> [] /\ candidateWant (self h') = candidateWant x /\
      candidates (self h') = [] /\ p' = P_call m k bs (candidates x))).
Proof.
  intros Hw x. split; [|split].
  - intros [Hwant Hc]. apply Hc. by apply (reachable_wantInv _ Hw).
  - intros c Hm Hwant. unfold candidateHandle. fold x. rewrite Hm, Hwant.
    eexists. split; [done|]. split; [done|]. split; [done|].
    intros h1. eexists. split; done.
  - intros r m k bs h' p' new H. thread_cases H.
    + left. done.
    + right. subst x. split_and?; try done; congruence.
Qed.

Lemma candidateWant_excludes_buffered_witness :
  reachable (after consumer_waits) /\
  ~ (candidateWant (self (heap (after consumer_waits))) = true /\
     candidates (self (heap (after consumer_waits))) <> []).
Proof.
  assert (reachable (after consumer_waits)) as Hw.
  { apply reachable_after. vm_compute. eauto. }
  split; [exact Hw|].
  exact (proj1 (candidateWant_excludes_buffered (after consumer_waits) Hw)).
Defined.

Example consumer_waits_want :
  candidateWant (self (heap (after consumer_waits))) = true.
Proof. reflexivity. Qed.




(** ** Batches and the queue *)

Lemma thread_step_pendingInv h r p h' p' new :
  thread_step h r p = Some (h', p', new) -> pendingInv (self h) -> pendingInv (self h').
Proof.
  intros H Hinv. unfold pendingInv in *.
  destruct p; thread_cases H; try done.
  all: rew_fields; intros; auto; congruence.
Qed.

Lemma candidateHandle_queue h p h' p' :
  candidateHandle h p = Some (h', p') ->
  waitPending (self h') = waitPending (self h) /\ state (self h') = state (self h) /\
  waitSimple (self h') = waitSimple (self h) /\ fresh h' = fresh h.
Proof.
  unfold candidateHandle. intros H.
  destruct p; simpl in H; repeat case_match; simplify_eq; done.
Qed.

Lemma reachable_pendingInv w : reachable w -> pendingInv (self (heap w)).
Proof.
  revert w. apply reachable_invariant.
  - intros x _ _ _ _ _ Hp _ _. unfold pendingInv. simpl. congruence.
  - intros w e w' _ IH H. step_cases H; eauto using thread_step_pendingInv.
    + destruct (callback w); simplify_eq. done.
    + apply candidateHandle_queue in E as (Hp & Hs & _). unfold pendingInv in *.
      simpl. rewrite Hp, Hs. done.
Qed.

Lemma after_candidateProcess_batch k done err :
  batch_of (after_candidateProcess k done err) = caller_batch k.
Proof. destruct k, done; done. Qed.

Lemma after_finish_pc_batch k : batch_of (after_finish_pc k) = finish_batch k.
Proof. destruct k; done. Qed.

(** How a transition changes the queue and the batch of its goroutine. *)
Lemma thread_step_batch h r p h' p' new :
  thread_step h r p = Some (h', p', new) ->
  fresh h <= fresh h' /\
  (forall ch, ch ∈ waitPending (self h') ->
     ch ∈ waitPending (self h) \/ (ch = fresh h /\ fresh h' = S (fresh h))) /\
  (forall ch, ch ∈ batch_of p' ->
     ch ∈ batch_of p \/ (ch ∈ waitPending (self h) /\ waitPending (self h') = [])) /\
  Forall (fun q => batch_of q = []) new.
Proof.
  intros H. destruct p; thread_cases H;
    rewrite ?after_candidateProcess_batch, ?after_finish_pc_batch.
  all: split; [lia|]; split; [|split; [|by repeat constructor]].
  all: try (intros ch Hch; auto; fail).
  all: intros ? ?; rew_fields; set_solver.
Qed.

Lemma sends_batch p m p' : sends p = Some (m, p') -> batch_of p' = batch_of p.
Proof. intros H. apply sends_inv in H. unpack; simplify_eq; done. Qed.

Lemma receives_batch q m q' : receives q m = Some q' -> batch_of q' = batch_of q.
Proof. intros H. apply receives_inv in H. unpack; simplify_eq; done. Qed.

Lemma reachable_batchInv w : reachable w -> batchInv w.
Proof.
  revert w. apply reachable_invariant.
  - intros x _ _ _ _ _ Hp _ _. split; simpl; [by rewrite Hp|done].
  - intros w e w' _ [IHq IHt] H. unfold batchInv. step_cases H.
    + split; [done|]. apply Forall_app. split; [done|]. by repeat constructor.
    + split; [done|]. apply Forall_app. split; [done|]. by repeat constructor.
    + split; [done|]. apply Forall_app. split; [done|]. by repeat constructor.
    + destruct (callback w); simplify_eq. done.
    + destruct (thread_step_batch _ _ _ _ _ _ E0) as (Hf & Hq & Hb & Hnew).
      rewrite Forall_forall in IHq.
      assert (forall ch, ch ∈ waitPending (self h) -> ch < fresh h) as Hq'.
      { intros ch Hch. destruct (Hq _ Hch) as [Hold|[-> ->]]; [|lia].
        specialize (IHq _ Hold). lia. }
      assert (forall ch, ch < fresh (heap w) -> ch ∉ waitPending (self (heap w)) ->
                         ch < fresh h /\ ch ∉ waitPending (self h)) as Hkeep.
      { intros ch Hlt Hnin. split; [lia|]. intros Hch.
        destruct (Hq _ Hch) as [?|[-> _]]; [done|lia]. }
      split; [by apply Forall_forall|].
      apply Forall_app. split.
      * apply Forall_insert.
        -- eapply Forall_impl; [exact IHt|]. intros q Hall.
           eapply Forall_impl; [exact Hall|]. intros ch [? ?]. by apply Hkeep.
        -- apply Forall_forall. intros ch Hch.
           destruct (Hb _ Hch) as [Hold|[Hold Hnil]].
           ++ eapply Forall_lookup_1 in IHt; [|exact E].
              rewrite Forall_forall in IHt. destruct (IHt _ Hold). by apply Hkeep.
           ++ split; [specialize (IHq _ Hold); lia|]. rewrite Hnil. set_solver.
      * eapply Forall_impl; [exact Hnew|]. intros q ->. done.
    + split; [done|].
      apply Forall_insert; [apply Forall_insert; [done|]|].
      * rewrite (sends_batch _ _ _ E1). by eapply Forall_lookup_1 in IHt.
      * rewrite (receives_batch _ _ _ E2). by eapply Forall_lookup_1 in IHt.
    + apply candidateHandle_queue in E as (Hp & _ & _ & Hf). simpl.
      rewrite Hp, Hf. done.
    + split; [done|]. apply Forall_insert; [done|].
      rewrite (receives_batch _ _ _ E1). by eapply Forall_lookup_1 in IHt.
Qed.


(** ** Result channels *)

Lemma omap_insert_same {A B} (f : A -> option B) (l : list A) (i : nat) p p' :
  l !! i = Some p -> f p' = f p -> omap f (<[i:=p']> l) = omap f l.
Proof.
  revert i. induction l as [|a l IH]; intros [|i] Hi Hf; simplify_eq/=; [by rewrite Hf|].
  by rewrite IH.
Qed.

Lemma omap_insert_Permutation {A B} (f : A -> option B) (l : list A) (i : nat) p p' :
  l !! i = Some p ->
  omap f (<[i:=p']> l) ++ option_list (f p) ≡ₚ omap f l ++ option_list (f p').
Proof.
  revert i. induction l as [|a l IH]; intros [|i] Hi; simplify_eq/=.
  - destruct (f p) as [b|], (f p') as [b'|]; simpl; rewrite ?app_nil_r; try done.
    + rewrite (Permutation_app_comm _ [b]), (Permutation_app_comm _ [b']). simpl.
      apply perm_swap.
    + symmetry. apply Permutation_cons_append.
    + apply Permutation_cons_append.
  - destruct (f a); simpl; rewrite ?IH; done.
Qed.

Lemma sends_not_receives p m p' m' : sends p = Some (m, p') -> receives p m' = None.
Proof. intros H. apply sends_inv in H. unpack; simplify_eq; done. Qed.

Lemma thread_step_waits h r p h' p' new :
  thread_step h r p = Some (h', p', new) ->
  fresh h <= fresh h' /\
  (waits_on p' = waits_on p \/
   (waits_on p = None /\ waits_on p' = Some (fresh h) /\ fresh h' = S (fresh h))) /\
  Forall (fun q => waits_on q = None) new.
Proof.
  intros H. destruct p; thread_cases H.
  all: split; [lia|]; split; [|by repeat constructor].
  all: try (left; done); try (right; done).
  all: left; try (by destruct k); by destruct k, done.
Qed.

Lemma omap_None {A B} (f : A -> option B) (l : list A) : Forall (fun a => f a = None) l -> omap f l = [].
Proof. induction 1 as [|a l Ha _ IH]; simpl; [done|]. by rewrite Ha. Qed.

Lemma reachable_receiversInv w : reachable w -> receiversInv w.
Proof.
  revert w. apply reachable_invariant.
  - intros. split; simpl; [constructor|done].
  - intros w e w' _ [IHn IHf] H. unfold receiversInv. step_cases H.
    + rewrite omap_app. simpl. rewrite app_nil_r. done.
    + rewrite omap_app. simpl. rewrite app_nil_r. done.
    + rewrite omap_app. simpl. rewrite app_nil_r. done.
    + destruct (callback w); simplify_eq. done.
    + destruct (thread_step_waits _ _ _ _ _ _ E0) as (Hf & Hw & Hnew).
      rewrite omap_app, (omap_None _ _ Hnew), app_nil_r.
      destruct Hw as [Hsame|(Hnone & Hsome & Hfresh)].
      * rewrite (omap_insert_same _ _ _ _ _ E Hsame). split; [done|].
        eapply Forall_impl; [exact IHf|]. simpl. intros; lia.
      * pose proof (omap_insert_Permutation waits_on _ _ _ p0 E) as Hperm.
        rewrite Hnone, Hsome in Hperm. simpl in Hperm. rewrite app_nil_r in Hperm.
        rewrite Hperm, <- app_assoc. split.
        -- apply NoDup_app. apply NoDup_app in IHn as (? & ? & ?).
           apply Forall_app in IHf as [IHf1 IHf2]. rewrite Forall_forall in IHf1, IHf2.
           split; [done|]. split.
           ++ intros ch Hch Hin. apply elem_of_cons in Hin as [->|Hin].
              ** specialize (IHf1 _ Hch). lia.
              ** naive_solver.
           ++ simpl. constructor; [|done]. intros Hin. specialize (IHf2 _ Hin). lia.
        -- rewrite Hfresh. apply Forall_app in IHf as [IHf1 IHf2].
           apply Forall_app. split; [eapply Forall_impl; [exact IHf1|]; simpl; intros; lia|].
           constructor; [lia|]. eapply Forall_impl; [exact IHf2|]. simpl. intros; lia.
    + assert (i <> j) as Hij.
      { intros ->. rewrite E in E0. simplify_eq.
        by rewrite (sends_not_receives _ _ _ m E1) in E2. }
      assert (<[i:=p1]> (threads w) !! j = Some p0) as Hj.
      { by rewrite list_lookup_insert_ne. }
      pose proof (omap_insert_Permutation waits_on _ _ _ p2 Hj) as Hperm.
      assert (waits_on p1 = waits_on p) as Hp.
      { apply sends_inv in E1. unpack; simplify_eq; done. }
      rewrite (omap_insert_same _ _ _ _ _ E Hp) in Hperm.
      destruct m as [ch err| |c]; simpl.
      * apply receives_result_inv in E2.
        assert (waits_on p0 = Some ch /\ waits_on p2 = None) as [Hq Hq'].
        { unpack; simplify_eq; done. }
        rewrite Hq, Hq' in Hperm. simpl in Hperm. rewrite app_nil_r in Hperm.
        rewrite fmap_app. simpl.
        assert (omap waits_on (<[j:=p2]> (<[i:=p1]> (threads w))) ++ (sent w).*1 ++ [ch]
                ≡ₚ omap waits_on (threads w) ++ (sent w).*1) as Hperm'.
        { rewrite <- Hperm. rewrite <- !app_assoc. apply Permutation_app_head.
          apply Permutation_app_comm. }
        rewrite Hperm'. done.
      * apply receives_priority_inv in E2 as (offer & -> & ->). simpl in Hperm.
        rewrite !app_nil_r in Hperm. rewrite Hperm. done.
      * apply sends_inv in E1. unpack; simplify_eq.
    + apply candidateHandle_queue in E as (_ & _ & _ & Hf). rewrite Hf. done.
    + rewrite (omap_insert_same waits_on _ _ p p0 E); [done|].
      apply callback_sends_inv in E0 as (c0 & _ & -> & ->).
      apply receives_candidate_inv in E1 as (? & ? & ? & -> & ->). done.
Qed.

Lemma sent_ok_mono l l' p : l ⊆ l' -> sent_ok l p -> sent_ok l' p.
Proof.
  intros Hl. destruct p; simpl; try done; try (intros; by apply Hl).
  - intros (served & -> & H). exists served. split; [done|]. intros; by apply Hl, H.
  - destruct r; [|intros; by apply Hl]. intros H ch Hch. by apply Hl, H.
Qed.

Lemma sent_ok_start l sameBatch err : sent_ok l (N_broadcast sameBatch sameBatch err).
Proof. exists []. split; [done|]. intros ch Hch. by apply elem_of_nil in Hch. Qed.

Lemma sent_ok_after_finish_pc l k : sent_ok l (after_finish_pc k).
Proof. destruct k; simpl; first [done | apply sent_ok_start]. Qed.

Lemma thread_step_sent_ok l h r p h' p' new :
  thread_step h r p = Some (h', p', new) ->
  sent_ok l p -> sent_ok l p' /\ Forall (sent_ok l) new.
Proof.
  intros H Hp. destruct p; thread_cases H.
  all: split; [|by repeat constructor].
  all: try done.
  all: try first [apply sent_ok_start | apply sent_ok_after_finish_pc].
  all: try (destruct Hp as (served & -> & Hs); by rewrite app_nil_r).
  all: by destruct k, done.
Qed.

Lemma reachable_sentInv w : reachable w -> sentInv w.
Proof.
  revert w. apply reachable_invariant.
  - intros. unfold sentInv. simpl. done.
  - intros w e w' _ IH H. unfold sentInv in *. step_cases H.
    + apply Forall_app. split; [done|]. by repeat constructor.
    + apply Forall_app. split; [done|]. by repeat constructor.
    + apply Forall_app. split; [done|]. by repeat constructor.
    + destruct (callback w); simplify_eq. done.
    + eapply Forall_lookup_1 in E as Hp; [|exact IH].
      destruct (thread_step_sent_ok _ _ _ _ _ _ _ E0 Hp).
      apply Forall_app. split; [|done]. by apply Forall_insert.
    + assert (sent w ⊆ log m (sent w)) as Hsub.
      { destruct m; simpl; set_solver. }
      eapply Forall_lookup_1 in E as Hp; [|exact IH].
      apply sends_inv in E1.
      apply Forall_insert; [apply Forall_insert|].
      * eapply Forall_impl; [exact IH|]. intros q. by apply sent_ok_mono.
      * unpack; simplify_eq; try done. simpl in *.
        destruct Hp as (served & -> & Hs). exists (served ++ [x0]).
        split; [by rewrite <- app_assoc|]. intros ch Hch.
        set_solver.
      * unpack; simplify_eq.
        all: apply receives_result_inv in E2 || apply receives_priority_inv in E2.
        all: unpack; simplify_eq; simpl; try done; set_solver.
    + done.
    + apply callback_sends_inv in E0 as (c0 & _ & -> & ->).
      apply receives_candidate_inv in E1 as (? & ? & ? & -> & ->).
      apply Forall_insert; done.
Qed.


(** ** Claims on single transitions *)

(** C9: a non-empty candidate string survives the conversion to the wire
    form and back: the [Candidate] field of [Convert] is the string, and so
    is [CandidateOf] of a pion candidate whose JSON form is that
    conversion. *)
Theorem Convert_roundtrip (s : string) :
  s <> EmptyString ->
  webrtc.Candidate (Convert s) = s /\
  CandidateOf {| webrtc.ToJSON := Convert s |} = s.
Proof. intros _. split; reflexivity. Qed.

Lemma Convert_roundtrip_witness :
  "candidate:1 1 udp 2130706431 10.0.0.1 5000 typ host" <> EmptyString /\
  webrtc.Candidate (Convert "candidate:1 1 udp 2130706431 10.0.0.1 5000 typ host")
  = "candidate:1 1 udp 2130706431 10.0.0.1 5000 typ host".
Proof.
  split; [discriminate|].
  apply (Convert_roundtrip "candidate:1 1 udp 2130706431 10.0.0.1 5000 typ host").
  discriminate.
Defined.



Lemma thread_step_simple h r p h' p' new :
  thread_step h r p = Some (h', p', new) ->
  waitSimple (self h) ⊆ waitSimple (self h') /\
  (simple_ok (self h) p -> simple_ok (self h') p') /\
  Forall (simple_ok (self h')) new.
Proof.
  intros H. destruct p; thread_cases H.
  all: split; [set_solver|]; split; [|by repeat constructor].
  all: try done.
  all: try (by destruct k, done).
  all: try (by destruct k).
  all: set_solver.
Qed.

Lemma simple_ok_mono x x' p :
  waitSimple x ⊆ waitSimple x' -> simple_ok x p -> simple_ok x' p.
Proof. intros Hx. destruct p; simpl; try done. set_solver. Qed.

Lemma reachable_simple w : reachable w -> Forall (simple_ok (self (heap w))) (threads w).
Proof.
  revert w. apply reachable_invariant.
  - intros. simpl. done.
  - intros w e w' _ IH H. step_cases H.
    + apply Forall_app. split; [done|]. by repeat constructor.
    + apply Forall_app. split; [done|]. by repeat constructor.
    + apply Forall_app. split; [done|]. by repeat constructor.
    + destruct (callback w); simplify_eq. done.
    + destruct (thread_step_simple _ _ _ _ _ _ E0) as (Hsub & Hp & Hnew).
      apply Forall_app. split; [|done]. apply Forall_insert.
      * eapply Forall_impl; [exact IH|]. intros q. by apply simple_ok_mono.
      * apply Hp. by eapply Forall_lookup_1 in IH.
    + eapply Forall_lookup_1 in E as Hp; [|exact IH].
      apply sends_inv in E1. apply Forall_insert; [apply Forall_insert; [done|]|].
      * unpack; simplify_eq; try done. simpl in *. set_solver.
      * unpack; simplify_eq.
        all: apply receives_result_inv in E2 || apply receives_priority_inv in E2.
        all: unpack; simplify_eq; done.
    + apply candidateHandle_queue in E as (_ & _ & Hs & _).
      eapply Forall_impl; [exact IH|]. intros q. apply simple_ok_mono. by rewrite Hs.
    + apply callback_sends_inv in E0 as (c0 & _ & -> & ->).
      apply receives_candidate_inv in E1 as (? & ? & ? & -> & ->).
      apply Forall_insert; done.
Qed.

(** C10: [CandidateAdd] called without candidates returns nil in every
    state, after starting the goroutine that discards the local candidates;
    that goroutine passes the error "peer rejected answer" to
    [finishAnswer] and ends without returning it to anyone, and
    [finishAnswer] sends it on channels of [waitSimple] only. *)
Theorem CandidateAdd_empty_returns_nil w i chs err k :
  reachable w ->
  threads w !! i = Some (FA_send chs err k) ->
  (forall h r, thread_step h r (CA_enter [])
     = Some (h, CA_return None, [P_lock Discard InRejectGoroutine []])) /\
  (forall done e, after_candidateProcess InRejectGoroutine done e
     = FA_range (Some (Simple "peer rejected answer")) ThenExit) /\
  after_finish_pc ThenExit = G_exit /\
  chs ⊆ waitSimple (self (heap w)) /\
  (forall m p', sends (FA_send chs err k) = Some (m, p') ->
     exists ch rest, chs = ch :: rest /\ m = OnResult ch err /\ ch ∈ waitSimple (self (heap w))).
Proof.
  intros Hw Hi. split_and?; try done.
  - pose proof (reachable_simple _ Hw) as Hs.
    eapply Forall_lookup_1 in Hs; [|exact Hi]. done.
  - intros m p' H. destruct chs as [|ch rest]; simplify_eq/=.
    exists ch, rest. split_and?; try done.
    pose proof (reachable_simple _ Hw) as Hs.
    eapply Forall_lookup_1 in Hs; [|exact Hi]. simpl in Hs. set_solver.
Qed.

Lemma CandidateAdd_empty_returns_nil_witness :
  reachable (after glare_rejected) /\
  threads (after glare_rejected) !! 3
    = Some (FA_send [0] (Some (Simple "peer rejected answer")) ThenExit) /\
  [0] ⊆ waitSimple (self (heap (after glare_rejected))).
Proof.
  assert (reachable (after glare_rejected)) as Hw.
  { apply reachable_after. vm_compute. eauto. }
  assert (threads (after glare_rejected) !! 3
    = Some (FA_send [0] (Some (Simple "peer rejected answer")) ThenExit)) as Hi.
  { vm_compute. reflexivity. }
  split; [exact Hw|]. split; [exact Hi|].
  exact (proj1 (proj2 (proj2 (proj2 (CandidateAdd_empty_returns_nil _ _ _ _ _ Hw Hi))))).
Defined.



(** ** Discarding after an error *)

Lemma thread_step_mode_ok h r p h' p' new :
  thread_step h r p = Some (h', p', new) ->
  mode_ok p -> mode_ok p' /\ Forall mode_ok new.
Proof.
  intros H Hp. destruct p; thread_cases H.
  all: split; [|by repeat constructor].
  all: try done.
  all: try (by destruct k, done).
  all: by destruct k.
Qed.

Lemma reachable_mode_ok w : reachable w -> Forall mode_ok (threads w).
Proof.
  revert w. apply reachable_invariant.
  - intros. simpl. done.
  - intros w e w' _ IH H. step_cases H.
    + apply Forall_app. split; [done|]. by repeat constructor.
    + apply Forall_app. split; [done|]. by repeat constructor.
    + apply Forall_app. split; [done|]. by repeat constructor.
    + destruct (callback w); simplify_eq. done.
    + eapply Forall_lookup_1 in E as Hp; [|exact IH].
      destruct (thread_step_mode_ok _ _ _ _ _ _ E0 Hp).
      apply Forall_app. split; [|done]. by apply Forall_insert.
    + apply sends_inv in E1. apply Forall_insert; [apply Forall_insert; [done|]|].
      * unpack; simplify_eq; done.
      * unpack; simplify_eq.
        all: apply receives_result_inv in E2 || apply receives_priority_inv in E2.
        all: unpack; simplify_eq; done.
    + done.
    + apply callback_sends_inv in E0 as (c0 & _ & -> & ->).
      apply receives_candidate_inv in E1 as (? & ? & ? & -> & ->).
      apply Forall_insert; [done|].
      eapply Forall_lookup_1 in E; [|exact IH]. done.
Qed.

Lemma last_concat_snoc (bs : list (list Candidate)) b c :
  last (concat (bs ++ [b ++ [c]])) = Some c.
Proof. rewrite concat_app. simpl. rewrite app_nil_r, app_assoc. apply last_snoc. Qed.

(** C6, counterexample: the transport fails on the batch that ends with
    the empty candidate; [candidateProcessSend] returns [done = true] with
    the error, and [Negotiate] returns the error without any goroutine
    having been in [candidateProcessDiscard]. *)
Lemma final_batch_error_not_discarded :
  run final_batch_failed (init (SignalerMake false)) = Some (after final_batch_failed) /\
  threads (after final_batch_fails) !! 0
    = Some (P_return Send (InNegotiate []) [[sentinel]] true (Some (Simple "transport"))) /\
  threads (after final_batch_failed) !! 0
    = Some (N_return (Active []) (Some (Simple "transport"))) /\
  Forall (fun w => Forall (fun p => discarding p = false) (threads w))
         (history final_batch_failed (init (SignalerMake false))) /\
  ~ forward_error_discards.
Proof.
  split; [vm_compute; reflexivity|]. split; [vm_compute; reflexivity|].
  split; [vm_compute; reflexivity|]. split.
  - vm_compute. repeat constructor.
  - intros H.
    destruct (H {| self := SignalerMake false; fresh := 0; buffered := ∅ |}
                (failing "transport") [] [] [sentinel] (Simple "transport") eq_refl)
      as (p & H1 & H2).
    vm_compute in H1. injection H1 as <-. vm_compute in H2. discriminate H2.
Qed.

(** C6, amended: when the candidate exchange of [Negotiate] fails,
    [candidateProcessDiscard] runs before the error is returned, except
    when the failure is that of forwarding the batch that ends with the
    empty candidate; then everything up to the empty candidate has been
    taken already and [Negotiate] returns the error at once.  The discard
    takes what is gathered up to the empty candidate, calls the transport
    with none of it, and leaves the error as it was. *)
Theorem exchange_error_discards w i m k batches done err :
  reachable w ->
  threads w !! i = Some (P_return m k batches done err) ->
  (forall h r sameBatch answer e, ext_err r = Some e ->
     thread_step h r (N_SetRemoteDescription sameBatch answer)
       = Some (h, N_reject sameBatch e, []) /\
     forall r', exists e',
       thread_step h r' (N_reject sameBatch e)
         = Some (h, P_lock Discard (InNegotiateDefer sameBatch (Some e')) [], []) /\
       (ext_err r' = None -> e' = e)) /\
  (forall sameBatch, k = InNegotiate sameBatch ->
     m = Send /\
     (done = false ->
      after_candidateProcess k done err
        = P_lock Discard (InNegotiateDefer sameBatch err) []) /\
     (done = true ->
      after_candidateProcess k done err = N_defer sameBatch false err /\
      last (concat batches) = Some sentinel)) /\
  (forall sameBatch err0, k = InNegotiateDefer sameBatch err0 ->
     m = Discard /\ done = true /\ err = None /\
     last (concat batches) = Some sentinel /\
     after_candidateProcess k done err = N_defer sameBatch false err0) /\
  (forall h r r' k' bs c,
     thread_step h r (P_call Discard k' bs c) = thread_step h r' (P_call Discard k' bs c)).
Proof.
  intros Hw Hi.
  pose proof (reachable_shape _ Hw) as Hsh.
  eapply Forall_lookup_1 in Hsh; [|exact Hi]. simpl in Hsh.
  destruct Hsh as ((bs' & b & -> & _ & _ & Hdone) & Herr & Hm).
  pose proof (reachable_mode_ok _ Hw) as Hmo.
  eapply Forall_lookup_1 in Hmo; [|exact Hi]. simpl in Hmo.
  assert (done = true -> last (concat (bs' ++ [b])) = Some sentinel) as Hlast.
  { intros ->. symmetry in Hdone. unfold last_is_sentinel in Hdone.
    apply bool_decide_eq_true in Hdone. apply last_Some in Hdone as [final ->].
    apply last_concat_snoc. }
  split_and?.
  - intros h r sb answer e He. unfold thread_step. simpl. rewrite He. split; [done|].
    intros r'. simpl. destruct (ext_err r'); eexists; (split; [done|]); done.
  - intros sb ->. simpl in *. split; [done|]. split; [by intros ->|].
    intros ->. split; [done|]. by apply Hlast.
  - intros sb err0 ->. simpl in *. specialize (Hm Hmo). specialize (Herr Hm).
    split_and?; try done. by apply Hlast.
  - done.
Qed.

Lemma exchange_error_discards_witness :
  reachable (after final_batch_fails) /\
  threads (after final_batch_fails) !! 0
    = Some (P_return Send (InNegotiate []) [[sentinel]] true (Some (Simple "transport"))) /\
  (true = true ->
   after_candidateProcess (InNegotiate []) true (Some (Simple "transport"))
     = N_defer [] false (Some (Simple "transport")) /\
   last (concat [[sentinel]]) = Some sentinel).
Proof.
  assert (reachable (after final_batch_fails)) as Hw.
  { apply reachable_after. vm_compute. eauto. }
  assert (threads (after final_batch_fails) !! 0
    = Some (P_return Send (InNegotiate []) [[sentinel]] true (Some (Simple "transport"))))
    as Hi.
  { vm_compute. reflexivity. }
  split; [exact Hw|]. split; [exact Hi|].
  exact (proj2 (proj2 (proj1 (proj2 (exchange_error_discards _ _ _ _ _ _ _ Hw Hi)) [] eq_refl))).
Defined.

(** ** A channel left in [waitSimple] *)

Lemma thread_step_blocked h r p h' p' new :
  thread_step h r p = Some (h', p', new) ->
  blocked_pc p ->
  head (waitSimple (self h)) = Some 0 ->
  state (self h) <> signalerStateIdle ->
  0 < fresh h ->
  blocked_pc p' /\ Forall blocked_pc new /\
  head (waitSimple (self h')) = Some 0 /\
  state (self h') <> signalerStateIdle /\ 0 < fresh h'.
Proof.
  intros H Hp Hs Hst Hf. destruct p; try done; thread_cases H.
  all: try (destruct k; try done).
  all: try (destruct done).
  all: simpl; split_and?; try done; try lia; try (by repeat constructor).
  all: try (destruct Hp; done).
Qed.

Lemma blockedInv_step w e w' : blockedInv w -> step w e = Some w' -> blockedInv w'.
Proof.
  intros (Hs & Hst & Hf & Hall & H6) H. unfold blockedInv.
  assert (6 < length (threads w)) as Hlen by (by eapply lookup_lt_Some).
  step_cases H.
  - split_and?; try done.
    + apply Forall_app. split; [done|]. by repeat constructor.
    + by apply lookup_app_l_Some.
  - split_and?; try done.
    + apply Forall_app. split; [done|]. by repeat constructor.
    + by apply lookup_app_l_Some.
  - split_and?; try done.
    + apply Forall_app. split; [done|]. by repeat constructor.
    + by apply lookup_app_l_Some.
  - destruct (callback w); simplify_eq. done.
  - eapply Forall_lookup_1 in E as Hp; [|exact Hall].
    destruct (thread_step_blocked _ _ _ _ _ _ E0 Hp Hs Hst Hf) as (? & ? & ? & ? & ?).
    split_and?; try done.
    + apply Forall_app. split; [|done]. by apply Forall_insert.
    + apply lookup_app_l_Some. destruct (decide (i = 6)) as [->|].
      * rewrite H6 in E. injection E as <-. discriminate E0.
      * by rewrite list_lookup_insert_ne.
  - exfalso. eapply Forall_lookup_1 in E as Hp; [|exact Hall].
    eapply Forall_lookup_1 in E0 as Hq; [|exact Hall].
    apply sends_inv in E1. unpack; simplify_eq; try done. simpl in *. unpack. simplify_eq.
    apply receives_result_inv in E2. unpack; simplify_eq; done.
  - apply candidateHandle_queue in E as (_ & Hst' & Hs' & Hf'). simpl.
    rewrite Hs', Hst', Hf'. done.
  - apply callback_sends_inv in E0 as (c0 & _ & -> & ->).
    apply receives_candidate_inv in E1 as (? & ? & ? & -> & ->).
    split_and?; try done.
    + apply Forall_insert; [done|]. by eapply Forall_lookup_1 in E; [|exact Hall].
    + destruct (decide (j = 6)) as [->|]; [|by rewrite list_lookup_insert_ne].
      rewrite H6 in E. discriminate E.
Qed.

Lemma blockedInv_run es : forall w w', blockedInv w -> run es w = Some w' -> blockedInv w'.
Proof.
  induction es as [|e es IH]; simpl; intros w w' Hw H; [by simplify_eq|].
  destruct (step w e) eqn:E; simpl in H; [|done]. eauto using blockedInv_step.
Qed.

(** C5, the defect: a glare is conceded and the remote peer rejects the
    answer; the caller gets "peer rejected answer" and the Signaler returns
    to idle, with the channel of that caller still in [waitSimple].  The
    remote peer offers again and rejects again with an empty
    [CandidateAdd]: the goroutine discards the local candidates, then
    blocks in [finishAnswer] sending on that channel, from which nobody
    receives any more, and whatever happens next the Signaler never returns
    to idle. *)
Theorem stale_waitSimple_blocks_finishAnswer :
  state (self (heap (after glare_round))) = signalerStateIdle /\
  waitSimple (self (heap (after glare_round))) = [0] /\
  threads (after glare_round) !! 0
    = Some (N_return (Active []) (Some (Simple "peer rejected answer"))) /\
  run stale_waiter (init (SignalerMake false)) = Some (after stale_waiter) /\
  threads (after stale_waiter) !! 5 = Some (CA_return None) /\
  forall es w', run es (after stale_waiter) = Some w' ->
    threads w' !! 6
      = Some (FA_send [0] (Some (Simple "peer rejected answer")) ThenExit) /\
    state (self (heap w')) <> signalerStateIdle.
Proof.
  split; [vm_compute; reflexivity|]. split; [vm_compute; reflexivity|].
  split; [vm_compute; reflexivity|]. split; [vm_compute; reflexivity|].
  split; [vm_compute; reflexivity|].
  intros es w' H.
  assert (blockedInv (after stale_waiter)) as Hinv.
  { unfold blockedInv. split_and?; try (vm_compute; done).
    vm_compute. repeat constructor; done. }
  destruct (blockedInv_run _ _ _ Hinv H) as (_ & Hst & _ & _ & H6). done.
Qed.

(** ** Local callers only *)

Lemma negotiating_reachable w : negotiating w -> reachable w.
Proof. induction 1; eauto using reachable. Qed.

Lemma negotiating_invariant (P : World -> Prop) :
  (forall x, candidates x = [] -> state x = signalerStateIdle -> waitPending x = [] ->
     P (init x)) ->
  (forall w e w', negotiating w -> P w -> local_event e -> step w e = Some w' -> P w') ->
  forall w, negotiating w -> P w.
Proof.
  intros Hinit Hstep w Hw. induction Hw; eauto.
Qed.

Lemma thread_step_negotiate_pc h r p h' p' new :
  thread_step h r p = Some (h', p', new) ->
  negotiate_pc p -> negotiate_pc p' /\ new = [].
Proof.
  intros H Hp. destruct p; try done; thread_cases H; try done.
  all: try (by destruct k, done).
  all: by destruct k.
Qed.

Lemma negotiating_negotiate_pc w : negotiating w -> Forall negotiate_pc (threads w).
Proof.
  revert w. apply negotiating_invariant.
  - intros. simpl. done.
  - intros w e w' _ IH He H. step_cases H; try done.
    + apply Forall_app. split; [done|]. by repeat constructor.
    + destruct (callback w); simplify_eq. done.
    + eapply Forall_lookup_1 in E as Hp; [|exact IH].
      destruct (thread_step_negotiate_pc _ _ _ _ _ _ E0 Hp) as [? ->].
      rewrite app_nil_r. by apply Forall_insert.
    + eapply Forall_lookup_1 in E as Hp; [|exact IH].
      eapply Forall_lookup_1 in E0 as Hq; [|exact IH].
      apply sends_inv in E1. apply Forall_insert; [apply Forall_insert; [done|]|].
      * unpack; simplify_eq; done.
      * unpack; simplify_eq.
        all: apply receives_result_inv in E2 || apply receives_priority_inv in E2.
        all: unpack; simplify_eq; done.
    + apply callback_sends_inv in E0 as (c0 & _ & -> & ->).
      apply receives_candidate_inv in E1 as (? & ? & ? & -> & ->).
      apply Forall_insert; [done|].
      eapply Forall_lookup_1 in E; [|exact IH]. done.
Qed.

Lemma omap_Forall_ext {A B} (f g : A -> option B) (l : list A) :
  Forall (fun a => f a = g a) l -> omap f l = omap g l.
Proof.
  induction 1 as [|a l Ha _ IH]; simpl; [done|].
  rewrite Ha. destruct (g a); [f_equal|]; exact IH.
Qed.

Lemma omap_cons {A B} (f : A -> option B) (a : A) (l : list A) :
  omap f (a :: l) = match f a with Some y => y :: omap f l | None => omap f l end.
Proof. reflexivity. Qed.

Lemma omap_length_pos {A B} (f : A -> option B) (l : list A) (k : nat) x :
  l !! k = Some x -> is_Some (f x) -> 1 <= length (omap f l).
Proof.
  intros Hk [y Hy].
  assert (y ∈ omap f l) as Hin.
  { apply list_elem_of_omap. exists x. split; [|done]. by eapply list_elem_of_lookup_2. }
  destruct (omap f l); [by apply elem_of_nil in Hin|]. simpl. lia.
Qed.

(** If [omap f l] has at most one element, at most one position of [l]
    is mapped to something. *)
Lemma omap_unique {A B} (f : A -> option B) (l : list A) (i j : nat) p q :
  length (omap f l) <= 1 ->
  l !! i = Some p -> l !! j = Some q -> is_Some (f p) -> is_Some (f q) -> i = j.
Proof.
  revert i j. induction l as [|a l IH]; intros i j Hlen Hi Hj Hp Hq; [done|].
  rewrite omap_cons in Hlen.
  destruct i as [|i], j as [|j]; simplify_eq/=; try done.
  - destruct Hp as [b Hb]. rewrite Hb in Hlen. simpl in Hlen.
    pose proof (omap_length_pos f _ _ _ Hj Hq). lia.
  - destruct Hq as [c Hc]. rewrite Hc in Hlen. simpl in Hlen.
    pose proof (omap_length_pos f _ _ _ Hi Hp). lia.
  - f_equal. eapply IH; eauto. destruct (f a); simpl in Hlen; lia.
Qed.

Lemma holds_is_Some wp p : is_Some (holds wp p) <-> holder wp p = true.
Proof.
  unfold holds. destruct (holder wp p); split; intros H; eauto; try done.
Qed.

Lemma holds_None wp p : holds wp p = None <-> holder wp p = false.
Proof. unfold holds. by destruct (holder wp p). Qed.

Lemma holds_eq wp wp' p p' : holder wp' p' = holder wp p -> holds wp' p' = holds wp p.
Proof. unfold holds. by intros ->. Qed.

(** What a transition of [Negotiate] does to the round, the queue and the
    state. *)
Lemma thread_step_token h r p h' p' new :
  thread_step h r p = Some (h', p', new) ->
  negotiate_pc p ->
  let wp := waitPending (self h) in
  let wp' := waitPending (self h') in
  (forall ch k, p' = F_send ch k -> head wp' = Some ch) /\
  ((holder wp p = false /\ holder wp' p' = false /\ wp' = wp ++ [fresh h] /\
    state (self h') = state (self h) /\ state (self h) <> signalerStateIdle) \/
   (holder wp p = false /\ holder wp' p' = true /\ wp' = wp /\
    state (self h) = signalerStateIdle /\ state (self h') <> signalerStateIdle) \/
   (holder wp p = true /\ holder wp' p' = false /\ wp' = wp /\
    (state (self h') = state (self h) \/ wp = [])) \/
   (holder wp' p' = holder wp p /\ wp' = wp /\ state (self h') = state (self h)) \/
   (holder wp p = true /\ holder wp' p' = true /\ wp' = [] /\
    (state (self h') <> signalerStateIdle \/ state (self h') = state (self h)))).
Proof.
  intros H Hp. destruct p; try done; thread_cases H.
  all: try (destruct k; try done).
  all: try (destruct done).
  all: simpl; split; [intros; simplify_eq; rew_fields; done|].
  all: rew_fields; simpl; rewrite ?bool_decide_eq_true_2, ?bool_decide_eq_false_2 by congruence.
  all: first [ by (right; right; right; left)
             | by (left; split_and?; try done; congruence)
             | by (right; left; split_and?; try done; congruence)
             | by (right; right; left; split_and?; try done; eauto)
             | by (right; right; right; right; split_and?; try done; left; congruence)
             | by (right; right; right; right; split_and?; try done; right; congruence)
             | idtac ].
  all: try (right; right; left; split_and?; try done; eauto; fail).
Qed.

Lemma omap_change {A B} (f f' : A -> option B) (l : list A) (i : nat) p p' :
  l !! i = Some p ->
  (forall j q, j <> i -> l !! j = Some q -> f' q = f q) ->
  omap f' (<[i:=p']> l) ++ option_list (f p) ≡ₚ omap f l ++ option_list (f' p').
Proof.
  revert i. induction l as [|a l IH]; intros i Hi Hother; [done|].
  destruct i as [|i].
  - assert (a = p) as -> by (simpl in Hi; congruence).
    assert (omap f' l = omap f l) as Hl.
    { apply omap_Forall_ext, Forall_lookup_2. intros j q Hj. by apply (Hother (S j)). }
    change (<[0:=p']> (p :: l)) with (p' :: l).
    rewrite !omap_cons, Hl.
    destruct (f p) as [b|], (f' p') as [b'|]; simpl; rewrite ?app_nil_r; try done.
    + rewrite (Permutation_app_comm _ [b]), (Permutation_app_comm _ [b']). simpl.
      apply perm_swap.
    + symmetry. apply Permutation_cons_append.
    + apply Permutation_cons_append.
  - change (<[S i:=p']> (a :: l)) with (a :: <[i:=p']> l).
    rewrite !omap_cons. rewrite (Hother 0 a) by done.
    specialize (IH i Hi (fun j q Hj Hq => Hother (S j) q (ltac:(lia)) Hq)).
    destruct (f a); simpl; by rewrite ?IH.
Qed.

Lemma holder_enqueue wp n q :
  (forall ch v, q = N_woken ch v -> ch <> n) -> holder (wp ++ [n]) q = holder wp q.
Proof.
  intros Hq. destruct q; try done. simpl.
  destruct wp as [|a wp]; simpl; [|done].
  repeat case_bool_decide; simplify_eq; try done. exfalso. by eapply Hq.
Qed.

Lemma holder_nil wp q : holder wp q = false -> holder [] q = false.
Proof. destruct q; try done. Qed.

Lemma length_0_nil {A} (l : list A) : length l = 0 -> l = [].
Proof. by destruct l. Qed.

Lemma option_list_length_holds wp p :
  length (option_list (holds wp p)) = if holder wp p then 1 else 0.
Proof. unfold holds. by destruct (holder wp p). Qed.

(** A woken caller waited on a channel made earlier. *)
Lemma woken_fresh w i ch v :
  reachable w -> threads w !! i = Some (N_woken ch v) -> ch < fresh (heap w).
Proof.
  intros Hw Hi.
  pose proof (reachable_sentInv _ Hw) as Hs. eapply Forall_lookup_1 in Hs; [|exact Hi].
  simpl in Hs. destruct (reachable_receiversInv _ Hw) as [_ Hf].
  apply Forall_app in Hf as [_ Hf]. rewrite Forall_forall in Hf. apply Hf.
  by apply (list_elem_of_fmap_2 fst) in Hs.
Qed.

(** The channels that a broadcast still has to serve are not queued. *)
Lemma broadcast_not_queued w i sb ch rest err :
  reachable w -> threads w !! i = Some (N_broadcast sb (ch :: rest) err) ->
  ch ∉ waitPending (self (heap w)).
Proof.
  intros Hw Hi.
  pose proof (reachable_sentInv _ Hw) as Hs. eapply Forall_lookup_1 in Hs; [|exact Hi].
  destruct Hs as (served & -> & _).
  destruct (reachable_batchInv _ Hw) as [_ Hb].
  eapply Forall_lookup_1 in Hb; [|exact Hi]. simpl in Hb.
  rewrite Forall_forall in Hb. apply Hb. set_solver.
Qed.

Lemma negotiating_tokenInv w : negotiating w -> tokenInv w.
Proof.
  revert w. apply negotiating_invariant.
  - intros x _ Hs Hp. unfold tokenInv. simpl. split_and?; [lia|done|done].
  - intros w e w' Hn (Hlen & Hidle & Hfs) He H.
    pose proof (negotiating_reachable _ Hn) as Hw.
    pose proof (negotiating_negotiate_pc _ Hn) as Hpc.
    unfold tokenInv. step_cases H; try done.
    + rewrite omap_app. simpl. rewrite app_nil_r. split_and?; try done.
      apply Forall_app. split; [done|]. by repeat constructor.
    + destruct (callback w); simplify_eq. done.
    + (* a goroutine makes a transition *)
      eapply Forall_lookup_1 in E as Hp; [|exact Hpc].
      destruct (thread_step_negotiate_pc _ _ _ _ _ _ E0 Hp) as [_ ->].
      rewrite app_nil_r.
      destruct (thread_step_token _ _ _ _ _ _ E0 Hp) as [Hsend Hcase].
      set (wp := waitPending (self (heap w))) in *.
      set (wp' := waitPending (self h)) in *.
      assert (forall j q, j <> i -> threads w !! j = Some q ->
                holder wp' q = holder wp q /\
                (forall ch k, q = F_send ch k -> head wp' = Some ch)) as Hother.
      { intros j q Hj Hq.
        assert (forall ch k, q = F_send ch k -> head wp = Some ch) as Hq'.
        { eapply Forall_lookup_1 in Hfs; [|exact Hq]. exact Hfs. }
        destruct Hcase as [C|[C|[C|[C|C]]]].
        - destruct C as (_ & _ & -> & _). split.
          + apply holder_enqueue. intros ch v -> ->.
            pose proof (woken_fresh _ _ _ _ Hw Hq). lia.
          + intros ch k Hk. specialize (Hq' _ _ Hk). by destruct wp.
        - destruct C as (_ & _ & -> & _). done.
        - destruct C as (_ & _ & -> & _). done.
        - destruct C as (_ & -> & _). done.
        - destruct C as (Hh & _ & C & _).
          assert (holder wp q = false) as Hq0.
          { destruct (holder wp q) eqn:Hhq; [|done]. exfalso. apply Hj. symmetry.
            eapply (omap_unique (holds wp)); eauto; by apply holds_is_Some. }
          split.
          + rewrite C, Hq0. by eapply holder_nil.
          + intros ch k ->. done. }
      pose proof (omap_change (holds wp) (holds wp') _ _ _ p0 E
                    (fun j q Hj Hq => holds_eq _ _ _ _ (proj1 (Hother j q Hj Hq)))) as Hperm.
      apply Permutation_length in Hperm. rewrite !length_app in Hperm.
      rewrite !option_list_length_holds in Hperm.
      assert (1 <= length (omap (holds wp) (threads w)) \/ holder wp p = false) as Hpos.
      { destruct (holder wp p) eqn:Hh; [left|by right].
        eapply omap_length_pos; eauto. by apply holds_is_Some. }
      split_and?.
      * destruct Hcase as [C|[C|[C|[C|C]]]]; destruct_and!; rew_fields;
          repeat match goal with H : holder _ _ = _ |- _ => rewrite H in * end;
          try lia.
        all: try (rewrite (Hidle ltac:(done)) in Hperm; simpl in Hperm; lia).
        all: try (destruct (holder wp p); lia).
      * intros Hst. apply length_0_nil.
        destruct Hcase as [C|[C|[C|[C|C]]]]; destruct_and!;
          repeat match goal with H : holder _ _ = _ |- _ => rewrite H in * end;
          try congruence; try lia.
        -- rewrite Hidle in Hperm by congruence. simpl in Hperm.
           destruct (holder wp p); lia.
        -- destruct Hpos as [Hpos|?]; [|done].
           match goal with H : _ \/ _ |- _ => destruct H as [?|Heq]; [done|] end.
           rewrite Hidle in Hpos by congruence. simpl in Hpos. lia.
      * apply Forall_lookup_2. intros j q Hj.
        apply list_lookup_insert_Some in Hj as [(-> & <- & _)|[Hne Hj]]; [done|].
        by apply (Hother j q).
    + (* a rendezvous *)
      eapply Forall_lookup_1 in E as Hp; [|exact Hpc].
      eapply Forall_lookup_1 in E0 as Hq; [|exact Hpc].
      set (wp := waitPending (self (heap w))) in *.
      assert (i <> j) as Hij.
      { intros ->. rewrite E in E0. simplify_eq.
        by rewrite (sends_not_receives _ _ _ m E1) in E2. }
      assert (<[i:=p1]> (threads w) !! j = Some p0) as Hj.
      { by rewrite list_lookup_insert_ne. }
      pose proof (omap_insert_Permutation (holds wp) _ _ _ p1 E) as P1.
      pose proof (omap_insert_Permutation (holds wp) _ _ _ p2 Hj) as P2.
      apply Permutation_length in P1, P2. rewrite !length_app in P1, P2.
      rewrite !option_list_length_holds in P1, P2.
      assert (holder wp p = true -> holder wp p0 = true -> False) as Hexcl.
      { intros H1 H2. apply Hij. eapply (omap_unique (holds wp)); eauto;
          by apply holds_is_Some. }
      assert ((holder wp p1 = holder wp p /\ holder wp p2 = holder wp p0) \/
              (holder wp p = true /\ holder wp p1 = false /\
               holder wp p0 = false /\ holder wp p2 = true)) as Hcase.
      { apply sends_inv in E1. destruct E1 as [C|[C|[C|C]]].
        - destruct C as (sb & ch & rest & err & -> & -> & ->).
          left. split; [done|].
          apply receives_result_inv in E2 as [[-> ->]|(sb' & -> & ->)]; [|done].
          simpl. apply bool_decide_eq_false_2. intros Hh.
          apply (broadcast_not_queued _ _ _ _ _ _ Hw E). fold wp.
          destruct wp; simplify_eq/=. by left.
        - destruct C as (sb & ch & -> & -> & ->).
          apply receives_priority_inv in E2 as (offer & -> & ->). done.
        - destruct C as (ch & rest & err & k & -> & -> & ->). done.
        - destruct C as (ch & k & -> & -> & ->).
          apply receives_result_inv in E2 as [[-> ->]|(sb' & -> & ->)].
          + right. split_and?; try done. simpl. apply bool_decide_eq_true_2.
            eapply Forall_lookup_1 in Hfs; [|exact E]. by eapply Hfs.
          + exfalso. by apply Hexcl. }
      assert (length (omap (holds wp) (<[j:=p2]> (<[i:=p1]> (threads w))))
              = length (omap (holds wp) (threads w))) as Hsame.
      { destruct Hcase as [[H1 H2]|(H1 & H2 & H3 & H4)].
        - rewrite H1, H2 in *. destruct (holder wp p), (holder wp p0); lia.
        - rewrite H1, H2, H3, H4 in *. lia. }
      split_and?.
      * lia.
      * intros Hst. apply length_0_nil. rewrite Hsame, (Hidle Hst). done.
      * apply Forall_lookup_2. intros n q Hn'.
        apply list_lookup_insert_Some in Hn' as [(-> & <- & _)|[Hne Hn']].
        { intros ch k ->. apply sends_inv in E1.
          unpack; simplify_eq;
            apply receives_result_inv in E2 || apply receives_priority_inv in E2;
            unpack; simplify_eq. }
        apply list_lookup_insert_Some in Hn' as [(-> & <- & _)|[Hne' Hn']].
        { intros ch k ->. apply sends_inv in E1. unpack; simplify_eq. }
        eapply Forall_lookup_1 in Hfs; [|exact Hn']. exact Hfs.
    + apply candidateHandle_queue in E as (Hp & Hs & _). simpl. rewrite Hp, Hs. done.
    + apply callback_sends_inv in E0 as (c0 & _ & -> & ->).
      apply receives_candidate_inv in E1 as (? & ? & ? & -> & ->).
      rewrite (omap_insert_same (holds _) _ _ _ _ E) by done.
      split_and?; try done. apply Forall_insert; done.
Qed.

Lemma keeps_refl p : keeps p p.
Proof. by intros sb v. Qed.

Lemma evolves_refl l : evolves l l.
Proof. intros i p Hi. eauto using keeps_refl. Qed.












Lemma run_negotiating es : forall w w',
  negotiating w -> Forall local_event es -> run es w = Some w' -> negotiating w'.
Proof.
  induction es as [|e es IH]; simpl; intros w w' Hw Hes H; [by simplify_eq|].
  apply Forall_cons in Hes as [He Hes].
  destruct (step w e) eqn:E; simpl in H; [|done].
  eauto using negotiating_step.
Qed.


(** ** Receivers of the results *)

Lemma concat_fmap_insert_Permutation {A B} (f : A -> list B) (l : list A) (i : nat) p p' :
  l !! i = Some p ->
  concat (f <$> <[i:=p']> l) ++ f p ≡ₚ concat (f <$> l) ++ f p'.
Proof.
  revert i. induction l as [|a l IH]; intros i Hi; [done|].
  destruct i as [|i].
  - assert (a = p) as -> by (simpl in Hi; congruence).
    change (<[0:=p']> (p :: l)) with (p' :: l). rewrite !fmap_cons. simpl.
    rewrite <- !app_assoc.
    rewrite (Permutation_app_comm (f p')), (Permutation_app_comm (f p)).
    rewrite <- !app_assoc. apply Permutation_app_head, Permutation_app_comm.
  - change (<[S i:=p']> (a :: l)) with (a :: <[i:=p']> l). rewrite !fmap_cons. simpl.
    rewrite <- !app_assoc. apply Permutation_app_head. by apply IH.
Qed.

Lemma elem_of_concat {A} (x : A) (ls : list (list A)) :
  x ∈ concat ls <-> exists l, l ∈ ls /\ x ∈ l.
Proof.
  induction ls as [|a ls IH]; simpl.
  - split; [intros H; by apply elem_of_nil in H|intros (l & H & _); by apply elem_of_nil in H].
  - rewrite elem_of_app, IH. split.
    + intros [H|(l & H1 & H2)]; [exists a; split; [by left|done]|].
      exists l. split; [by right|done].
    + intros (l & [->|H1]%elem_of_cons & H2); [by left|]. right. eauto.
Qed.

Lemma NoDup_concat_lookup {A} (ls : list (list A)) (i k : nat) a b x :
  NoDup (concat ls) -> ls !! i = Some a -> ls !! k = Some b -> x ∈ a -> x ∈ b -> i = k.
Proof.
  revert i k. induction ls as [|c ls IH]; intros i k Hn Hi Hk Ha Hb; [done|].
  simpl in Hn. apply NoDup_app in Hn as (_ & Hd & Hn).
  assert (forall n d, ls !! n = Some d -> x ∈ d -> x ∈ concat ls) as Hin.
  { intros n d Hd' Hx. apply elem_of_concat. exists d. split; [|done].
    by eapply list_elem_of_lookup_2. }
  destruct i as [|i], k as [|k]; simplify_eq/=; try done.
  - exfalso. eapply Hd; eauto.
  - exfalso. eapply Hd; eauto.
  - f_equal. eauto.
Qed.

Lemma NoDup_concat_elem {A} (ls : list (list A)) (i : nat) a :
  NoDup (concat ls) -> ls !! i = Some a -> NoDup a.
Proof.
  revert i. induction ls as [|c ls IH]; intros i Hn Hi; [done|].
  simpl in Hn. apply NoDup_app in Hn as (Hc & _ & Hn).
  destruct i as [|i]; simplify_eq/=; eauto.
Qed.

(** What a transition does to the queue and to the batch together. *)
Lemma thread_step_batch_exact h r p h' p' new :
  thread_step h r p = Some (h', p', new) ->
  let wp := waitPending (self h) in
  let wp' := waitPending (self h') in
  Forall (fun q => batch_of q = []) new /\
  ((wp' = wp /\ batch_of p' = batch_of p) \/
   (wp' = wp ++ [fresh h] /\ batch_of p' = batch_of p) \/
   (exists ch, wp = ch :: batch_of p' /\ wp' = [] /\ batch_of p = []) \/
   (wp' = [] /\ batch_of p' = batch_of p ++ wp)).
Proof.
  intros H. destruct p; thread_cases H;
    rewrite ?after_candidateProcess_batch, ?after_finish_pc_batch.
  all: split; [by repeat constructor|].
  all: rew_fields.
  all: first [ by left | by (right; left) | by (right; right; left; eauto)
             | by (right; right; right) ].
Qed.

Lemma concat_batch_nil (new : list pc) :
  Forall (fun q => batch_of q = []) new -> concat (batch_of <$> new) = [].
Proof.
  induction 1 as [|q l Hq _ IHn]; [done|].
  rewrite fmap_cons. change (concat (batch_of q :: (batch_of <$> l)))
    with (batch_of q ++ concat (batch_of <$> l)).
  by rewrite Hq, IHn.
Qed.

Lemma reachable_distinctInv w : reachable w -> distinctInv w.
Proof.
  revert w. apply reachable_invariant.
  - intros x _ _ _ _ _ Hp _ _. unfold distinctInv. simpl. rewrite Hp. constructor.
  - intros w e w' Hw IH H. destruct (reachable_batchInv _ Hw) as [Hq Hb].
    unfold distinctInv in *. step_cases H.
    + rewrite fmap_app, concat_app. simpl. by rewrite !app_nil_r.
    + rewrite fmap_app, concat_app. simpl. by rewrite !app_nil_r.
    + rewrite fmap_app, concat_app. simpl. by rewrite !app_nil_r.
    + destruct (callback w); simplify_eq. done.
    + destruct (thread_step_batch_exact _ _ _ _ _ _ E0) as [Hnew Hcase].
      pose proof (concat_fmap_insert_Permutation batch_of _ _ _ p0 E) as Hperm.
      rewrite fmap_app, concat_app, (concat_batch_nil _ Hnew), app_nil_r.
      set (wp := waitPending (self (heap w))) in *.
      set (cs := concat (batch_of <$> threads w)) in *.
      set (cs' := concat (batch_of <$> <[i:=p0]> (threads w))) in *.
      destruct Hcase as [[-> Hbp]|[[-> Hbp]|[(ch & Hwp & -> & Hbp)|[-> Hbp]]]].
      * rewrite Hbp in Hperm. apply Permutation_app_inv_r in Hperm. by rewrite Hperm.
      * rewrite Hbp in Hperm. apply Permutation_app_inv_r in Hperm.
        rewrite Hperm, <- app_assoc. apply NoDup_app in IH as (Hn1 & Hd & Hn2).
        apply NoDup_app. split; [done|]. split.
        -- intros x Hx [->|Hin]%elem_of_cons.
           ++ rewrite Forall_forall in Hq. specialize (Hq _ Hx). lia.
           ++ by eapply Hd.
        -- simpl. constructor; [|done]. intros Hin. subst cs.
           apply elem_of_concat in Hin as (b & Hb' & Hxb).
           apply list_elem_of_fmap in Hb' as (q & -> & Hq').
           rewrite Forall_forall in Hb. specialize (Hb _ Hq').
           rewrite Forall_forall in Hb. destruct (Hb _ Hxb). lia.
      * rewrite Hbp, app_nil_r in Hperm. simpl. rewrite Hperm.
        rewrite Hwp in IH. simpl in IH. apply NoDup_cons in IH as [_ IH].
        by rewrite (Permutation_app_comm cs).
      * rewrite Hbp in Hperm. simpl.
        assert (cs' ≡ₚ cs ++ wp) as ->.
        { apply (Permutation_app_inv_r (batch_of p)). rewrite Hperm.
          rewrite <- !app_assoc. apply Permutation_app_head, Permutation_app_comm. }
        by rewrite (Permutation_app_comm cs).
    + assert (i <> j) as Hij.
      { intros ->. rewrite E in E0. simplify_eq.
        by rewrite (sends_not_receives _ _ _ m E1) in E2. }
      assert (<[i:=p1]> (threads w) !! j = Some p0) as Hj.
      { by rewrite list_lookup_insert_ne. }
      pose proof (concat_fmap_insert_Permutation batch_of _ _ _ p1 E) as P1.
      pose proof (concat_fmap_insert_Permutation batch_of _ _ _ p2 Hj) as P2.
      rewrite (sends_batch _ _ _ E1) in P1. apply Permutation_app_inv_r in P1.
      rewrite (receives_batch _ _ _ E2) in P2. apply Permutation_app_inv_r in P2.
      by rewrite P2, P1.
    + apply candidateHandle_queue in E as (Hp & _). simpl. by rewrite Hp.
    + pose proof (concat_fmap_insert_Permutation batch_of _ _ _ p0 E) as P1.
      rewrite (receives_batch _ _ _ E1) in P1. apply Permutation_app_inv_r in P1.
      by rewrite P1.
Qed.

Lemma pending_batch w i p ch :
  reachable w -> threads w !! i = Some p -> ch ∈ pending p -> ch ∈ batch_of p.
Proof.
  intros Hw Hi Hch.
  pose proof (reachable_sentInv _ Hw) as Hs. eapply Forall_lookup_1 in Hs; [|exact Hi].
  destruct p; try done; simpl in *.
  - destruct Hs as (served & -> & _). set_solver.
  - by apply elem_of_nil in Hch.
Qed.

(** What a transition of [Negotiate] does to the queue and to the results
    still to be sent. *)
Lemma thread_step_pending h r p h' p' new :
  thread_step h r p = Some (h', p', new) ->
  negotiate_pc p ->
  let wp := waitPending (self h) in
  let wp' := waitPending (self h') in
  (wp' = wp /\ (forall ch, ch ∈ pending p' -> ch ∈ pending p) /\
   (forall ch v, p = N_woken ch v -> head wp <> Some ch)) \/
  (wp' = wp ++ [fresh h] /\ p = N_lock /\ p' = N_wait (fresh h)) \/
  (wp' = [] /\ holder wp p = true /\
   forall ch, ch ∈ pending p' ->
     ch ∈ pending p \/ (ch ∈ wp /\ forall ch0 v, p = N_woken ch0 v -> wp = ch0 :: pending p')).
Proof.
  intros H Hp. destruct p; try done; thread_cases H.
  all: try (destruct k; try done).
  all: try (destruct done).
  all: rew_fields; simpl.
  all: first
    [ by (left; split_and?; [done|set_solver|intros; simplify_eq; simpl; congruence])
    | by (right; left)
    | right; right; split_and?;
        [done|by rewrite ?bool_decide_eq_true_2|intros; set_solver] ].
Qed.

Lemma waiting_survives (l : list pc) i p h r o p' j ch :
  l !! i = Some p -> thread_step h r p = Some o ->
  l !! j = Some (N_wait ch) -> <[i:=p']> l !! j = Some (N_wait ch).
Proof.
  intros Hi Hs Hj. rewrite list_lookup_insert_ne; [done|].
  intros ->. rewrite Hi in Hj. injection Hj as ->. discriminate Hs.
Qed.

Lemma negotiating_waitingInv w : negotiating w -> waitingInv w.
Proof.
  revert w. apply negotiating_invariant.
  - intros x _ _ Hp. split; simpl.
    + intros i p ch Hi. done.
    + rewrite Hp. intros ch Hch. by apply elem_of_nil in Hch.
  - intros w e w' Hn [W1 W2] He H.
    pose proof (negotiating_reachable _ Hn) as Hw.
    destruct (negotiating_tokenInv _ Hn) as (Hlen & _ & Hfs).
    pose proof (negotiating_negotiate_pc _ Hn) as Hpc.
    pose proof (reachable_distinctInv _ Hw) as Hd. unfold distinctInv in Hd.
    destruct (reachable_batchInv _ Hw) as [_ Hb].
    set (wp := waitPending (self (heap w))) in *.
    assert (forall k q c, threads w !! k = Some q -> c ∈ pending q -> c ∉ wp) as Hnq.
    { intros k q c Hk Hc. eapply Forall_lookup_1 in Hb; [|exact Hk].
      rewrite Forall_forall in Hb. apply Hb. by eapply pending_batch. }
    unfold waitingInv. step_cases H; try done.
    + (* a new caller *)
      split.
      * intros k q ch Hk Hch. apply lookup_app_Some in Hk as [Hk|[_ Hk]].
        -- destruct (W1 _ _ _ Hk Hch) as [j Hj]. exists j. by apply lookup_app_l_Some.
        -- apply list_lookup_singleton_Some in Hk as [_ <-]. by apply elem_of_nil in Hch.
      * intros ch Hch. destruct (W2 _ Hch) as [[j Hj]|(Hh & j & v & Hj)].
        -- left. exists j. by apply lookup_app_l_Some.
        -- right. split; [done|]. exists j, v. by apply lookup_app_l_Some.
    + destruct (callback w); simplify_eq. done.
    + (* a goroutine makes a transition *)
      eapply Forall_lookup_1 in E as Hp; [|exact Hpc].
      destruct (thread_step_negotiate_pc _ _ _ _ _ _ E0 Hp) as [_ ->].
      rewrite app_nil_r.
      assert (forall j ch, threads w !! j = Some (N_wait ch) ->
                <[i:=p0]> (threads w) !! j = Some (N_wait ch)) as Hsurv.
      { intros j ch Hj. by eapply waiting_survives. }
      assert (i < length (threads w)) as Hlt by (by eapply lookup_lt_Some).
      destruct (thread_step_pending _ _ _ _ _ _ E0 Hp) as [C|[C|C]]; fold wp in C.
      * destruct C as (Hwp & Hpend & Hnotprom). split.
        -- intros k q ch Hk Hch.
           apply list_lookup_insert_Some in Hk as [(<- & <- & _)|[Hne Hk]].
           ++ destruct (W1 _ _ _ E (Hpend _ Hch)) as [j Hj]. eauto.
           ++ destruct (W1 _ _ _ Hk Hch) as [j Hj]. eauto.
        -- rewrite Hwp. intros ch Hch. destruct (W2 _ Hch) as [[j Hj]|(Hh & j & v & Hj)].
           ++ left. eauto.
           ++ right. split; [done|]. exists j, v.
              rewrite list_lookup_insert_ne; [done|]. intros ->.
              rewrite E in Hj. simplify_eq. by eapply Hnotprom.
      * destruct C as (Hwp & -> & ->). split.
        -- intros k q ch Hk Hch.
           apply list_lookup_insert_Some in Hk as [(<- & <- & _)|[Hne Hk]].
           ++ by apply elem_of_nil in Hch.
           ++ destruct (W1 _ _ _ Hk Hch) as [j Hj]. eauto.
        -- rewrite Hwp. intros ch [Hch|Hch%list_elem_of_singleton]%elem_of_app.
           ++ destruct (W2 _ Hch) as [[j Hj]|(Hh & j & v & Hj)].
              ** left. eauto.
              ** right. split; [by destruct wp|]. exists j, v.
                 rewrite list_lookup_insert_ne; [done|]. intros ->.
                 rewrite E in Hj. simplify_eq.
           ++ subst ch. left. exists i. by apply list_lookup_insert_eq.
      * destruct C as (Hwp & Hhold & Hpend). split.
        -- intros k q ch Hk Hch.
           apply list_lookup_insert_Some in Hk as [(<- & <- & _)|[Hne Hk]].
           ++ destruct (Hpend _ Hch) as [Hold|[Hq Hprom]].
              ** destruct (W1 _ _ _ E Hold) as [j Hj]. eauto.
              ** destruct (W2 _ Hq) as [[j Hj]|(Hh & j & v & Hj)]; [eauto|].
                 exfalso. destruct (decide (j = i)) as [->|Hji].
                 --- rewrite E in Hj. simplify_eq. specialize (Hprom _ _ eq_refl).
                     apply NoDup_app in Hd as (Hd & _). rewrite Hprom in Hd.
                     apply NoDup_cons in Hd as [Hd _]. done.
                 --- apply Hji. eapply (omap_unique (holds wp)); eauto;
                       apply holds_is_Some; [|done].
                     simpl. by apply bool_decide_eq_true_2.
           ++ destruct (W1 _ _ _ Hk Hch) as [j Hj]. eauto.
        -- rewrite Hwp. intros ch Hch. by apply elem_of_nil in Hch.
    + (* a rendezvous *)
      eapply Forall_lookup_1 in E as Hp; [|exact Hpc].
      eapply Forall_lookup_1 in E0 as Hq; [|exact Hpc].
      assert (i <> j) as Hij.
      { intros ->. rewrite E in E0. simplify_eq.
        by rewrite (sends_not_receives _ _ _ m E1) in E2. }
      (* the channel of the message is in no other list than the sender's,
         and once in it *)
      assert (forall ch err, m = OnResult ch err ->
                (forall c, c ∈ pending p1 -> c ∈ pending p /\ c <> ch) /\
                (forall k q c, k <> i -> threads w !! k = Some q -> c ∈ pending q -> c <> ch) /\
                (forall c, c ∈ wp -> c <> ch \/ (head wp = Some ch /\ p0 = N_wait ch))) as Hmsg.
      { intros ch err ->. apply sends_inv in E1. destruct E1 as [C|[C|[C|C]]].
        - destruct C as (sb & ch' & rest & err' & -> & Hm & ->).
          injection Hm as Hc1 Hc2. subst ch' err'. simpl.
          assert (NoDup sb) as Hsb.
          { apply NoDup_app in Hd as (_ & _ & Hd).
            eapply (NoDup_concat_elem _ i); [exact Hd|].
            by rewrite list_lookup_fmap, E. }
          pose proof (reachable_sentInv _ Hw) as Hs.
          eapply Forall_lookup_1 in Hs; [|exact E]. destruct Hs as (served & -> & _).
          apply NoDup_app in Hsb as (_ & _ & Hsb). apply NoDup_cons in Hsb as [Hnin _].
          split_and?.
          + intros c Hc. split; [by right|]. by intros ->.
          + intros k q c Hk Hqk Hc Heq. apply Hk.
            apply NoDup_app in Hd as (_ & _ & Hd).
            eapply (NoDup_concat_lookup _ k i); [exact Hd| | | |].
            * by rewrite list_lookup_fmap, Hqk.
            * by rewrite list_lookup_fmap, E.
            * by eapply pending_batch.
            * simpl. subst. set_solver.
          + intros c Hc. left. intros Heq. subst.
            eapply (Hnq i); [exact E| |exact Hc]. simpl. by left.
        - destruct C as (? & ? & _ & ? & _). done.
        - destruct C as (? & ? & ? & ? & -> & _). done.
        - destruct C as (ch' & k & -> & Hm & ->).
          injection Hm as Hc1 Hc2. subst ch' err. simpl.
          assert (head wp = Some ch) as Hh.
          { eapply Forall_lookup_1 in Hfs; [|exact E]. by eapply Hfs. }
          assert (ch ∈ wp) as Hin by (destruct wp; simplify_eq/=; by left).
          split_and?.
          + intros c Hc. split; [done|]. intros Heq. subst. by eapply (Hnq i).
          + intros k' q c _ Hqk Hc Heq. subst. by eapply (Hnq k').
          + intros c Hc. destruct (decide (c = ch)) as [->|]; [|by left]. right.
            split; [done|].
            apply receives_result_inv in E2 as [[-> _]|(sb' & -> & _)]; [done|].
            exfalso. apply Hij. eapply (omap_unique (holds wp)); eauto;
              by apply holds_is_Some. }
      assert (forall n c, threads w !! n = Some (N_wait c) ->
                (forall ch err, m = OnResult ch err -> c <> ch) ->
                <[j:=p2]> (<[i:=p1]> (threads w)) !! n = Some (N_wait c)) as Hsurv.
      { intros n c Hn' Hc.
        assert (n <> i).
        { intros ->. rewrite E in Hn'. injection Hn' as ->. discriminate E1. }
        rewrite list_lookup_insert_ne; [by rewrite list_lookup_insert_ne|].
        intros ->. rewrite E0 in Hn'. simplify_eq.
        destruct m; try done. simpl in E2. case_decide; [|done]. by eapply Hc. }
      assert (forall c, c ∈ pending p2 -> c ∈ pending p0) as Hrecv.
      { intros c. destruct m.
        - apply receives_result_inv in E2 as [[-> ->]|(sb' & -> & ->)]; done.
        - apply receives_priority_inv in E2 as (offer & -> & ->). done.
        - apply receives_candidate_inv in E2 as (? & ? & ? & -> & ->). done. }
      split.
      * intros k q c Hk Hc.
        apply list_lookup_insert_Some in Hk as [(<- & <- & _)|[Hne Hk]].
        { (* the receiver *)
          destruct (W1 _ _ _ E0 (Hrecv _ Hc)) as [n Hn']. exists n. apply Hsurv; [done|].
          intros ch err Hm. destruct (Hmsg _ _ Hm) as (_ & Ho & _).
          eapply (Ho j); eauto. }
        apply list_lookup_insert_Some in Hk as [(<- & <- & _)|[Hne' Hk]].
        { (* the sender *)
          destruct m as [ch err| |c0].
          - destruct (Hmsg _ _ eq_refl) as (Hs & _ & _). destruct (Hs _ Hc) as [Hc' Hne'].
            destruct (W1 _ _ _ E Hc') as [n Hn']. exists n. apply Hsurv; [done|].
            by intros ?? [= <- <-].
          - apply sends_inv in E1. unpack; simplify_eq.
            apply receives_priority_inv in E2 as (offer & -> & ->). done.
          - apply sends_inv in E1. unpack; simplify_eq. }
        destruct (W1 _ _ _ Hk Hc) as [n Hn']. exists n. apply Hsurv; [done|].
        intros ch err Hm. destruct (Hmsg _ _ Hm) as (_ & Ho & _). eapply (Ho k); eauto.
      * intros c Hc. destruct m as [ch err| |c0].
        -- destruct (Hmsg _ _ eq_refl) as (_ & _ & Hq'). destruct (Hq' _ Hc) as [Hne|[Hh ->]].
           ++ destruct (W2 _ Hc) as [[n Hn']|(Hh & n & v & Hn')].
              ** left. exists n. apply Hsurv; [done|]. by intros ?? [= <- <-].
              ** right. split; [done|]. exists n, v.
                 rewrite !list_lookup_insert_ne; [done| |].
                 --- intros ->. rewrite E in Hn'. injection Hn' as ->. discriminate E1.
                 --- intros ->. rewrite E0 in Hn'. injection Hn' as ->. discriminate E2.
           ++ destruct (decide (c = ch)) as [->|Hne].
              ** right. split; [done|]. exists j, err. simpl in E2.
                 rewrite decide_True in E2 by done. simplify_eq.
                 apply list_lookup_insert_eq. rewrite length_insert.
                 by eapply lookup_lt_Some.
              ** destruct (W2 _ Hc) as [[n Hn']|(Hh' & n & v & Hn')].
                 --- left. exists n. apply Hsurv; [done|]. by intros ?? [= <- <-].
                 --- congruence.
        -- apply sends_inv in E1. unpack; simplify_eq.
           apply receives_priority_inv in E2 as (offer & -> & ->). done.
        -- apply sends_inv in E1. unpack; simplify_eq.
    + apply candidateHandle_queue in E as (Hp & _). simpl. rewrite Hp. done.
    + apply callback_sends_inv in E0 as (c0 & _ & -> & ->).
      apply receives_candidate_inv in E1 as (md & k & bs & -> & ->).
      assert (forall n c, threads w !! n = Some (N_wait c) ->
                <[j:=P_call md k bs [c0]]> (threads w) !! n = Some (N_wait c)) as Hsurv.
      { intros n c Hn'. rewrite list_lookup_insert_ne; [done|]. intros ->.
        rewrite E in Hn'. simplify_eq. }
      split.
      * intros n q c Hn' Hc.
        apply list_lookup_insert_Some in Hn' as [(<- & <- & _)|[Hne Hn']].
        -- destruct (W1 _ _ _ E Hc) as [n' Hn'']. eauto.
        -- destruct (W1 _ _ _ Hn' Hc) as [n' Hn'']. eauto.
      * intros c Hc. destruct (W2 _ Hc) as [[n Hn']|(Hh & n & v & Hn')].
        -- left. eauto.
        -- right. split; [done|]. exists n, v.
           rewrite list_lookup_insert_ne; [done|]. intros ->. rewrite E in Hn'. simplify_eq.
Qed.




Lemma thread_step_lock h r p h' p' new :
  thread_step h r p = Some (h', p', new) ->
  Forall (fun q => locks q = None) new /\
  ((locked_pc p = locked_pc p' /\ mux (self h') = mux (self h)) \/
   (locked_pc p = false /\ mux (self h) = false /\ locked_pc p' = true /\
    mux (self h') = true) \/
   (locked_pc p = true /\ locked_pc p' = false /\ mux (self h') = false)).
Proof.
  intros H. destruct p; thread_cases H.
  all: split; [by repeat constructor|].
  all: try (left; split; [|done]; try done; by destruct k).
  all: try (right; left; done).
  all: try (right; right; split_and?; try done; by destruct k).
  all: left; split; [|done]; destruct k; try done; by destruct done.
Qed.

Lemma candidateHandle_lock h p h' p' :
  candidateHandle h p = Some (h', p') ->
  (locked_callback p = false /\ mux (self h) = false /\
   mux (self h') = locked_callback p') \/
  (locked_callback p = true /\ locked_callback p' = false /\ mux (self h') = false).
Proof.
  intros H. unfold candidateHandle in H. destruct p; repeat case_match; simplify_eq/=.
  all: try (left; done). right; done.
Qed.

Lemma locks_length p : length (option_list (locks p)) = if locked_pc p then 1 else 0.
Proof. unfold locks. by destruct (locked_pc p). Qed.

Lemma reachable_lockInv w : reachable w -> lockInv w.
Proof.
  revert w. apply reachable_invariant.
  - intros x _ _ _ _ _ _ _ Hm. unfold lockInv, lockers. simpl. by rewrite Hm.
  - intros w e w' _ IH H. unfold lockInv, lockers in *.
    step_cases H.
    + rewrite omap_app, length_app. simpl. lia.
    + rewrite omap_app, length_app. simpl. lia.
    + rewrite omap_app, length_app. simpl. lia.
    + destruct (callback w) eqn:Hc; simplify_eq/=. done.
    + apply thread_step_lock in E0 as [Hnew Hcase].
      rewrite omap_app, length_app, (omap_None _ _ Hnew). simpl.
      pose proof (omap_insert_Permutation locks _ _ _ p0 E) as Hp.
      apply Permutation_length in Hp. rewrite !length_app, !locks_length in Hp.
      destruct Hcase as [[Hl Hm]|[(Hl & Hm & Hl' & Hm')|(Hl & Hl' & Hm')]].
      * rewrite Hm, <- Hl in *. lia.
      * rewrite Hl, Hl', Hm, Hm' in *. lia.
      * rewrite Hl, Hl', Hm' in *. destruct (mux (self (heap w))); lia.
    + assert (i <> j) as Hij.
      { intros ->. rewrite E in E0. simplify_eq.
        by rewrite (sends_not_receives _ _ _ m E1) in E2. }
      assert (<[i:=p1]> (threads w) !! j = Some p0) as Hj.
      { by rewrite list_lookup_insert_ne. }
      pose proof (omap_insert_Permutation locks _ _ _ p1 E) as Hp.
      apply Permutation_length in Hp. rewrite !length_app, !locks_length in Hp.
      pose proof (omap_insert_Permutation locks _ _ _ p2 Hj) as Hq.
      apply Permutation_length in Hq. rewrite !length_app, !locks_length in Hq.
      apply sends_inv in E1. apply receives_inv in E2.
      unpack; simplify_eq/=; lia.
    + apply candidateHandle_lock in E as Hcase.
      destruct Hcase as [(Hl & Hm & Hm')|(Hl & Hl' & Hm')].
      * rewrite Hl, Hm in IH. rewrite Hm'. destruct (locked_callback c); lia.
      * rewrite Hl in IH. rewrite Hl', Hm'. destruct (mux (self (heap w))); lia.
    + pose proof (omap_insert_Permutation locks _ _ _ p0 E) as Hq.
      apply Permutation_length in Hq. rewrite !length_app, !locks_length in Hq.
      apply callback_sends_inv in E0 as (c0 & Hc & -> & ->).
      apply receives_candidate_inv in E1 as (? & ? & ? & -> & ->).
      rewrite Hc in IH. simpl in *. lia.
Qed.

(** X1: in every reachable state the mutex is locked exactly when one
    goroutine is between a [Lock] and its [Unlock] across a blocking
    statement (the hand-over of a candidate in [candidateHandle], the
    wake-up in [finish], the hand-off of the conceding [Negotiate] to
    [Answer]); two goroutines never are, and each of these [Unlock]s finds
    the mutex locked. *)
Theorem mutex_held_by_one w :
  reachable w ->
  let x := self (heap w) in
  lockers w = (if mux x then 1 else 0) /\
  (forall i j p q, threads w !! i = Some p -> threads w !! j = Some q ->
     locked_pc p = true -> locked_pc q = true -> i = j) /\
  (forall i p, threads w !! i = Some p -> locked_pc p = true ->
     mux x = true /\ locked_callback (callback w) = false) /\
  (locked_callback (callback w) = true ->
     mux x = true /\ forall i p, threads w !! i = Some p -> locked_pc p = false).
Proof.
  intros Hw x. pose proof (reachable_lockInv _ Hw) as Hinv.
  unfold lockInv, lockers in Hinv. fold x in Hinv.
  assert (forall i p, threads w !! i = Some p -> locked_pc p = true ->
            1 <= length (omap locks (threads w))) as Hpos.
  { intros i p Hi Hp. eapply omap_length_pos; [exact Hi|]. unfold locks. by rewrite Hp. }
  split_and?.
  - exact Hinv.
  - intros i j p q Hi Hj Hp Hq.
    eapply (omap_unique locks _ i j); [|exact Hi|exact Hj| |].
    + destruct (mux x), (locked_callback (callback w)); lia.
    + unfold locks. by rewrite Hp.
    + unfold locks. by rewrite Hq.
  - intros i p Hi Hp. specialize (Hpos _ _ Hi Hp).
    destruct (mux x), (locked_callback (callback w)); split; try done; lia.
  - intros Hc. rewrite Hc in Hinv. split; [destruct (mux x); [done|lia]|].
    intros i p Hi. destruct (locked_pc p) eqn:Hp; [|done].
    specialize (Hpos _ _ Hi Hp). destruct (mux x); lia.
Qed.

Lemma mutex_held_by_one_witness :
  reachable (after glare_handoff) /\
  lockers (after glare_handoff) = 1 /\
  threads (after glare_handoff) !! 0 = Some (N_handoff [] 0).
Proof.
  assert (reachable (after glare_handoff)) as Hw.
  { apply reachable_after. vm_compute. eauto. }
  split; [exact Hw|]. split; [|vm_compute; reflexivity].
  exact (proj1 (mutex_held_by_one _ Hw)).
Defined.

Lemma thread_step_answer h r p h' p' new :
  thread_step h r p = Some (h', p', new) ->
  Forall (fun q => answer_target q = None) new /\
  ((carries p' = carries p /\ candidateAnswer (self h') = candidateAnswer (self h) /\
   buffered h' = buffered h /\ omap carries new = [] /\
   (forall o, answer_target p' = Some o -> o = candidateAnswer (self h))) \/
  (carries p' = carries p /\ candidateAnswer (self h) = None /\
   candidateAnswer (self h') = Some (fresh h) /\
   buffered h' = buffered h /\ omap carries new = [()] /\ answer_target p' = None) \/
  (exists ch err, p = G_answer_send (Some ch) err /\ p' = G_exit /\ new = [] /\
     candidateAnswer (self h') = candidateAnswer (self h) /\
     buffered h !! ch = None /\ buffered h' = <[ch := err]> (buffered h)) \/
  (exists ch k err, p = CA_finish_recv (Some ch) k /\ p' = CA_finish_clear err k /\ new = [] /\
     candidateAnswer (self h') = candidateAnswer (self h) /\
     buffered h !! ch = Some err /\ buffered h' = delete ch (buffered h)) \/
  (carries p = Some () /\ carries p' = None /\ new = [] /\
   candidateAnswer (self h') = None /\ buffered h' = buffered h /\
   answer_target p' = None)).
Proof.
  intros H. destruct p; thread_cases H.
  all: split; [by repeat constructor|].
  all: try (left; split_and?; try done; try congruence; try (by destruct k);
            by destruct k, done).
  all: try (right; left; done).
  all: try (right; right; left; eauto 10; fail).
  all: try (right; right; right; left; eauto 10; fail).
  all: try (right; right; right; right; split_and?; try done; by destruct k).
Qed.

Lemma candidateHandle_answer h p h' p' :
  candidateHandle h p = Some (h', p') ->
  candidateAnswer (self h') = candidateAnswer (self h) /\ buffered h' = buffered h.
Proof.
  unfold candidateHandle. intros H.
  destruct p; simpl in H; repeat case_match; simplify_eq; done.
Qed.

Lemma sends_answer p m p' :
  sends p = Some (m, p') -> carries p' = carries p /\ answer_target p' = None.
Proof. intros H. apply sends_inv in H. unpack; simplify_eq; done. Qed.

Lemma receives_answer q m q' :
  receives q m = Some q' -> carries q' = carries q /\ answer_target q' = None.
Proof. intros H. apply receives_inv in H. unpack; simplify_eq; done. Qed.

Lemma answer_target_carries p o : answer_target p = Some o -> carries p = Some ().
Proof. by destruct p. Qed.

Lemma omap_nil_Forall {A B} (f : A -> option B) (l : list A) :
  length (omap f l) = 0 -> Forall (fun a => f a = None) l.
Proof.
  induction l as [|a l IH]; [done|]. rewrite omap_cons.
  destruct (f a) eqn:Ha; simpl; [lia|]. intros Hl. constructor; auto.
Qed.

Lemma no_carrier_no_target (l : list pc) (x : option chan) :
  length (omap carries l) = 0 ->
  Forall (fun p => forall o, answer_target p = Some o -> o = x) l.
Proof.
  intros Hl. eapply Forall_impl; [exact (omap_nil_Forall _ _ Hl)|]. simpl.
  intros p Hp o Ho. apply answer_target_carries in Ho. congruence.
Qed.

Lemma carries_length p : length (option_list (carries p)) = if carries p then 1 else 0.
Proof. by destruct (carries p). Qed.

Lemma reachable_answerInv w : reachable w -> answerInv w.
Proof.
  revert w. apply reachable_invariant.
  - intros x _ _ _ Ha _ _ _ _. unfold answerInv. simpl. rewrite Ha.
    split; [done|]. split; [|done]. intros ch v. by rewrite lookup_empty.
  - intros w e w' _ (IHn & IHb & IHt) H. unfold answerInv in *. step_cases H.
    + rewrite omap_app, length_app. simpl. split; [lia|]. split; [done|].
      apply Forall_app. split; [done|]. by repeat constructor.
    + rewrite omap_app, length_app. simpl. split; [lia|]. split; [done|].
      apply Forall_app. split; [done|]. by repeat constructor.
    + rewrite omap_app, length_app. simpl. split; [lia|]. split; [done|].
      apply Forall_app. split; [done|]. by repeat constructor.
    + destruct (callback w); simplify_eq. done.
    + apply thread_step_answer in E0 as [Hnew Hcase].
      pose proof (omap_insert_Permutation carries _ _ _ p0 E) as Hp.
      apply Permutation_length in Hp. rewrite !length_app, !carries_length in Hp.
      rewrite omap_app, length_app.
      destruct Hcase as [(Hc & Ha & Hb & Hn & Ht)|[(Hc & Ha & Ha' & Hb & Hn & Ht)|
        [(ch & err & -> & -> & -> & Ha & Hb & Hb')|[(ch & k & err & -> & -> & -> & Ha & Hb & Hb')|
        (Hc & Hc' & -> & Ha' & Hb & Ht)]]]].
      * rewrite Hn, Ha, Hb, Hc in *. simpl. split; [destruct (carries p); lia|].
        split; [done|]. apply Forall_app. split.
        -- apply Forall_insert; [done|]. done.
        -- eapply Forall_impl; [exact Hnew|]. simpl. congruence.
      * rewrite Hn, Ha', Hb, Hc in *. rewrite Ha in *. simpl.
        assert (length (omap carries (threads w)) = 0) as Hz by lia.
        assert (size (buffered (heap w)) = 0) as Hs by lia.
        split; [destruct (carries p); lia|]. split.
        -- intros ch v. apply map_size_empty_inv in Hs. rewrite Hs, lookup_empty. done.
        -- apply Forall_app. split.
           ++ apply Forall_insert; [|congruence].
              by apply no_carrier_no_target.
           ++ eapply Forall_impl; [exact Hnew|]. simpl. congruence.
      * simpl in *. rewrite app_nil_r, Ha, Hb'. rewrite map_size_insert_None by done.
        destruct (candidateAnswer (self (heap w))) as [c0|] eqn:Hca; [|lia].
        assert (Some ch = Some c0) as [= ->].
        { eapply Forall_lookup_1 in IHt; [|exact E]. by apply IHt. }
        assert (size (buffered (heap w)) = 0) as Hs by lia.
        apply map_size_empty_inv in Hs. rewrite Hs in *.
        split; [rewrite map_size_empty; lia|]. split.
        -- intros ch v Hl. apply lookup_insert_Some in Hl as [[-> _]|[_ Hl]]; [done|].
           by rewrite lookup_empty in Hl.
        -- apply no_carrier_no_target. lia.
      * simpl in *. rewrite app_nil_r, Ha, Hb'.
        rewrite map_size_delete_Some by eauto.
        pose proof (IHb _ _ Hb) as Hca. rewrite Hca in *.
        assert (size (buffered (heap w)) <> 0) as Hs.
        { intros Hs. apply map_size_empty_inv in Hs. by rewrite Hs, lookup_empty in Hb. }
        split; [lia|]. split.
        -- intros c v Hl. apply lookup_delete_Some in Hl as [Hne Hl].
           specialize (IHb _ _ Hl). congruence.
        -- apply Forall_insert; [done|]. done.
      * simpl in *. rewrite app_nil_r, Ha', Hb, Hc, Hc' in *.
        destruct (candidateAnswer (self (heap w))); [|lia].
        assert (size (buffered (heap w)) = 0) as Hs by lia.
        split; [lia|]. split.
        -- intros ch v. apply map_size_empty_inv in Hs. rewrite Hs, lookup_empty. done.
        -- apply no_carrier_no_target. lia.
    + destruct (sends_answer _ _ _ E1) as [Hs Hst].
      destruct (receives_answer _ _ _ E2) as [Hr Hrt].
      assert (i <> j) as Hij.
      { intros ->. rewrite E in E0. simplify_eq.
        by rewrite (sends_not_receives _ _ _ m E1) in E2. }
      assert (<[i:=p1]> (threads w) !! j = Some p0) as Hj.
      { by rewrite list_lookup_insert_ne. }
      rewrite (omap_insert_same _ _ _ _ _ Hj Hr), (omap_insert_same _ _ _ _ _ E Hs).
      split; [done|]. split; [done|].
      apply Forall_insert; [apply Forall_insert; [done|]|]; congruence.
    + apply candidateHandle_answer in E as [Ha Hb]. rewrite Ha, Hb. done.
    + destruct (receives_answer _ _ _ E1) as [Hr Hrt].
      rewrite (omap_insert_same _ _ _ _ _ E Hr).
      split; [done|]. split; [done|]. apply Forall_insert; [done|]; congruence.
Qed.

(** X2: the goroutine that [CandidateAdd] starts to send the local
    candidates never blocks on reporting its result: in every reachable
    state at most one such goroutine exists, and when it comes to
    [x.candidateAnswer <- err] the field still holds the channel made for
    it, whose buffer is empty, so that the send completes at once. *)
Theorem candidateAnswer_send_ready w :
  reachable w ->
  let x := self (heap w) in
  (forall i j p q, threads w !! i = Some p -> threads w !! j = Some q ->
     answer_sender p = true -> answer_sender q = true -> i = j) /\
  (forall i p, threads w !! i = Some p -> answer_sender p = true ->
     exists ch, candidateAnswer x = Some ch /\ buffered (heap w) = ∅) /\
  (forall i o err, threads w !! i = Some (G_answer_send o err) ->
     exists ch, o = Some ch /\ candidateAnswer x = Some ch /\
       forall r, exists w',
         step w (Run i r) = Some w' /\ threads w' !! i = Some G_exit /\
         buffered (heap w') = {[ch := err]}).
Proof.
  intros Hw x. destruct (reachable_answerInv _ Hw) as (Hn & Hb & Ht). fold x in Hn, Hb, Ht.
  assert (forall i p, threads w !! i = Some p -> answer_sender p = true ->
            1 <= length (omap carries (threads w))) as Hpos.
  { intros i p Hi Hp. eapply omap_length_pos; [exact Hi|]. unfold carries. by rewrite Hp. }
  assert (forall i p, threads w !! i = Some p -> answer_sender p = true ->
            exists ch, candidateAnswer x = Some ch /\ buffered (heap w) = ∅) as Hset.
  { intros i p Hi Hp. specialize (Hpos _ _ Hi Hp).
    destruct (candidateAnswer x) as [ch|]; [|lia].
    exists ch. split; [done|]. apply map_size_empty_inv. lia. }
  split_and?.
  - intros i j p q Hi Hj Hp Hq.
    eapply (omap_unique carries _ i j); [|exact Hi|exact Hj| |].
    + destruct (candidateAnswer x); lia.
    + unfold carries. by rewrite Hp.
    + unfold carries. by rewrite Hq.
  - exact Hset.
  - intros i o err Hi. destruct (Hset _ _ Hi eq_refl) as (ch & Hca & Hempty).
    eapply Forall_lookup_1 in Ht; [|exact Hi]. specialize (Ht _ eq_refl).
    exists ch. split; [congruence|]. split; [done|]. intros r.
    assert (o = Some ch) as -> by congruence.
    simpl. rewrite Hi. simpl.
    unfold thread_step. simpl. rewrite Hempty, lookup_empty. simpl.
    eexists. split; [done|]. simpl. split.
    + rewrite app_nil_r. apply list_lookup_insert_eq. by eapply lookup_lt_Some.
    + by rewrite insert_empty.
Qed.

Lemma candidateAnswer_send_ready_witness :
  reachable (after answer_reported) /\
  threads (after answer_reported) !! 2 = Some (G_answer_send (Some 0) None) /\
  exists w', step (after answer_reported) (Run 2 ok) = Some w' /\
             threads w' !! 2 = Some G_exit /\ buffered (heap w') = {[0 := None]}.
Proof.
  assert (reachable (after answer_reported)) as Hw.
  { apply reachable_after. vm_compute. eauto. }
  assert (threads (after answer_reported) !! 2 = Some (G_answer_send (Some 0) None)) as Hi.
  { vm_compute. reflexivity. }
  split; [exact Hw|]. split; [exact Hi|].
  destruct (proj2 (proj2 (candidateAnswer_send_ready _ Hw)) _ _ _ Hi)
    as (ch & [= <-] & _ & Hstep).
  exact (Hstep ok).
Defined.

Lemma thread_step_want h r p h' p' new :
  thread_step h r p = Some (h', p', new) ->
  candidateWant (self h') = true ->
  candidateWant (self h) = true \/ exists m k bs, p' = P_recv m k bs.
Proof.
  intros H. destruct p; thread_cases H; eauto.
Qed.

Lemma thread_step_not_recv h r m k bs : thread_step h r (P_recv m k bs) = None.
Proof. reflexivity. Qed.

Lemma reachable_handoverInv w : reachable w -> handoverInv w.
Proof.
  revert w. apply reachable_invariant.
  - intros x _ _ Hw _ _ _ _ _. unfold handoverInv. simpl. congruence.
  - intros w e w' _ IH H. unfold handoverInv in *. step_cases H.
    + intros Hw Hc. destruct (IH Hw Hc) as (j & m & k & bs & Hj).
      exists j, m, k, bs. by apply lookup_app_l_Some.
    + intros Hw Hc. destruct (IH Hw Hc) as (j & m & k & bs & Hj).
      exists j, m, k, bs. by apply lookup_app_l_Some.
    + intros Hw Hc. destruct (IH Hw Hc) as (j & m & k & bs & Hj).
      exists j, m, k, bs. by apply lookup_app_l_Some.
    + destruct (callback w) eqn:Hcb; simplify_eq. simpl. intros Hw _.
      apply IH; done.
    + intros Hw Hc.
      assert (i < length (threads w)) as Hlt by (by eapply lookup_lt_Some).
      destruct (thread_step_want _ _ _ _ _ _ E0 Hw) as [Hold|(m & k & bs & ->)].
      * destruct (IH Hold Hc) as (j & m & k & bs & Hj).
        exists j, m, k, bs. apply lookup_app_l_Some.
        rewrite list_lookup_insert_ne; [done|]. intros ->.
        rewrite E in Hj. injection Hj as ->. by rewrite thread_step_not_recv in E0.
      * exists i, m, k, bs. apply lookup_app_l_Some. by apply list_lookup_insert_eq.
    + intros Hw Hc. destruct (IH Hw Hc) as (j' & m' & k & bs & Hj).
      exists j', m', k, bs.
      apply sends_inv in E1. apply receives_inv in E2.
      rewrite !list_lookup_insert_ne; [done| |].
      * intros ->. unpack; simplify_eq.
      * intros ->. unpack; simplify_eq.
    + unfold candidateHandle in E. destruct (callback w) eqn:Hcb; simplify_eq.
      * repeat case_match; simplify_eq/=.
        -- intros _ _. apply IH; done.
        -- intros Hw. congruence.
      * simplify_eq/=. done.
    + apply callback_sends_inv in E0 as (c0 & Hc & -> & ->). done.
Qed.

(** X3: the callback never stays blocked in its send with the mutex held:
    whenever [candidateHandle] is at [x.candidateChan <- c], a consumer is
    blocked in the receive of [candidateProcess], and the hand-over gives
    it the candidate as a batch of one, after which the callback clears
    [candidateWant] and unlocks. *)
Theorem candidateHandle_handover_ready w c :
  reachable w ->
  callback w = H_send c ->
  mux (self (heap w)) = true /\
  exists j m k bs w',
    threads w !! j = Some (P_recv m k bs) /\
    step w (SyncCallback j) = Some w' /\
    threads w' !! j = Some (P_call m k bs [c]) /\
    callback w' = H_clear /\
    exists h', candidateHandle (heap w') H_clear = Some (h', H_idle) /\
               candidateWant (self h') = false /\ mux (self h') = false.
Proof.
  intros Hw Hc. split.
  - pose proof (reachable_lockInv _ Hw) as Hl. unfold lockInv, lockers in Hl.
    rewrite Hc in Hl. simpl in Hl. destruct (mux (self (heap w))); [done|lia].
  - pose proof (reachable_callbackInv _ Hw _ Hc) as Hwant.
    destruct (reachable_handoverInv _ Hw Hwant) as (j & m & k & bs & Hj).
    { by rewrite Hc. }
    exists j, m, k, bs. simpl. rewrite Hj, Hc. simpl. eexists. split; [done|].
    split; [done|]. simpl. split.
    + apply list_lookup_insert_eq. by eapply lookup_lt_Some.
    + split; [done|]. eexists. split; [done|]. done.
Qed.

Lemma candidateHandle_handover_ready_witness :
  reachable (after handover_pending) /\
  callback (after handover_pending) = H_send (CandidateOf host1) /\
  mux (self (heap (after handover_pending))) = true.
Proof.
  assert (reachable (after handover_pending)) as Hw.
  { apply reachable_after. vm_compute. eauto. }
  assert (callback (after handover_pending) = H_send (CandidateOf host1)) as Hc.
  { vm_compute. reflexivity. }
  split; [exact Hw|]. split; [exact Hc|].
  exact (proj1 (candidateHandle_handover_ready _ _ Hw Hc)).
Defined.

Lemma thread_step_contiguous h r p h' p' new :
  thread_step h r p = Some (h', p', new) ->
  (candidates (self h') = candidates (self h) /\
   forall bs', process_batches p' = Some bs' -> bs' = [] \/ process_batches p = Some bs') \/
  (candidates (self h') = [] /\
   exists bs, process_batches p = Some bs /\
              process_batches p' = Some (bs ++ [candidates (self h)])).
Proof.
  intros H. destruct p; thread_cases H.
  all: try (left; split; [done|]; intros bs' Hp';
            try match type of Hp' with
              | context [after_candidateProcess ?k ?d _] =>
                  destruct k; try destruct d; simpl in Hp'
              | context [after_finish_pc ?k] => destruct k; simpl in Hp'
              end;
            simplify_eq; eauto; fail).
  right. split; [done|]. eexists. split; [done|]. congruence.
Qed.

Lemma process_batches_holder wp p bs : process_batches p = Some bs -> is_Some (holds wp p).
Proof. intros H. apply holds_is_Some. by destruct p. Qed.

Lemma negotiating_contiguous w : negotiating w -> Forall (contiguous w) (threads w).
Proof.
  revert w. apply negotiating_invariant.
  - intros. simpl. done.
  - intros w e w' Hn IH Hlocal H.
    pose proof (negotiating_reachable _ Hn) as Hw.
    pose proof (negotiating_tokenInv _ Hn) as (Htok & _ & _).
    assert (forall i j p q bs bs', threads w !! i = Some p -> threads w !! j = Some q ->
              process_batches p = Some bs -> process_batches q = Some bs' -> i = j) as Huniq.
    { intros i j p q bs bs' Hi Hj Hp Hq.
      eapply (omap_unique (holds _) _ i j); [exact Htok|exact Hi|exact Hj| |];
        by eapply process_batches_holder. }
    unfold contiguous in *. step_cases H; try done.
    + apply Forall_app. split; [done|]. by repeat constructor.
    + destruct (callback w) eqn:Hcb; simplify_eq. simpl in *.
      eapply Forall_impl; [exact IH|]. simpl. intros p Hp bs Hbs.
      destruct (Hp _ Hbs) as [before ->]. exists before.
      by rewrite !app_nil_r, <- !app_assoc.
    + destruct (thread_step_negotiate_pc _ _ _ _ _ _ E0) as [_ ->].
      { pose proof (negotiating_negotiate_pc _ Hn) as Hpc.
        by eapply Forall_lookup_1 in Hpc. }
      rewrite app_nil_r.
      destruct (thread_step_contiguous _ _ _ _ _ _ E0)
        as [[Hc Hbs]|(Hc & bs0 & Hp & Hp')].
      * rewrite Hc. apply Forall_insert; [done|].
        intros bs' Hbs'. destruct (Hbs _ Hbs') as [->|Hold].
        -- destruct (reachable_accumulatorInv _ Hw) as (taken & Hd & _).
           exists taken. done.
        -- eapply Forall_lookup_1 in IH; [|exact E]. by apply IH.
      * rewrite Hc. apply Forall_lookup_2. intros j q Hj bs Hq.
        destruct (decide (j = i)) as [->|Hne].
        -- rewrite list_lookup_insert_eq in Hj by (by eapply lookup_lt_Some).
           injection Hj as <-. rewrite Hp' in Hq. injection Hq as <-.
           eapply Forall_lookup_1 in IH; [|exact E].
           destruct (IH _ Hp) as [before ->]. exists before.
           by rewrite concat_app, <- !app_assoc; simpl; rewrite app_nil_r.
        -- rewrite list_lookup_insert_ne in Hj by done.
           exfalso. apply Hne. by eapply (Huniq j i).
    + apply sends_inv in E1. apply receives_inv in E2.
      apply Forall_insert; [apply Forall_insert; [done|]|].
      * unpack; simplify_eq; done.
      * unpack; simplify_eq; done.
    + unfold candidateHandle in E. destruct (callback w) eqn:Hcb; simplify_eq.
      * repeat case_match; simplify_eq/=; [done|].
        eapply Forall_impl; [exact IH|]. simpl. intros p Hp bs Hbs.
        destruct (Hp _ Hbs) as [before ->]. exists before.
        by rewrite !app_nil_r.
      * simplify_eq/=. done.
    + apply callback_sends_inv in E0 as (c0 & Hc & -> & ->).
      apply receives_candidate_inv in E1 as (m & k & bs0 & -> & ->).
      pose proof (reachable_callbackInv _ Hw _ Hc) as Hwant.
      pose proof (reachable_wantInv _ Hw Hwant) as Hcands.
      rewrite Hc, Hcands in IH. simpl in *. rewrite Hcands.
      apply Forall_lookup_2. intros j' q Hj bs Hq.
      destruct (decide (j' = j)) as [->|Hne].
      * rewrite list_lookup_insert_eq in Hj by (by eapply lookup_lt_Some).
        injection Hj as <-. simpl in Hq. injection Hq as <-.
        eapply Forall_lookup_1 in IH; [|exact E].
        destruct (IH _ eq_refl) as [before ->]. exists before.
        by rewrite concat_app, <- !app_assoc; simpl.
      * rewrite list_lookup_insert_ne in Hj by done.
        exfalso. apply Hne. by eapply (Huniq j' j).
Qed.

(** X4: with local callers only, one call of [candidateProcess] runs at a
    time, and what it has taken is a single run of the delivered
    candidates that ends where the buffer begins: every candidate
    delivered since the call began is forwarded or discarded by it, is
    buffered, or is in the hand of the callback, in delivery order. *)
Theorem candidateProcess_takes_all w i p bs :
  negotiating w ->
  threads w !! i = Some p ->
  process_batches p = Some bs ->
  (exists before,
     delivered w
     = before ++ concat bs ++ candidates (self (heap w)) ++ in_flight (callback w)) /\
  (forall j q bs', threads w !! j = Some q -> process_batches q = Some bs' -> j = i).
Proof.
  intros Hn Hi Hp. split.
  - pose proof (negotiating_contiguous _ Hn) as Hc.
    eapply Forall_lookup_1 in Hc; [|exact Hi]. by apply Hc.
  - intros j q bs' Hj Hq.
    pose proof (negotiating_tokenInv _ Hn) as (Htok & _ & _).
    eapply (omap_unique (holds _) _ j i); [exact Htok|exact Hj|exact Hi| |];
      by eapply process_batches_holder.
Qed.

Lemma candidateProcess_takes_all_witness :
  negotiating (after send_round) /\
  threads (after send_round) !! 0
    = Some (P_return Send (InNegotiate [])
              [[CandidateOf host1; CandidateOf host2]; [sentinel]] true None) /\
  exists before,
    delivered (after send_round)
    = before ++ concat [[CandidateOf host1; CandidateOf host2]; [sentinel]] ++
      candidates (self (heap (after send_round))) ++ in_flight (callback (after send_round)).
Proof.
  assert (negotiating (after send_round)) as Hn.
  { eapply (run_negotiating send_round (init (SignalerMake false))).
    - constructor.
    - repeat constructor.
    - vm_compute. reflexivity. }
  assert (threads (after send_round) !! 0
    = Some (P_return Send (InNegotiate [])
              [[CandidateOf host1; CandidateOf host2]; [sentinel]] true None)) as Hi.
  { vm_compute. reflexivity. }
  split; [exact Hn|]. split; [exact Hi|].
  exact (proj1 (candidateProcess_takes_all _ _ _ _ Hn Hi eq_refl)).
Defined.

Lemma thread_step_sdpAlter h r p h' p' new :
  thread_step h r p = Some (h', p', new) -> sdpAlter (self h') = sdpAlter (self h).
Proof. intros H. destruct p; thread_cases H; done. Qed.

Lemma candidateHandle_sdpAlter h p h' p' :
  candidateHandle h p = Some (h', p') -> sdpAlter (self h') = sdpAlter (self h).
Proof.
  unfold candidateHandle. intros H.
  destruct p; simpl in H; repeat case_match; simplify_eq; done.
Qed.

Lemma step_sdpAlter w e w' :
  step w e = Some w' -> sdpAlter (self (heap w')) = sdpAlter (self (heap w)).
Proof.
  intros H. step_cases H; try done.
  - destruct (callback w); simplify_eq. done.
  - by eapply thread_step_sdpAlter.
  - by eapply candidateHandle_sdpAlter.
Qed.

Lemma hooked_ext x x' p : sdpAlter x' = sdpAlter x -> hooked x p -> hooked x' p.
Proof.
  intros Hx. destruct p; try done; simpl; unfold alter; rewrite Hx; done.
Qed.

Lemma thread_step_hooked h r p h' p' new :
  thread_step h r p = Some (h', p', new) ->
  hooked (self h) p -> hooked (self h') p' /\ Forall (hooked (self h')) new.
Proof.
  intros H Hp. pose proof (thread_step_sdpAlter _ _ _ _ _ _ H) as Hx.
  destruct p; thread_cases H.
  all: split; [|by repeat constructor].
  all: try done.
  all: try (by destruct k); try (by destruct k, done).
  all: try (by eexists).
  all: try (destruct Hp as [sd ->]; by eexists).
Qed.

Lemma reachable_hooked w : reachable w -> Forall (hooked (self (heap w))) (threads w).
Proof.
  revert w. apply reachable_invariant.
  - intros. simpl. done.
  - intros w e w' _ IH H.
    pose proof (step_sdpAlter _ _ _ H) as Hx.
    assert (Forall (hooked (self (heap w'))) (threads w)) as IH'.
    { eapply Forall_impl; [exact IH|]. intros p. by apply hooked_ext. }
    clear Hx. step_cases H.
    + apply Forall_app. split; [done|]. by repeat constructor.
    + apply Forall_app. split; [done|]. by repeat constructor.
    + apply Forall_app. split; [done|]. by repeat constructor.
    + destruct (callback w); simplify_eq. done.
    + eapply Forall_lookup_1 in IH; [|exact E].
      destruct (thread_step_hooked _ _ _ _ _ _ E0 IH) as [Hp Hnew].
      apply Forall_app. split; [|done]. by apply Forall_insert.
    + apply sends_inv in E1. apply receives_inv in E2.
      apply Forall_insert; [apply Forall_insert; [done|]|].
      * unpack; simplify_eq; done.
      * unpack; simplify_eq; done.
    + done.
    + apply receives_inv in E1. apply Forall_insert; [done|].
      unpack; simplify_eq; done.
Qed.

(** X5: the hook registered with [SdpAlter] before negotiating stays
    registered, and every local description passes through it: the offer
    that [Negotiate] gives to the peer and sets locally, the answer that
    [Answer] sets locally, and the answer that [Answer] returns are values
    of the hook. *)
Theorem SdpAlter_applies_to_local_descriptions w fn i :
  reachable w ->
  sdpAlter (self (heap w)) = Some fn ->
  (forall e w', step w e = Some w' -> sdpAlter (self (heap w')) = Some fn) /\
  (forall sameBatch offer, threads w !! i = Some (N_Answer sameBatch offer) ->
     exists sd, offer = fn sd) /\
  (forall sameBatch offer answer,
     threads w !! i = Some (N_SetLocalDescription sameBatch offer answer) ->
     exists sd, offer = fn sd) /\
  (forall answer, threads w !! i = Some (A_SetLocalDescription answer) ->
     exists sd, answer = fn sd) /\
  (forall answer, threads w !! i = Some (A_return answer None) ->
     exists sd, answer = SessionDescriptionOf (fn sd)).
Proof.
  intros Hw Hfn. pose proof (reachable_hooked _ Hw) as Hall.
  assert (forall p, threads w !! i = Some p -> hooked (self (heap w)) p) as Hp.
  { intros p Hi. by eapply Forall_lookup_1 in Hall. }
  assert (forall sd, alter (self (heap w)) sd = fn sd) as Ha.
  { intros sd. unfold alter. by rewrite Hfn. }
  split_and?.
  - intros e w' H. by rewrite (step_sdpAlter _ _ _ H).
  - intros sb o Hi. destruct (Hp _ Hi) as [sd ->]. exists sd. apply Ha.
  - intros sb o a Hi. destruct (Hp _ Hi) as [sd ->]. exists sd. apply Ha.
  - intros a Hi. destruct (Hp _ Hi) as [sd ->]. exists sd. apply Ha.
  - intros a Hi. destruct (Hp _ Hi) as [sd ->]. exists sd. by rewrite Ha.
Qed.

Lemma SdpAlter_applies_to_local_descriptions_witness :
  reachable hooked_offer /\
  sdpAlter (self (heap hooked_offer)) = Some add_attribute /\
  threads hooked_offer !! 0 = Some (N_Answer [] (add_attribute (ext_sdp ok))) /\
  exists sd, add_attribute (ext_sdp ok) = add_attribute sd.
Proof.
  assert (reachable hooked_offer) as Hw.
  { eapply (run_reachable [CallNegotiate; Run 0 ok; Run 0 ok]);
      [apply (reachable_alter false add_attribute)|]. reflexivity. }
  assert (sdpAlter (self (heap hooked_offer)) = Some add_attribute) as Hfn by reflexivity.
  assert (threads hooked_offer !! 0 = Some (N_Answer [] (add_attribute (ext_sdp ok))))
    as Hi by reflexivity.
  split; [exact Hw|]. split; [exact Hfn|]. split; [exact Hi|].
  exact (proj1 (proj2 (SdpAlter_applies_to_local_descriptions _ _ 0 Hw Hfn)) _ _ Hi).
Defined.

Lemma thread_step_resting h r p h' p' new :
  thread_step h r p = Some (h', p', new) ->
  resting p = true -> state (self h) <> signalerStateIdle ->
  state (self h') = state (self h) /\ queued p' = true /\ new = [].
Proof.
  intros H Hp Hs. destruct p; try done; thread_cases H; done.
Qed.

Lemma queued_resting p : queued p = true -> resting p = true.
Proof. by destruct p. Qed.

Lemma strandedInv_step n w e w' :
  strandedInv n w -> local_event e -> step w e = Some w' -> strandedInv n w'.
Proof.
  intros (Hs & Hr & Hn & Hq) He H. unfold strandedInv. step_cases H; try done.
  - split; [done|]. split; [apply Forall_app; split; [done|by repeat constructor]|].
    rewrite length_app. simpl. split; [lia|].
    intros i p Hi Hp. apply lookup_app_Some in Hp as [Hp|[_ Hp]]; [eauto|].
    apply list_lookup_singleton_Some in Hp as [_ <-]. done.
  - destruct (callback w); simplify_eq. done.
  - assert (resting p = true) as Hp by (by eapply Forall_lookup_1 in Hr).
    destruct (thread_step_resting _ _ _ _ _ _ E0 Hp) as (Hs' & Hq' & ->).
    { by rewrite Hs. }
    rewrite app_nil_r, length_insert. split; [congruence|].
    split; [apply Forall_insert; [done|by apply queued_resting]|]. split; [done|].
    intros i' p' Hi' Hp'. apply list_lookup_insert_Some in Hp' as [(_ & <- & _)|[_ Hp']]; eauto.
  - exfalso. assert (resting p = true) as Hp by (by eapply Forall_lookup_1 in Hr).
    apply sends_inv in E1. unpack; simplify_eq.
  - apply candidateHandle_queue in E as (_ & Hs' & _). split; [congruence|]. done.
  - exfalso. assert (resting p = true) as Hp by (by eapply Forall_lookup_1 in Hr).
    apply receives_inv in E1. apply callback_sends_inv in E0.
    unpack; simplify_eq.
Qed.

Lemma strandedInv_run n es : forall w w',
  strandedInv n w -> Forall local_event es -> run es w = Some w' -> strandedInv n w'.
Proof.
  induction es as [|e es IH]; simpl; intros w w' Hw Hes H; [by simplify_eq|].
  apply Forall_cons in Hes as [He Hes].
  destruct (step w e) eqn:E; simpl in H; [|done].
  eauto using strandedInv_step.
Qed.

(** X6: [Answer] sets the state to answering before it calls the peer
    connection and returns the error of a failing call without touching
    the state again.  Once that call has returned, and as long as the
    remote peer makes no further call, the Signaler stays in the answering
    state: every local caller of [Negotiate] is queued and none starts a
    round or returns. *)
Theorem failed_Answer_keeps_answering w es w' :
  state (self (heap w)) = signalerStateAnswering ->
  Forall (fun p => resting p = true) (threads w) ->
  Forall local_event es ->
  run es w = Some w' ->
  (forall h r e offer answer, ext_err r = Some e ->
     thread_step h r (A_SetRemoteDescription offer)
       = Some (h, A_return zeroSessionDescription (Some e), []) /\
     thread_step h r A_CreateAnswer
       = Some (h, A_return zeroSessionDescription (Some e), []) /\
     thread_step h r (A_SetLocalDescription answer)
       = Some (h, A_return zeroSessionDescription (Some e), [])) /\
  state (self (heap w')) = signalerStateAnswering /\
  (forall i p, length (threads w) <= i -> threads w' !! i = Some p ->
     p = N_lock \/ exists ch, p = N_wait ch).
Proof.
  intros Hs Hr Hes Hrun. split.
  - intros h r e offer answer He. unfold thread_step. simpl. rewrite He. done.
  - assert (strandedInv (length (threads w)) w) as Hinv.
    { split; [done|]. split; [done|]. split; [done|].
      intros i p Hi Hp. apply lookup_lt_Some in Hp. lia. }
    destruct (strandedInv_run _ _ _ _ Hinv Hes Hrun) as (Hs' & _ & _ & Hq).
    split; [done|]. intros i p Hi Hp. specialize (Hq _ _ Hi Hp).
    destruct p; try done; eauto.
Qed.

Lemma failed_Answer_keeps_answering_witness :
  threads (after offer_refused)
    = [A_return zeroSessionDescription (Some (Simple "set remote description"))] /\
  state (self (heap (after (offer_refused ++ [CallNegotiate; Run 1 ok]))))
    = signalerStateAnswering /\
  threads (after (offer_refused ++ [CallNegotiate; Run 1 ok])) !! 1 = Some (N_wait 0).
Proof.
  split; [vm_compute; reflexivity|].
  assert (run [CallNegotiate; Run 1 ok] (after offer_refused)
          = Some (after (offer_refused ++ [CallNegotiate; Run 1 ok]))) as Hrun.
  { vm_compute. reflexivity. }
  split.
  - refine (proj1 (proj2 (failed_Answer_keeps_answering (after offer_refused)
                     [CallNegotiate; Run 1 ok] _ _ _ _ Hrun))).
    + vm_compute. reflexivity.
    + vm_compute. repeat constructor.
    + repeat constructor.
  - vm_compute. reflexivity.
Defined.

Lemma CA_loop_step w i r c rest :
  threads w !! i = Some (CA_loop (c :: rest)) ->
  c <> sentinel -> ext_err r = None ->
  step w (Run i r)
  = Some {| heap := heap w; threads := <[i := CA_loop rest]> (threads w);
            callback := callback w; delivered := delivered w; sent := sent w |}.
Proof.
  intros Hi Hc Hr. simpl. rewrite Hi. simpl. unfold thread_step. simpl.
  rewrite decide_False by done. rewrite Hr. simpl. by rewrite app_nil_r.
Qed.

Lemma run_cons e es w : run (e :: es) w = step w e ≫= run es.
Proof. reflexivity. Qed.

Lemma CA_loop_run i rs : forall w pre rest,
  threads w !! i = Some (CA_loop (pre ++ rest)) ->
  sentinel ∉ pre -> length rs = length pre ->
  Forall (fun r => ext_err r = None) rs ->
  exists w', run (Run i <$> rs) w = Some w' /\ heap w' = heap w /\
             threads w' !! i = Some (CA_loop rest) /\
             length (threads w') = length (threads w).
Proof.
  induction rs as [|r rs IH]; intros w pre rest Hi Hpre Hlen Hrs.
  - destruct pre; [|done]. exists w. done.
  - destruct pre as [|c pre]; [done|].
    apply Forall_cons in Hrs as [Hr Hrs].
    apply not_elem_of_cons in Hpre as [Hc Hpre].
    rewrite fmap_cons, run_cons.
    rewrite (CA_loop_step _ _ _ c (pre ++ rest) Hi) by done. simpl.
    edestruct (IH {| heap := heap w; threads := <[i := CA_loop (pre ++ rest)]> (threads w);
                     callback := callback w; delivered := delivered w; sent := sent w |}
                  pre rest) as (w' & Hrun & Hh & Ht & Hl); simpl; try done.
    + apply list_lookup_insert_eq. by eapply lookup_lt_Some.
    + simpl in Hlen. lia.
    + exists w'. simpl in Hl. rewrite length_insert in Hl. done.
Qed.

(** X7: the loop of [CandidateAdd] gives the candidates to the peer
    connection in order, as long as they are added without error, and
    stops at the first empty candidate or at the first error: the
    candidates that follow in the same call are not added.  Without an
    empty candidate and without error the call returns nil and leaves the
    exchange running. *)
Theorem CandidateAdd_stops_at_first_empty w i pre rest rs :
  threads w !! i = Some (CA_loop (pre ++ rest)) ->
  sentinel ∉ pre ->
  length rs = length pre ->
  Forall (fun r => ext_err r = None) rs ->
  exists w1,
    run (Run i <$> rs) w = Some w1 /\ heap w1 = heap w /\
    threads w1 !! i = Some (CA_loop rest) /\
    forall r, exists w2,
      step w1 (Run i r) = Some w2 /\ heap w2 = heap w /\
      match rest with
      | [] => threads w2 !! i = Some (CA_return None)
      | c :: _ =>
          if decide (c = sentinel) then threads w2 !! i = Some (CA_finish AtSentinel)
          else match ext_err r with
               | Some e => threads w2 !! i = Some (CA_finish (AtError e))
               | None => True
               end
      end.
Proof.
  intros Hi Hpre Hlen Hrs.
  destruct (CA_loop_run i rs w pre rest Hi Hpre Hlen Hrs) as (w1 & Hrun & Hh & Ht & Hl).
  exists w1. split; [done|]. split; [done|]. split; [done|]. intros r.
  assert (i < length (threads w1)) as Hlt by (by eapply lookup_lt_Some).
  simpl. rewrite Ht. simpl. unfold thread_step.
  destruct rest as [|c post]; simpl.
  - eexists. split; [done|]. simpl. split; [done|].
    rewrite app_nil_r. by apply list_lookup_insert_eq.
  - destruct (decide (c = sentinel)) as [->|Hc]; simpl.
    + eexists. split; [done|]. simpl. split; [done|].
      rewrite app_nil_r. by apply list_lookup_insert_eq.
    + destruct (ext_err r) as [e|]; simpl.
      * eexists. split; [done|]. simpl. split; [done|].
        rewrite app_nil_r. by apply list_lookup_insert_eq.
      * eexists. split; [done|]. done.
Qed.

Lemma CandidateAdd_stops_at_first_empty_witness :
  threads (after candidates_arrive) !! 1
    = Some (CA_loop ([CandidateOf host1] ++ [sentinel; CandidateOf host2])) /\
  exists w1,
    run (Run 1 <$> [ok]) (after candidates_arrive) = Some w1 /\
    heap w1 = heap (after candidates_arrive) /\
    threads w1 !! 1 = Some (CA_loop [sentinel; CandidateOf host2]).
Proof.
  assert (threads (after candidates_arrive) !! 1
    = Some (CA_loop ([CandidateOf host1] ++ [sentinel; CandidateOf host2]))) as Hi.
  { vm_compute. reflexivity. }
  split; [exact Hi|].
  destruct (CandidateAdd_stops_at_first_empty (after candidates_arrive) 1
              [CandidateOf host1] [sentinel; CandidateOf host2] [ok] Hi)
    as (w1 & Hrun & Hh & Ht & _).
  - intros Hin. apply list_elem_of_singleton in Hin. discriminate Hin.
  - reflexivity.
  - repeat constructor.
  - exists w1. split; [exact Hrun|]. split; [exact Hh|]. exact Ht.
Defined.

Lemma in_order_snoc l n : in_order l -> Forall (fun a => a < n) l -> in_order (l ++ [n]).
Proof.
  intros Hl Hn i j a b Hij Ha Hb.
  apply lookup_app_Some in Hb as [Hb|[Hlen Hb]].
  - apply lookup_lt_Some in Hb as Hj.
    rewrite lookup_app_l in Ha by lia. eauto.
  - apply list_lookup_singleton_Some in Hb as [Hz <-].
    rewrite lookup_app_l in Ha by lia.
    eapply Forall_lookup_1 in Hn; [|exact Ha]. done.
Qed.

Lemma thread_step_queue h r p h' p' new :
  thread_step h r p = Some (h', p', new) ->
  waitPending (self h') = waitPending (self h) \/
  waitPending (self h') = [] \/
  (waitPending (self h') = waitPending (self h) ++ [fresh h] /\ p = N_lock /\
   p' = N_wait (fresh h) /\ state (self h) <> signalerStateIdle).
Proof.
  intros H. destruct p; thread_cases H.
  all: try (left; done); try (right; left; done).
  right; right; done.
Qed.

Lemma reachable_queue_sorted w :
  reachable w -> in_order (waitPending (self (heap w))).
Proof.
  revert w. apply reachable_invariant.
  - intros x _ _ _ _ _ Hp _ _. simpl. rewrite Hp. by intros i j a b _ ?.
  - intros w e w' Hw IH H.
    destruct (reachable_batchInv _ Hw) as [Hf _].
    step_cases H; try done.
    + destruct (callback w); simplify_eq. done.
    + destruct (thread_step_queue _ _ _ _ _ _ E0) as [->|[->|(-> & _)]];
        [done|by intros ? ? ? ? _ ?|].
      by apply in_order_snoc.
    + apply candidateHandle_queue in E as (-> & _). done.
Qed.

(** X8: the queue of [Negotiate] is in order of arrival: a caller that
    finds the Signaler busy is appended to [waitPending] with a channel of
    its own, made after every channel already queued, so that the head of
    the queue, which [finish] wakes to run the next round, is the caller
    that has waited longest. *)
Theorem waitPending_in_arrival_order w :
  reachable w ->
  let x := self (heap w) in
  in_order (waitPending x) /\
  NoDup (waitPending x) /\
  (forall r, mux x = false -> state x <> signalerStateIdle ->
     thread_step (heap w) r N_lock
     = Some (with_self (set_waitPending (waitPending x ++ [fresh (heap w)]) x)
               (make_chan (heap w)),
             N_wait (fresh (heap w)), []) /\
     forall ch, ch ∈ waitPending x -> ch < fresh (heap w)).
Proof.
  intros Hw x. pose proof (reachable_queue_sorted _ Hw) as Hs. fold x in Hs.
  destruct (reachable_batchInv _ Hw) as [Hf _]. fold x in Hf.
  split_and?.
  - exact Hs.
  - apply NoDup_alt. intros i j a Hi Hj.
    destruct (Nat.lt_trichotomy i j) as [Hlt|[->|Hlt]]; [|done|].
    + specialize (Hs _ _ _ _ Hlt Hi Hj). lia.
    + specialize (Hs _ _ _ _ Hlt Hj Hi). lia.
  - intros r Hm Hst. split.
    + unfold thread_step, Negotiate. fold x. rewrite Hm.
      rewrite decide_False by done. done.
    + intros ch Hch. rewrite Forall_forall in Hf. by apply Hf.
Qed.

Lemma waitPending_in_arrival_order_witness :
  reachable (after joined_round) /\
  waitPending (self (heap (after joined_round))) = [0; 1] /\
  in_order (waitPending (self (heap (after joined_round)))).
Proof.
  assert (reachable (after joined_round)) as Hw.
  { apply reachable_after. vm_compute. eauto. }
  split; [exact Hw|]. split; [vm_compute; reflexivity|].
  exact (proj1 (waitPending_in_arrival_order _ Hw)).
Defined.

Lemma negotiating_unanswered w : negotiating w -> Forall unanswered (threads w).
Proof.
  revert w. apply negotiating_invariant.
  - intros. simpl. done.
  - intros w e w' Hn IH He H.
    pose proof (negotiating_negotiate_pc _ Hn) as Hpc.
    step_cases H; try done.
    + apply Forall_app. split; [done|]. by repeat constructor.
    + destruct (callback w); simplify_eq. done.
    + eapply Forall_lookup_1 in E as Hp; [|exact Hpc].
      eapply Forall_lookup_1 in E as Hu; [|exact IH].
      destruct (thread_step_negotiate_pc _ _ _ _ _ _ E0 Hp) as [_ ->].
      rewrite app_nil_r. apply Forall_insert; [done|].
      clear -E0 Hu. destruct p; thread_cases E0; try done.
      all: try (by destruct k); by destruct k, done.
    + eapply Forall_lookup_1 in E as Hp; [|exact Hpc].
      eapply Forall_lookup_1 in E0 as Hq; [|exact Hpc].
      apply sends_inv in E1. apply receives_inv in E2.
      apply Forall_insert; [apply Forall_insert; [done|]|].
      * unpack; simplify_eq; try done.
      * eapply Forall_lookup_1 in E0 as Hu; [|exact IH].
        unpack; simplify_eq; try done.
    + apply callback_sends_inv in E0 as (c0 & _ & -> & ->).
      apply receives_candidate_inv in E1 as (? & ? & ? & -> & ->).
      by apply Forall_insert.
Qed.

Lemma thread_step_busy h r p h' p' new :
  thread_step h r p = Some (h', p', new) ->
  negotiate_pc p -> unanswered p ->
  let wp := waitPending (self h) in
  let wp' := waitPending (self h') in
  state (self h') <> signalerStateIdle ->
  holder wp' p' = true \/
  (holder wp p = false /\ state (self h) <> signalerStateIdle /\
   (wp' = wp \/ wp' = wp ++ [fresh h])).
Proof.
  intros H Hp Hu. destruct p; try done; thread_cases H.
  all: try (destruct k; try done).
  all: try (destruct done).
  all: simpl; intros Hs; rew_fields; simpl;
    rewrite ?bool_decide_eq_true_2, ?bool_decide_eq_false_2 by congruence.
  all: try (left; done).
  all: try (right; split_and?; try done; try congruence; eauto; fail).
Qed.

Lemma negotiating_busyInv w : negotiating w -> busyInv w.
Proof.
  revert w. apply negotiating_invariant.
  - intros x _ Hs _. unfold busyInv. simpl. congruence.
  - intros w e w' Hn IH He H.
    pose proof (negotiating_reachable _ Hn) as Hw.
    pose proof (negotiating_negotiate_pc _ Hn) as Hpc.
    pose proof (negotiating_unanswered _ Hn) as Hua.
    destruct (negotiating_tokenInv _ Hn) as (Htok & _ & Hfs).
    unfold busyInv in *. step_cases H; try done.
    + intros Hs. destruct (IH Hs) as (i & p & Hi & Hp).
      exists i, p. split; [|done]. by apply lookup_app_l_Some.
    + destruct (callback w); simplify_eq. done.
    + eapply Forall_lookup_1 in E as Hp; [|exact Hpc].
      eapply Forall_lookup_1 in E as Hu; [|exact Hua].
      destruct (thread_step_negotiate_pc _ _ _ _ _ _ E0 Hp) as [_ ->].
      rewrite app_nil_r. intros Hs.
      assert (i < length (threads w)) as Hlt by (by eapply lookup_lt_Some).
      destruct (thread_step_busy _ _ _ _ _ _ E0 Hp Hu Hs) as [Hh|(Hh & Hs0 & Hwp)].
      * exists i, p0. split; [|done]. by apply list_lookup_insert_eq.
      * destruct (IH Hs0) as (j & q & Hj & Hq).
        assert (j <> i) as Hne by (intros ->; congruence).
        exists j, q. split; [by rewrite list_lookup_insert_ne|].
        destruct Hwp as [->| ->]; [done|].
        rewrite holder_enqueue; [done|]. intros ch v -> ->.
        pose proof (woken_fresh _ _ _ _ Hw Hj). lia.
    + intros Hs. destruct (IH Hs) as (k & q & Hk & Hq).
      eapply Forall_lookup_1 in E0 as Hu; [|exact Hua].
      assert (i <> j) as Hij.
      { intros ->. rewrite E in E0. simplify_eq.
        by rewrite (sends_not_receives _ _ _ m E1) in E2. }
      destruct (decide (k = j)) as [->|Hkj].
      { exfalso. rewrite E0 in Hk. injection Hk as <-.
        apply sends_inv in E1. apply receives_inv in E2.
        unpack; simplify_eq; done. }
      destruct (decide (k = i)) as [->|Hki].
      * rewrite E in Hk. injection Hk as <-.
        exists j, p2. split.
        { apply list_lookup_insert_eq. rewrite length_insert. by eapply lookup_lt_Some. }
        apply sends_inv in E1. destruct E1 as [C|[C|[C|C]]].
        -- destruct C as (sb & ch & rest & err & -> & -> & ->). done.
        -- destruct C as (sb & ch & -> & -> & ->).
           apply receives_priority_inv in E2 as (offer & -> & ->).
           eapply Forall_lookup_1 in Hpc; [|exact E0]. done.
        -- destruct C as (ch & rest & err & k & -> & -> & ->). done.
        -- destruct C as (ch & k & -> & -> & ->).
           apply receives_result_inv in E2 as [[-> ->]|(sb' & -> & ->)]; [|done].
           simpl. apply bool_decide_eq_true_2.
           eapply Forall_lookup_1 in Hfs; [|exact E]. by eapply Hfs.
      * exists k, q. split; [|done]. by rewrite !list_lookup_insert_ne.
    + apply candidateHandle_queue in E as (Hp & Hs & _). rewrite Hp, Hs. done.
    + intros Hs. destruct (IH Hs) as (k & q & Hk & Hq).
      apply callback_sends_inv in E0 as (c0 & _ & -> & ->).
      apply receives_candidate_inv in E1 as (md & k0 & bs & -> & ->).
      destruct (decide (k = j)) as [->|Hkj].
      * exists j, (P_call md k0 bs [c0]). split; [|done].
        apply list_lookup_insert_eq. by eapply lookup_lt_Some.
      * exists k, q. split; [|done]. by rewrite list_lookup_insert_ne.
Qed.

Lemma NoDup_omap_lookup {A B} (f : A -> option B) (l : list A) (i j : nat) a b x :
  NoDup (omap f l) -> l !! i = Some a -> l !! j = Some b ->
  f a = Some x -> f b = Some x -> i = j.
Proof.
  revert i j. induction l as [|c l IH]; intros i j Hnd Hi Hj Ha Hb; [done|].
  rewrite omap_cons in Hnd.
  destruct i as [|i], j as [|j]; simplify_eq/=; try done.
  - rewrite Ha in Hnd. apply NoDup_cons in Hnd as [Hx _]. exfalso. apply Hx.
    apply list_elem_of_omap. exists b. split; [|done]. by eapply list_elem_of_lookup_2.
  - rewrite Hb in Hnd. apply NoDup_cons in Hnd as [Hx _]. exfalso. apply Hx.
    apply list_elem_of_omap. exists a. split; [|done]. by eapply list_elem_of_lookup_2.
  - f_equal. eapply IH; eauto. destruct (f c); [by apply NoDup_cons in Hnd as [_ ?]|done].
Qed.

Lemma waiters_distinct w i j ch :
  reachable w -> threads w !! i = Some (N_wait ch) -> threads w !! j = Some (N_wait ch) ->
  i = j.
Proof.
  intros Hw Hi Hj. destruct (reachable_receiversInv _ Hw) as [Hnd _].
  apply NoDup_app in Hnd as (Hnd & _ & _).
  by eapply (NoDup_omap_lookup waits_on _ i j).
Qed.

Lemma woken_not_waited w i j ch v :
  reachable w -> threads w !! i = Some (N_woken ch v) -> threads w !! j = Some (N_wait ch) ->
  False.
Proof.
  intros Hw Hi Hj. destruct (reachable_receiversInv _ Hw) as [Hnd _].
  apply NoDup_app in Hnd as (_ & Hdisj & _). apply (Hdisj ch).
  - apply list_elem_of_omap. exists (N_wait ch). split; [|done].
    by eapply list_elem_of_lookup_2.
  - pose proof (reachable_sentInv _ Hw) as Hs. eapply Forall_lookup_1 in Hs; [|exact Hi].
    simpl in Hs. by apply (list_elem_of_fmap_2 fst) in Hs.
Qed.

Lemma thread_step_accounted h r p h' p' new :
  thread_step h r p = Some (h', p', new) ->
  negotiate_pc p ->
  let wp := waitPending (self h) in
  let wp' := waitPending (self h') in
  (forall ch, ch ∈ wp -> ch ∈ wp' \/ ch ∈ pending p' \/ exists v, p = N_woken ch v) /\
  (forall ch, ch ∈ pending p -> ch ∈ pending p' \/ ch ∈ wp') /\
  (forall ch, p' = N_wait ch -> ch ∈ wp').
Proof.
  intros H Hp. destruct p; try done; thread_cases H.
  all: try (destruct k; try done).
  all: try (destruct done).
  all: rew_fields; simpl.
  all: split_and?; try (intros; simplify_eq); try set_solver.
Qed.

Lemma negotiating_waiterInv w : negotiating w -> waiterInv w.
Proof.
  revert w. apply negotiating_invariant.
  - intros x _ _ _ j ch Hj. done.
  - intros w e w' Hn IH He H.
    pose proof (negotiating_reachable _ Hn) as Hw.
    pose proof (negotiating_negotiate_pc _ Hn) as Hpc.
    unfold waiterInv in *. step_cases H; try done.
    + intros j ch Hj. apply lookup_app_Some in Hj as [Hj|[_ Hj]].
      * destruct (IH _ _ Hj) as [Hin|(i & p & Hi & Hp)]; [by left|].
        right. exists i, p. split; [|done]. by apply lookup_app_l_Some.
      * apply list_lookup_singleton_Some in Hj as [_ Hj]. discriminate Hj.
    + destruct (callback w); simplify_eq. done.
    + eapply Forall_lookup_1 in E as Hp; [|exact Hpc].
      destruct (thread_step_negotiate_pc _ _ _ _ _ _ E0 Hp) as [_ ->].
      rewrite app_nil_r.
      assert (i < length (threads w)) as Hlt by (by eapply lookup_lt_Some).
      destruct (thread_step_accounted _ _ _ _ _ _ E0 Hp) as (Hq & Hb & Hnew).
      intros j ch Hj.
      apply list_lookup_insert_Some in Hj as [(<- & -> & _)|[Hne Hj]].
      { left. by apply Hnew. }
      destruct (IH _ _ Hj) as [Hin|(k & q & Hk & Hin)].
      * destruct (Hq _ Hin) as [?|[?|[v ->]]]; [by left| |].
        -- right. exists i, p0. split; [|done]. by apply list_lookup_insert_eq.
        -- exfalso. by eapply (woken_not_waited w i j).
      * destruct (decide (k = i)) as [->|Hki].
        -- rewrite E in Hk. injection Hk as <-.
           destruct (Hb _ Hin) as [?|?]; [|by left].
           right. exists i, p0. split; [|done]. by apply list_lookup_insert_eq.
        -- right. exists k, q. split; [|done]. by rewrite list_lookup_insert_ne.
    + assert (i <> j) as Hij.
      { intros ->. rewrite E in E0. simplify_eq.
        by rewrite (sends_not_receives _ _ _ m E1) in E2. }
      assert (i < length (threads w)) as Hlti by (by eapply lookup_lt_Some).
      assert (j < length (threads w)) as Hltj by (by eapply lookup_lt_Some).
      intros n ch Hn'.
      apply list_lookup_insert_Some in Hn' as [(<- & Hq2 & _)|[Hnj Hn']].
      { exfalso. apply receives_inv in E2. unpack; simplify_eq. }
      apply list_lookup_insert_Some in Hn' as [(<- & Hp1 & _)|[Hni Hn']].
      { exfalso. apply sends_inv in E1. unpack; simplify_eq. }
      destruct (IH _ _ Hn') as [Hin|(k & q & Hk & Hin)]; [by left|].
      right. destruct (decide (k = j)) as [->|Hkj].
      { exfalso. rewrite E0 in Hk. injection Hk as <-.
        eapply Forall_lookup_1 in E0 as Hu; [|exact (negotiating_unanswered _ Hn)].
        eapply Forall_lookup_1 in E0 as Hq; [|exact Hpc].
        apply receives_inv in E2. apply sends_inv in E1.
        unpack; simplify_eq; simpl in Hin; try done; by apply elem_of_nil in Hin. }
      destruct (decide (k = i)) as [->|Hki].
      * rewrite E in Hk. injection Hk as <-.
        exists i, p1. split.
        { rewrite list_lookup_insert_ne by done. by apply list_lookup_insert_eq. }
        apply sends_inv in E1. destruct E1 as [C|[C|[C|C]]].
        -- destruct C as (sb & c & rest & err & -> & -> & ->). simpl in *.
           apply elem_of_cons in Hin as [->|Hin]; [|done]. exfalso.
           apply receives_result_inv in E2 as [[-> ->]|(sb' & -> & ->)].
           ++ apply Hnj. by eapply (waiters_distinct w).
           ++ eapply Forall_lookup_1 in E0; [|exact (negotiating_unanswered _ Hn)]. done.
        -- destruct C as (sb & c & -> & -> & ->). done.
        -- destruct C as (c & rest & err & k & -> & -> & ->).
           eapply Forall_lookup_1 in Hpc; [|exact E]. done.
        -- destruct C as (c & k & -> & -> & ->). done.
      * exists k, q. split; [|done]. by rewrite !list_lookup_insert_ne.
    + apply candidateHandle_queue in E as (Hp & _). rewrite Hp. done.
    + apply callback_sends_inv in E0 as (c0 & _ & -> & ->).
      apply receives_candidate_inv in E1 as (md & k0 & bs & -> & ->).
      assert (j < length (threads w)) as Hltj by (by eapply lookup_lt_Some).
      intros n ch Hn'.
      apply list_lookup_insert_Some in Hn' as [(<- & Hq2 & _)|[Hnj Hn']]; [done|].
      destruct (IH _ _ Hn') as [Hin|(k & q & Hk & Hin)]; [by left|].
      right. destruct (decide (k = j)) as [->|Hkj].
      * rewrite E in Hk. injection Hk as <-.
        exists j, (P_call md k0 bs [c0]). split; [|done]. by apply list_lookup_insert_eq.
      * exists k, q. split; [|done]. by rewrite list_lookup_insert_ne.
Qed.

Lemma negotiating_wantedInv w : negotiating w -> wantedInv w.
Proof.
  revert w. apply negotiating_invariant.
  - intros x _ _ _ i m k bs Hi. done.
  - intros w e w' Hn IH He H.
    pose proof (negotiating_reachable _ Hn) as Hw.
    pose proof (reachable_lockInv _ Hw) as Hlock.
    destruct (negotiating_tokenInv _ Hn) as (Htok & _ & _).
    unfold wantedInv in *. step_cases H; try done.
    + intros i m k bs Hi. apply lookup_app_Some in Hi as [Hi|[_ Hi]]; [eauto|].
      apply list_lookup_singleton_Some in Hi as [_ Hi]. discriminate Hi.
    + destruct (callback w) eqn:Hcb; simplify_eq. simpl.
      intros i m k bs Hi. destruct (IH _ _ _ _ Hi) as [Hwant _]. done.
    + pose proof (negotiating_negotiate_pc _ Hn) as Hpc.
      eapply Forall_lookup_1 in E as Hp; [|exact Hpc].
      destruct (thread_step_negotiate_pc _ _ _ _ _ _ E0 Hp) as [_ ->].
      rewrite app_nil_r. intros n m k bs Hn'.
      apply list_lookup_insert_Some in Hn' as [(<- & -> & _)|[Hne Hn']].
      * assert (callback w = H_clear -> mux (self (heap w)) = true) as Hcm.
        { intros Hc. unfold lockInv, lockers in Hlock. rewrite Hc in Hlock. simpl in Hlock.
          destruct (mux (self (heap w))); [done|lia]. }
        clear -E0 Hcm. destruct p; thread_cases E0; try (by destruct k0);
          try (by destruct k0, done).
        split; [done|]. intros Hc. specialize (Hcm Hc). congruence.
      * destruct (IH _ _ _ _ Hn') as [Hwant Hc]. split; [|done].
        by eapply thread_step_want_mono.
    + intros n md k bs Hn'.
      apply list_lookup_insert_Some in Hn' as [(<- & Hq2 & _)|[Hnj Hn']].
      { exfalso. apply receives_inv in E2. apply sends_inv in E1.
        unpack; simplify_eq. }
      apply list_lookup_insert_Some in Hn' as [(<- & Hp1 & _)|[Hni Hn']].
      { exfalso. apply sends_inv in E1. unpack; simplify_eq. }
      eauto.
    + unfold candidateHandle in E. destruct (callback w) eqn:Hcb; simplify_eq.
      * repeat case_match; simplify_eq/=.
        -- intros i m k bs Hi. destruct (IH _ _ _ _ Hi) as [Hwant _]. done.
        -- intros i m k bs Hi. destruct (IH _ _ _ _ Hi) as [Hwant _]. congruence.
      * simplify_eq/=. intros i m k bs Hi. by destruct (IH _ _ _ _ Hi) as [_ Hc].
    + apply callback_sends_inv in E0 as (c0 & _ & -> & ->).
      apply receives_candidate_inv in E1 as (md & k0 & bs0 & -> & ->).
      intros n m k bs Hn'. exfalso.
      apply list_lookup_insert_Some in Hn' as [(<- & Hq2 & _)|[Hnj Hn']]; [done|].
      apply Hnj. eapply (omap_unique (holds _) _ j n); [exact Htok|exact E|exact Hn'| |];
        by apply holds_is_Some.
Qed.

Lemma sum_list_insert {A} (f : A -> nat) (l : list A) (i : nat) a b :
  l !! i = Some a ->
  sum_list (f <$> <[i:=b]> l) + f a = sum_list (f <$> l) + f b.
Proof.
  revert i. induction l as [|c l IH]; intros [|i] Hi; simplify_eq/=; [lia|].
  specialize (IH _ Hi). lia.
Qed.

Lemma find_thread (f : pc -> bool) (l : list pc) :
  (exists i p, l !! i = Some p /\ f p = true) \/ Forall (fun p => f p = false) l.
Proof.
  induction l as [|a l [(i & p & Hi & Hp)|IH]].
  - right. constructor.
  - left. exists (S i), p. done.
  - destruct (f a) eqn:Ha.
    + left. exists 0, a. done.
    + right. by constructor.
Qed.

Lemma unfinished_app l1 l2 : unfinished (l1 ++ l2) = unfinished l1 + unfinished l2.
Proof. unfold unfinished. by rewrite filter_app, length_app. Qed.

Lemma unfinished_last (c : list Candidate) :
  c <> [] -> last_is_sentinel c = false -> 1 <= unfinished c.
Proof.
  intros Hc Hl. destruct (exists_last Hc) as (c' & x & ->).
  rewrite unfinished_app. unfold last_is_sentinel in Hl.
  rewrite last_snoc in Hl. apply bool_decide_eq_false in Hl.
  unfold unfinished at 2. rewrite filter_cons_True by congruence. simpl. lia.
Qed.

(** A goroutine that can run makes a transition when the mutex is free and
    the callback is idle, every external call succeeding; the measure
    decreases. *)
Lemma runnable_step h p :
  negotiate_pc p -> steady p -> runnable p = true -> mux (self h) = false ->
  exists h' p',
    thread_step h ok p = Some (h', p', []) /\ steady p' /\
    rank p' + callback_rank H_idle (candidateWant (self h'))
      + unfinished (candidates (self h')) * 20
    < rank p + callback_rank H_idle (candidateWant (self h))
      + unfinished (candidates (self h)) * 20.
Proof.
  intros Hp Hs Hr Hm. unfold thread_step.
  destruct p; try done; simpl; rewrite ?Hm; simpl.
  - (* N_lock *) case_decide; simpl; eexists _, _; (split; [done|]); simpl;
      (split; [done|]); lia.
  - (* N_woken *) destruct (waitPending (self h)) as [|ch0 rest]; simpl.
    + eexists _, _. split; [done|]. simpl. split; [done|]. lia.
    + case_decide; simpl; eexists _, _; (split; [done|]); simpl; (split; [done|]); lia.
  - eexists _, _. split; [done|]. simpl. split; [done|]. lia.
  - eexists _, _. split; [done|]. simpl. split; [done|]. lia.
  - eexists _, _. split; [done|]. simpl. split; [done|]. lia.
  - eexists _, _. split; [done|]. simpl. split; [done|]. lia.
  - eexists _, _. split; [done|]. simpl. split; [done|]. lia.
  - (* N_defer *) destruct priorityConceded; eexists _, _; (split; [done|]); simpl;
      (split; [done|]); lia.
  - (* N_broadcast *) destruct rest; [|done].
    eexists _, _. split; [done|]. simpl. split; [done|]. lia.
  - (* P_lock *) destruct (candidates (self h)) as [|c cs] eqn:Hc; simpl.
    + eexists _, _. split; [done|]. simpl. split; [done|]. rewrite Hc. simpl.
      destruct (candidateWant (self h)); lia.
    + eexists _, _. split; [done|]. simpl. split; [done|]. rewrite ?Hc.
      change (unfinished []) with 0.
      destruct (last_is_sentinel (c :: cs)) eqn:Hl; [lia|].
      pose proof (unfinished_last (c :: cs) ltac:(done) Hl). lia.
  - (* P_call *) destruct m; simpl.
    + destruct (last_is_sentinel c) eqn:Hl; eexists _, _; (split; [done|]); simpl;
        (split; [done|]); lia.
    + destruct (last_is_sentinel c) eqn:Hl; eexists _, _; (split; [done|]); simpl;
        (split; [done|]); lia.
  - (* P_return *) destruct k; try done; simpl.
    + destruct done; eexists _, _; (split; [done|]); simpl; (split; [done|]); lia.
    + eexists _, _. split; [done|]. simpl. split; [done|]. lia.
  - (* F_lock *) destruct k; try done.
    destruct (waitPending (self h)) as [|ch0 rest]; simpl;
      eexists _, _; (split; [done|]); simpl; (split; [done|]); lia.
  - (* F_unlock *) destruct k; try done.
    eexists _, _. split; [done|]. simpl. split; [done|]. lia.
Qed.

Lemma steady_insert (l : list pc) i p : Forall steady l -> steady p -> Forall steady (<[i:=p]> l).
Proof. intros. by apply Forall_insert. Qed.

(** When no goroutine and no callback is inside a section that keeps the
    mutex, the mutex is free. *)
Lemma mutex_free w :
  reachable w ->
  Forall (fun p => locked_pc p = false) (threads w) ->
  locked_callback (callback w) = false ->
  mux (self (heap w)) = false.
Proof.
  intros Hw Ht Hc. pose proof (reachable_lockInv _ Hw) as Hl.
  unfold lockInv, lockers in Hl. rewrite Hc in Hl.
  rewrite (omap_None locks) in Hl.
  - destruct (mux (self (heap w))); [simpl in Hl; lia|done].
  - eapply Forall_impl; [exact Ht|]. intros p Hp. unfold locks. by rewrite Hp.
Qed.

Lemma unfinished_singleton c :
  unfinished [c] = if last_is_sentinel [c] then 0 else 1.
Proof.
  unfold unfinished, last_is_sentinel. simpl. case_bool_decide as Hc.
  - injection Hc as ->. by rewrite filter_cons_False by (by intros ?).
  - rewrite filter_cons_True by congruence. done.
Qed.

(** With local callers that were not told of a conflict, a system that is
    left to itself and has not finished can make a transition that brings
    it closer to the end: the callback completes its hand-over, [finish]
    wakes the head of the queue, a result goes to a member of the batch, a
    goroutine runs with its external call succeeding, or gathering ends
    for a consumer that waits. *)
Lemma negotiating_progress w :
  negotiating w -> Forall steady (threads w) ->
  Forall (fun p => is_Some (returned p)) (threads w) \/
  exists e w', quiet e /\ step w e = Some w' /\ Forall steady (threads w') /\
               measure w' < measure w.
Proof.
  intros Hn Hst.
  pose proof (negotiating_reachable _ Hn) as Hw.
  pose proof (negotiating_negotiate_pc _ Hn) as Hpc.
  destruct (negotiating_tokenInv _ Hn) as (Htok & _ & Hfs).
  destruct (negotiating_waitingInv _ Hn) as [W1 W2].
  (* finish is about to unlock *)
  destruct (find_thread at_unlock (threads w)) as [(i & p & Hi & Hp)|Hnu].
  { right. destruct p; try done.
    eapply Forall_lookup_1 in Hpc; [|exact Hi]. destruct k; try done.
    exists (Run i ok). simpl. rewrite Hi. simpl. eexists. split; [done|].
    split; [done|]. simpl. rewrite app_nil_r. split; [by apply steady_insert|].
    unfold measure. simpl.
    pose proof (sum_list_insert rank _ _ _ (N_broadcast sameBatch sameBatch err) Hi) as Hsum.
    simpl in Hsum. lia. }
  (* finish wakes the head of the queue *)
  destruct (find_thread at_wake (threads w)) as [(i & p & Hi & Hp)|Hnw].
  { right. destruct p; try done.
    assert (head (waitPending (self (heap w))) = Some ch) as Hh.
    { eapply Forall_lookup_1 in Hfs; [|exact Hi]. by eapply Hfs. }
    assert (ch ∈ waitPending (self (heap w))) as Hin.
    { destruct (waitPending (self (heap w))); simplify_eq/=. by left. }
    destruct (W2 _ Hin) as [[j Hj]|(_ & j & v & Hj)].
    - exists (Sync i j). simpl. rewrite Hi, Hj. simpl.
      rewrite decide_True by done. simpl. eexists. split; [done|]. split; [done|].
      simpl. split; [by repeat apply steady_insert|].
      unfold measure. simpl.
      assert (i <> j) as Hij by (intros ->; congruence).
      assert (<[i:=F_unlock k]> (threads w) !! j = Some (N_wait ch)) as Hj'.
      { by rewrite list_lookup_insert_ne. }
      pose proof (sum_list_insert rank _ _ _ (F_unlock k) Hi) as Hs1.
      pose proof (sum_list_insert rank _ _ _ (N_woken ch None) Hj') as Hs2.
      simpl in Hs1, Hs2. lia.
    - exfalso.
      assert (i = j) as <-.
      { eapply (omap_unique (holds _) _ i j);
          [exact Htok|exact Hi|exact Hj| |]; apply holds_is_Some; [done|].
        simpl. by apply bool_decide_eq_true_2. }
      rewrite Hi in Hj. discriminate Hj. }
  assert (Forall (fun p => locked_pc p = false) (threads w)) as Hfree.
  { apply Forall_lookup_2. intros i p Hi.
    eapply Forall_lookup_1 in Hst; [|exact Hi].
    eapply Forall_lookup_1 in Hpc; [|exact Hi].
    eapply Forall_lookup_1 in Hnu; [|exact Hi].
    eapply Forall_lookup_1 in Hnw; [|exact Hi].
    by destruct p. }
  destruct (callback w) eqn:Hcb.
  - (* the callback is idle *)
    assert (mux (self (heap w)) = false) as Hm.
    { apply mutex_free; [done|done|by rewrite Hcb]. }
    destruct (find_thread runnable (threads w)) as [(i & p & Hi & Hp)|Hnr].
    { right. eapply Forall_lookup_1 in Hpc; [|exact Hi].
      eapply Forall_lookup_1 in Hst as Hsp; [|exact Hi].
      destruct (runnable_step (heap w) p Hpc Hsp Hp Hm) as (h' & p' & Hstep & Hsp' & Hlt).
      exists (Run i ok). simpl. rewrite Hi. simpl. rewrite Hstep. simpl.
      eexists. split; [done|]. split; [done|]. simpl. rewrite app_nil_r.
      split; [by apply steady_insert|].
      unfold measure. simpl. rewrite Hcb. simpl. rewrite !app_nil_r.
      pose proof (sum_list_insert rank _ _ _ p' Hi) as Hsum.
      simpl in Hlt. lia. }
    destruct (find_thread at_broadcast (threads w)) as [(i & p & Hi & Hp)|Hnb].
    { right. destruct p; try done. destruct rest as [|ch rest]; [done|].
      destruct (W1 _ _ ch Hi) as [j Hj]; [simpl; by left|].
      exists (Sync i j). simpl. rewrite Hi, Hj. simpl.
      rewrite decide_True by done. simpl. eexists. split; [done|]. split; [done|].
      simpl. split; [by repeat apply steady_insert|].
      unfold measure. simpl.
      assert (i <> j) as Hij by (intros ->; congruence).
      assert (<[i:=N_broadcast sameBatch rest err]> (threads w) !! j = Some (N_wait ch))
        as Hj'.
      { by rewrite list_lookup_insert_ne. }
      pose proof (sum_list_insert rank _ _ _ (N_broadcast sameBatch rest err) Hi) as Hs1.
      pose proof (sum_list_insert rank _ _ _ (N_woken ch err) Hj') as Hs2.
      simpl in Hs1, Hs2. lia. }
    destruct (find_thread at_receive (threads w)) as [(i & p & Hi & Hp)|Hnc].
    { right. destruct p; try done.
      destruct (negotiating_wantedInv _ Hn _ _ _ _ Hi) as [Hwant _].
      exists (Gather None). simpl. rewrite Hcb. eexists. split; [done|].
      split; [done|]. simpl. split; [done|].
      unfold measure. simpl. rewrite Hcb, Hwant. simpl.
      rewrite !unfinished_app. change (unfinished [sentinel]) with 0.
      change (unfinished []) with 0. lia. }
    (* every goroutine waits in the queue or has returned *)
    left. apply Forall_lookup_2. intros i p Hi.
    eapply Forall_lookup_1 in Hst as Hsp; [|exact Hi].
    eapply Forall_lookup_1 in Hpc as Hpp; [|exact Hi].
    eapply Forall_lookup_1 in Hnr as H1; [|exact Hi].
    eapply Forall_lookup_1 in Hnb as H2; [|exact Hi].
    eapply Forall_lookup_1 in Hnc as H3; [|exact Hi].
    eapply Forall_lookup_1 in Hnw as H4; [|exact Hi].
    destruct p; try done; [|by destruct rest]. exfalso.
    assert (forall j q, threads w !! j = Some q ->
              holder (waitPending (self (heap w))) q = false /\ pending q = []) as Hrest.
    { intros j q Hj.
      eapply Forall_lookup_1 in Hst as Hsq; [|exact Hj].
      eapply Forall_lookup_1 in Hpc as Hpq; [|exact Hj].
      eapply Forall_lookup_1 in Hnr as G1; [|exact Hj].
      eapply Forall_lookup_1 in Hnb as G2; [|exact Hj].
      eapply Forall_lookup_1 in Hnc as G3; [|exact Hj].
      eapply Forall_lookup_1 in Hnw as G4; [|exact Hj].
      destruct q; try done. by destruct rest. }
    destruct (negotiating_waiterInv _ Hn _ _ Hi) as [Hin|(j & q & Hj & Hin)].
    + assert (state (self (heap w)) <> signalerStateIdle) as Hbusy.
      { apply (reachable_pendingInv _ Hw). intros Hq. rewrite Hq in Hin.
        by apply elem_of_nil in Hin. }
      destruct (negotiating_busyInv _ Hn Hbusy) as (j & q & Hj & Hq).
      destruct (Hrest _ _ Hj) as [Hq' _]. congruence.
    + destruct (Hrest _ _ Hj) as [_ Hq']. rewrite Hq' in Hin.
      by apply elem_of_nil in Hin.
  - (* the callback is about to lock *)
    assert (mux (self (heap w)) = false) as Hm.
    { apply mutex_free; [done|done|by rewrite Hcb]. }
    right. exists RunCallback. simpl. rewrite Hcb. simpl. rewrite Hm.
    destruct (candidateWant (self (heap w))) eqn:Hwant.
    + eexists. split; [done|]. split; [done|]. simpl. split; [done|].
      unfold measure. simpl. rewrite Hcb, Hwant. simpl. lia.
    + eexists. split; [done|]. split; [done|]. simpl. split; [done|].
      unfold measure. simpl. rewrite Hcb, Hwant. simpl. rewrite app_nil_r. lia.
  - (* the callback is in its send *)
    right. pose proof (reachable_callbackInv _ Hw _ Hcb) as Hwant.
    destruct (reachable_handoverInv _ Hw Hwant) as (j & m & k & bs & Hj).
    { by rewrite Hcb. }
    exists (SyncCallback j). simpl. rewrite Hj, Hcb. simpl. eexists. split; [done|].
    split; [done|]. simpl. split; [by apply steady_insert|].
    unfold measure. simpl. rewrite Hcb, Hwant. simpl.
    pose proof (sum_list_insert rank _ _ _ (P_call m k bs [c]) Hj) as Hsum. simpl in Hsum.
    rewrite !unfinished_app, unfinished_singleton. change (unfinished []) with 0.
    destruct (last_is_sentinel [c]); lia.
  - (* the callback is about to clear the mark *)
    right. exists RunCallback. simpl. rewrite Hcb. simpl. eexists. split; [done|].
    split; [done|]. simpl. split; [done|].
    unfold measure. simpl. rewrite Hcb. simpl. lia.
Qed.

Lemma quiet_local e : quiet e -> local_event e.
Proof. by destruct e. Qed.

Lemma negotiating_completes_bounded n : forall w,
  measure w <= n -> negotiating w -> Forall steady (threads w) ->
  exists es w',
    Forall quiet es /\ run es w = Some w' /\ negotiating w' /\
    Forall (fun p => is_Some (returned p)) (threads w').
Proof.
  induction n as [n IH] using lt_wf_ind. intros w Hm Hn Hst.
  destruct (negotiating_progress w Hn Hst) as [Hdone|(e & w1 & He & Hstep & Hst1 & Hlt)].
  - exists [], w. done.
  - assert (negotiating w1) as Hn1.
    { eapply negotiating_step; [exact Hn|by apply quiet_local|exact Hstep]. }
    destruct (IH (measure w1) ltac:(lia) w1 ltac:(lia) Hn1 Hst1)
      as (es & w' & Hes & Hrun & Hn' & Hdone).
    exists (e :: es), w'. split; [by constructor|]. split; [|done].
    simpl. rewrite Hstep. done.
Qed.

(** X9: with local callers only, none of which was told of a conflict,
    the Signaler cannot get stuck: from every state that such callers can
    reach there is a continuation without any new call in which every
    external call succeeds and gathering ends, at the end of which every
    call of [Negotiate] has returned, the queue is empty and the state is
    idle again. *)
Theorem Negotiate_can_always_complete w :
  negotiating w ->
  Forall steady (threads w) ->
  exists es w',
    Forall quiet es /\ run es w = Some w' /\
    Forall (fun p => is_Some (returned p)) (threads w') /\
    waitPending (self (heap w')) = [] /\
    state (self (heap w')) = signalerStateIdle.
Proof.
  intros Hn Hst.
  destruct (negotiating_completes_bounded (measure w) w (Nat.le_refl _) Hn Hst)
    as (es & w' & Hes & Hrun & Hn' & Hdone).
  exists es, w'. split; [done|]. split; [done|]. split; [done|].
  assert (forall i p, threads w' !! i = Some p -> exists r err, p = N_return r err) as Hret.
  { intros i p Hi. eapply Forall_lookup_1 in Hdone; [|exact Hi].
    destruct p; try (by destruct Hdone). eauto. }
  split.
  - destruct (negotiating_waitingInv _ Hn') as [_ W2].
    destruct (waitPending (self (heap w'))) as [|ch rest] eqn:Hq; [done|]. exfalso.
    destruct (W2 ch) as [[j Hj]|(_ & j & v & Hj)]; [by left| |];
      destruct (Hret _ _ Hj) as (? & ? & ?); discriminate.
  - destruct (decide (state (self (heap w')) = signalerStateIdle)) as [|Hbusy]; [done|].
    exfalso. destruct (negotiating_busyInv _ Hn' Hbusy) as (i & p & Hi & Hp).
    destruct (Hret _ _ Hi) as (? & ? & ->). done.
Qed.

Lemma Negotiate_can_always_complete_witness :
  negotiating (after joined_round) /\
  threads (after joined_round)
    = [F_lock (ThenBroadcast [] (Some (Simple "create offer"))); N_wait 0; N_wait 1] /\
  exists es w',
    Forall quiet es /\ run es (after joined_round) = Some w' /\
    Forall (fun p => is_Some (returned p)) (threads w') /\
    waitPending (self (heap w')) = [] /\
    state (self (heap w')) = signalerStateIdle.
Proof.
  assert (negotiating (after joined_round)) as Hn.
  { eapply (run_negotiating joined_round (init (SignalerMake false))).
    - constructor.
    - repeat constructor.
    - vm_compute. reflexivity. }
  split; [exact Hn|]. split; [vm_compute; reflexivity|].
  apply (Negotiate_can_always_complete _ Hn).
  vm_compute. repeat constructor.
Defined.

(** X10: with local callers only, the Signaler is busy exactly when one
    caller runs a round, and nobody waits in vain: the channel of every
    caller that waits for a result is in the queue or in the batch of a
    caller that has still to send the result on it. *)
Theorem busy_while_a_round_runs w :
  negotiating w ->
  let x := self (heap w) in
  (state x <> signalerStateIdle <->
   exists i p, threads w !! i = Some p /\ holder (waitPending x) p = true) /\
  (forall i j p q, threads w !! i = Some p -> threads w !! j = Some q ->
     holder (waitPending x) p = true -> holder (waitPending x) q = true -> i = j) /\
  (forall j ch, threads w !! j = Some (N_wait ch) ->
     ch ∈ waitPending x \/ exists i p, threads w !! i = Some p /\ ch ∈ pending p).
Proof.
  intros Hn x. destruct (negotiating_tokenInv _ Hn) as (Htok & Hidle & _).
  split_and?.
  - split; [apply (negotiating_busyInv _ Hn)|].
    intros (i & p & Hi & Hp) Hs.
    assert (is_Some (holds (waitPending x) p)) as Hsome by (by apply holds_is_Some).
    pose proof (omap_length_pos (holds (waitPending x)) _ _ _ Hi Hsome) as Hpos.
    subst x. rewrite (Hidle Hs) in Hpos. simpl in Hpos. lia.
  - intros i j p q Hi Hj Hp Hq.
    eapply (omap_unique (holds (waitPending x)) _ i j); [exact Htok|exact Hi|exact Hj| |];
      by apply holds_is_Some.
  - apply (negotiating_waiterInv _ Hn).
Qed.

Lemma busy_while_a_round_runs_witness :
  negotiating (after joined_round) /\
  state (self (heap (after joined_round))) <> signalerStateIdle /\
  exists i p, threads (after joined_round) !! i = Some p /\
              holder (waitPending (self (heap (after joined_round)))) p = true.
Proof.
  assert (negotiating (after joined_round)) as Hn.
  { eapply (run_negotiating joined_round (init (SignalerMake false))).
    - constructor.
    - repeat constructor.
    - vm_compute. reflexivity. }
  assert (state (self (heap (after joined_round))) <> signalerStateIdle) as Hs.
  { vm_compute. discriminate. }
  split; [exact Hn|]. split; [exact Hs|].
  exact (proj1 (proj1 (busy_while_a_round_runs _ Hn)) Hs).
Defined.












Lemma thread_step_waitSimple h r p h' p' new :
  thread_step h r p = Some (h', p', new) ->
  waitSimple (self h') = waitSimple (self h) \/
  (waitSimple (self h') = waitSimple (self h) ++ [fresh h] /\
   exists sameBatch, p = N_concede sameBatch).
Proof.
  intros H. destruct p; thread_cases H; eauto.
Qed.

Lemma step_waitSimple w e w' :
  step w e = Some w' ->
  waitSimple (self (heap w)) `prefix_of` waitSimple (self (heap w')).
Proof.
  intros H. step_cases H; try done.
  - destruct (callback w); simplify_eq. done.
  - destruct (thread_step_waitSimple _ _ _ _ _ _ E0) as [->|[-> _]]; [done|].
    by apply prefix_app_r.
  - apply candidateHandle_queue in E as (_ & _ & -> & _). done.
Qed.

(** X13: [waitSimple] is never shortened: every transition leaves it as it
    is, except the concession of [Negotiate], which appends one channel;
    [finishAnswer] therefore sends its error on the channel of every
    caller that ever conceded, in the order of the concessions, whether
    the caller still waits or has returned. *)
Theorem waitSimple_only_grows es w w' :
  run es w = Some w' ->
  waitSimple (self (heap w)) `prefix_of` waitSimple (self (heap w')) /\
  (forall r err k,
     thread_step (heap w') r (FA_range err k)
     = Some (heap w', FA_send (waitSimple (self (heap w'))) err k, [])) /\
  (forall h r p h' p' new,
     thread_step h r p = Some (h', p', new) ->
     waitSimple (self h') = waitSimple (self h) \/
     (waitSimple (self h') = waitSimple (self h) ++ [fresh h] /\
      exists sameBatch, p = N_concede sameBatch)).
Proof.
  intros H. split; [|split; [done|apply thread_step_waitSimple]].
  revert w H. induction es as [|e es IH]; intros w H; simpl in H.
  - by injection H as <-.
  - destruct (step w e) as [w1|] eqn:E; simpl in H; [|done].
    etrans; [by eapply step_waitSimple|]. by apply IH.
Qed.

Lemma waitSimple_only_grows_witness :
  run second_rejection (after glare_round) = Some (after stale_waiter) /\
  waitSimple (self (heap (after glare_round))) = [0] /\
  [0] `prefix_of` waitSimple (self (heap (after stale_waiter))).
Proof.
  assert (run second_rejection (after glare_round) = Some (after stale_waiter)) as Hrun.
  { vm_compute. reflexivity. }
  split; [exact Hrun|]. split; [vm_compute; reflexivity|].
  exact (proj1 (waitSimple_only_grows _ _ _ Hrun)).
Defined.

(** *** Properties *)

Lemma do_calls_app cs1 cs2 x :
  channel.do_calls (cs1 ++ cs2) x
  = let '(x1, e1) := channel.do_calls cs1 x in
    let '(x2, e2) := channel.do_calls cs2 x1 in (x2, e1 ++ e2).
Proof.
  revert x. induction cs1 as [|c cs1 IH]; intros x; simpl.
  - by destruct (channel.do_calls cs2 x).
  - destruct (channel.do_call c x) as [x1 e1]. rewrite IH.
    destruct (channel.do_calls cs1 x1) as [x2 e2].
    destruct (channel.do_calls cs2 x2) as [x3 e3]. by rewrite app_assoc.
Qed.

Lemma do_calls_appends cs x :
  Forall (fun c => is_Some (appended c)) cs ->
  channel.do_calls cs x
  = ({| channel.V := channel.V x;
        channel.buf := channel.buf x ++ concat (omap appended cs);
        channel.errorHandle := channel.errorHandle x |}, []).
Proof.
  intros Hcs. revert x. induction Hcs as [|c cs [b Hc] _ IH]; intros x; simpl.
  - rewrite app_nil_r. by destruct x.
  - rewrite Hc. destruct c; simplify_eq/=; rewrite IH; simpl; by rewrite app_assoc.
Qed.

(** X14: the output of a channel frames messages by [Close]: the message
    given to [Send] is everything appended by [Write] and [ReadFrom] since
    the previous [Close] or [Cancel], in order, including what a failing
    [ReadFrom] had read; the buffer is empty afterwards whether [Send]
    fails or not, and after [Cancel] nothing of it is ever sent. *)
Theorem Output_Close_sends_appended cs r x :
  Forall (fun c => is_Some (appended c)) cs ->
  channel.do_calls (cs ++ [channel.CloseOutput r]) x
  = ({| channel.V := channel.V x; channel.buf := [];
        channel.errorHandle := channel.errorHandle x |},
     [channel.Sent (channel.buf x ++ concat (omap appended cs))]) /\
  (channel.Output_Close r (channel.do_calls cs x).1).2 = r /\
  channel.do_calls (cs ++ [channel.Cancel]) x
  = ({| channel.V := channel.V x; channel.buf := [];
        channel.errorHandle := channel.errorHandle x |}, []) /\
  forall cs' r',
    Forall (fun c => is_Some (appended c)) cs' ->
    (channel.do_calls (cs ++ [channel.Cancel] ++ cs' ++ [channel.CloseOutput r']) x).2
    = [channel.Sent (concat (omap appended cs'))].
Proof.
  intros Hcs. split_and?.
  - rewrite do_calls_app, (do_calls_appends _ _ Hcs). done.
  - done.
  - rewrite do_calls_app, (do_calls_appends _ _ Hcs). done.
  - intros cs' r' Hcs'.
    rewrite do_calls_app, (do_calls_appends _ _ Hcs). simpl.
    rewrite do_calls_app, (do_calls_appends _ _ Hcs'). done.
Qed.

Lemma Output_Close_sends_appended_witness :
  channel.do_calls
    [channel.Write [Byte.x68; Byte.x69];
     channel.ReadFrom [Byte.x21] (Some (Simple "unexpected EOF"));
     channel.CloseOutput (Some (Simple "closed"))]
    (channel.ChannelMake plain_channel)
  = (channel.ChannelMake plain_channel, [channel.Sent [Byte.x68; Byte.x69; Byte.x21]]).
Proof.
  refine (proj1 (Output_Close_sends_appended
                   [channel.Write [Byte.x68; Byte.x69];
                    channel.ReadFrom [Byte.x21] (Some (Simple "unexpected EOF"))]
                   (Some (Simple "closed")) (channel.ChannelMake plain_channel) _)).
  repeat constructor; eauto.
Defined.

Lemma register_buf g x : channel.buf (channel.register g x) = channel.buf x.
Proof. by destruct g. Qed.

Lemma register_taker g x :
  channel.onMessage (channel.V (channel.register g x))
  = from_option Some (channel.onMessage (channel.V x)) (sets_taker g).
Proof. by destruct g. Qed.

Lemma register_handler g x :
  channel.errorHandle (channel.register g x)
  = default (channel.errorHandle x) (sets_handler g).
Proof. by destruct g. Qed.

Lemma last_omap_snoc {A B} (f : A -> option B) (l : list A) (a : A) :
  last (omap f (l ++ [a])) = match f a with Some b => Some b | None => last (omap f l) end.
Proof.
  rewrite omap_app. simpl. destruct (f a); simpl; [apply last_snoc|by rewrite app_nil_r].
Qed.

Lemma registrations_last gs x :
  let x' := foldl (fun x g => channel.register g x) x gs in
  channel.buf x' = channel.buf x /\
  channel.onMessage (channel.V x')
  = from_option Some (channel.onMessage (channel.V x)) (last (omap sets_taker gs)) /\
  channel.errorHandle x' = default (channel.errorHandle x) (last (omap sets_handler gs)).
Proof.
  induction gs as [|g gs IH] using rev_ind; simpl; [done|].
  rewrite foldl_app. simpl. destruct IH as (IHb & IHt & IHh).
  rewrite register_buf, register_taker, register_handler, !last_omap_snoc.
  split; [done|]. split.
  - destruct (sets_taker g); done.
  - destruct (sets_handler g); done.
Qed.

(** X15: registrations on a channel are independent and the last one
    wins: after any sequence of [InputChain], [ErrorHandle], [OpenHandle]
    and [CloseHandle], a message goes to the taker of the last
    [InputChain], and an error it returns goes to the function of the last
    [ErrorHandle], registered before or after the taker; without such a
    function, or after [ErrorHandle(nil)], the error is dropped.  The
    output buffer is not touched. *)
Theorem InputChain_errors_go_to_ErrorHandle gs x data r :
  let x' := foldl (fun x g => channel.register g x) x gs in
  let dst := from_option Some (channel.onMessage (channel.V x)) (last (omap sets_taker gs)) in
  let fn := default (channel.errorHandle x) (last (omap sets_handler gs)) in
  channel.buf x' = channel.buf x /\
  channel.message data r x'
  = match dst with
    | None => []
    | Some dst =>
        channel.Took dst data ::
        match r, fn with
        | Some err, Some fn => [channel.Handled fn err]
        | _, _ => []
        end
    end.
Proof.
  intros x' dst fn. destruct (registrations_last gs x) as (Hb & Ht & Hh).
  fold x' in Hb, Ht, Hh. split; [done|].
  unfold channel.message, channel.InputChain_closure. rewrite Ht, Hh. fold dst fn.
  destruct dst; [|done]. by destruct r.
Qed.

(** *** Properties *)

Lemma legacy_step_effects w e w' :
  legacy.step w e = Some w' ->
  legacy.who w' = legacy.who w /\
  legacy.pending w' = legacy.pending w ++ held [e] /\
  exists es, legacy.log w' = legacy.log w ++ es /\
    Forall (fun c => legacy.GoCandidate (legacy.candidate c) ∈ es) (direct [e]).
Proof.
  intros H. destruct e as [cand desc|s|s| |i r]; simpl in H.
  - injection H as <-. destruct cand as [c|], desc as [sd|]; simpl.
    + rewrite app_nil_r. split; [done|]. split; [done|]. eexists. split; [done|].
      repeat constructor.
    + split; [done|]. split; [done|]. exists []. by rewrite app_nil_r.
    + rewrite app_nil_r. split; [done|]. split; [done|]. exists []. by rewrite app_nil_r.
    + rewrite app_nil_r. split; [done|]. split; [done|]. exists []. by rewrite app_nil_r.
  - injection H as <-. simpl. rewrite app_nil_r. split; [done|]. split; [done|].
    exists []. by rewrite app_nil_r.
  - injection H as <-. simpl. rewrite app_nil_r. split; [done|]. split; [done|].
    exists []. by rewrite app_nil_r.
  - destruct (legacy.who w) eqn:Hw; [|done]. injection H as <-. simpl. rewrite app_nil_r.
    split; [done|]. split; [done|]. exists []. by rewrite app_nil_r.
  - destruct (legacy.procs w !! i) as [p|]; simpl in H; [|done].
    destruct (legacy.proc_step w r p) as [[p' es]|]; simpl in H; [|done].
    injection H as <-. simpl. rewrite app_nil_r. split; [done|]. split; [done|].
    exists es. done.
Qed.

Lemma held_app es1 es2 : held (es1 ++ es2) = held es1 ++ held es2.
Proof. apply omap_app. Qed.

Lemma direct_app es1 es2 : direct (es1 ++ es2) = direct es1 ++ direct es2.
Proof. apply omap_app. Qed.

Lemma legacy_run_effects es : forall w w',
  legacy.run es w = Some w' ->
  legacy.who w' = legacy.who w /\
  legacy.pending w' = legacy.pending w ++ held es /\
  exists effs, legacy.log w' = legacy.log w ++ effs /\
    Forall (fun c => legacy.GoCandidate (legacy.candidate c) ∈ effs) (direct es).
Proof.
  induction es as [|e es IH]; intros w w' H; simpl in H.
  - injection H as <-. rewrite app_nil_r. split; [done|]. split; [done|].
    exists []. by rewrite app_nil_r.
  - destruct (legacy.step w e) as [w1|] eqn:E; simpl in H; [|done].
    apply legacy_step_effects in E as (Hw1 & Hp1 & es1 & Hl1 & Hd1).
    apply IH in H as (Hw2 & Hp2 & es2 & Hl2 & Hd2).
    split; [congruence|]. split.
    + rewrite Hp2, Hp1, <- app_assoc. f_equal. symmetry. apply (held_app [e] es).
    + exists (es1 ++ es2). split; [by rewrite Hl2, Hl1, app_assoc|].
      change (e :: es) with ([e] ++ es). rewrite direct_app. apply Forall_app. split.
      * eapply Forall_impl; [exact Hd1|]. simpl. intros c Hc. apply elem_of_app. by left.
      * eapply Forall_impl; [exact Hd2|]. simpl. intros c Hc. apply elem_of_app. by right.
Qed.

(** X16: the former signaler holds back the candidates gathered before the
    peer connection has a remote description and sends the others at once;
    the end of gathering (nil) is neither held nor sent.  The held
    candidates are sent when a call of the sdp procedure reaches its end,
    and they stay held: every later call that reaches its end sends all of
    them again. *)
Theorem legacy_pending_sent_by_every_sdp s es w :
  legacy.run es (legacy.setup s) = Some w ->
  legacy.pending w = held es /\
  Forall (fun c => legacy.GoCandidate (legacy.candidate c) ∈ legacy.log w) (direct es) /\
  (forall i j r r', i <> j ->
     legacy.procs w !! i = Some legacy.S_flush ->
     legacy.procs w !! j = Some legacy.S_flush ->
     exists w',
       legacy.run [legacy.Step i r; legacy.Step j r'] w = Some w' /\
       legacy.pending w' = held es /\
       legacy.log w'
       = legacy.log w ++ (legacy.GoCandidate ∘ legacy.candidate <$> held es)
                      ++ (legacy.GoCandidate ∘ legacy.candidate <$> held es) /\
       legacy.procs w' !! i = Some (legacy.S_return None) /\
       legacy.procs w' !! j = Some (legacy.S_return None)).
Proof.
  intros H. apply legacy_run_effects in H as (_ & Hp & effs & Hl & Hd). simpl in *.
  split; [done|]. split; [by rewrite Hl|].
  intros i j r r' Hij Hi Hj.
  assert (i < length (legacy.procs w)) as Hlti by (by eapply lookup_lt_Some).
  assert (j < length (legacy.procs w)) as Hltj by (by eapply lookup_lt_Some).
  simpl. rewrite Hi. simpl. rewrite list_lookup_insert_ne by done. rewrite Hj. simpl.
  eexists. split; [done|]. simpl. rewrite Hp, <- app_assoc. split; [done|]. split; [done|].
  split.
  - rewrite list_lookup_insert_ne by done. by apply list_lookup_insert_eq.
  - apply list_lookup_insert_eq. by rewrite length_insert.
Qed.

Lemma legacy_pending_sent_by_every_sdp_witness :
  legacy.run two_answers (legacy.setup legacy.Offerer) = Some (legacy_after legacy.Offerer two_answers) /\
  legacy.pending (legacy_after legacy.Offerer two_answers) = [host1] /\
  exists w',
    legacy.run [legacy.Step 0 ok; legacy.Step 1 ok] (legacy_after legacy.Offerer two_answers) = Some w' /\
    legacy.log w'
    = legacy.log (legacy_after legacy.Offerer two_answers)
      ++ [legacy.GoCandidate (legacy.candidate host1)]
      ++ [legacy.GoCandidate (legacy.candidate host1)].
Proof.
  assert (legacy.run two_answers (legacy.setup legacy.Offerer)
          = Some (legacy_after legacy.Offerer two_answers)) as Hrun by reflexivity.
  split; [exact Hrun|].
  destruct (legacy_pending_sent_by_every_sdp _ _ _ Hrun) as (Hp & _ & Hflush).
  split; [exact Hp|].
  destruct (Hflush 0 1 ok ok) as (w' & Hrun' & _ & Hlog & _); [done|reflexivity|reflexivity|].
  exists w'. split; [exact Hrun'|]. exact Hlog.
Defined.

(** X17: on the answering side the former signaler sends its answer to the
    peer before it sets it locally: when [SetLocalDescription] fails, the
    answer has gone out, the sdp procedure returns the error, and the held
    candidates are not sent.  On the offering side the offer is sent only
    once it is set locally. *)
Theorem legacy_answer_sent_before_set_locally w i r1 r2 e :
  ext_err r1 = None ->
  ext_err r2 = Some e ->
  (legacy.procs w !! i = Some legacy.S_CreateAnswer ->
   exists w',
     legacy.run [legacy.Step i r1; legacy.Step i r2] w = Some w' /\
     legacy.log w'
     = legacy.log w ++ [legacy.GoSdp (legacy.sdp (ext_sdp r1));
                        legacy.SetLocalDescription (ext_sdp r1)] /\
     legacy.procs w' !! i = Some (legacy.S_return (Some e)) /\
     legacy.pending w' = legacy.pending w) /\
  (legacy.procs w !! i = Some legacy.O_CreateOffer ->
   exists w',
     legacy.run [legacy.Step i r1; legacy.Step i r2] w = Some w' /\
     legacy.log w' = legacy.log w ++ [legacy.SetLocalDescription (ext_sdp r1)] /\
     legacy.procs w' !! i = Some (legacy.O_return (Some e)) /\
     forall r3, exists w'',
       legacy.run [legacy.Step i r1; legacy.Step i r1; legacy.Step i r3] w = Some w'' /\
       legacy.log w''
       = legacy.log w ++ [legacy.SetLocalDescription (ext_sdp r1);
                          legacy.CallSdp (legacy.sdp (ext_sdp r1))] /\
       legacy.procs w'' !! i = Some (legacy.O_return (ext_err r3))).
Proof.
  intros Hr1 Hr2. split; intros Hi.
  all: assert (i < length (legacy.procs w)) as Hlt by (by eapply lookup_lt_Some).
  - simpl. rewrite Hi. simpl. rewrite Hr1. simpl.
    rewrite list_lookup_insert_eq by done. simpl. rewrite Hr2.
    eexists. split; [done|]. simpl. rewrite <- app_assoc. split; [done|].
    split; [|done]. apply list_lookup_insert_eq. by rewrite length_insert.
  - simpl. rewrite Hi. simpl. rewrite Hr1. simpl.
    rewrite list_lookup_insert_eq by done. simpl. rewrite Hr2, Hr1.
    eexists. split; [done|]. simpl. rewrite app_nil_r. split; [done|].
    split; [apply list_lookup_insert_eq; by rewrite length_insert|].
    intros r3. rewrite list_lookup_insert_eq by (by rewrite length_insert). simpl.
    eexists. split; [done|]. simpl. rewrite <- !app_assoc. split; [done|].
    apply list_lookup_insert_eq. by rewrite !length_insert.
Qed.

Lemma legacy_answer_sent_before_set_locally_witness :
  legacy.procs (legacy_after legacy.Answerer offer_arrives) !! 0
    = Some legacy.S_CreateAnswer /\
  exists w',
    legacy.run [legacy.Step 0 ok; legacy.Step 0 (failing "set local description")]
               (legacy_after legacy.Answerer offer_arrives) = Some w' /\
    legacy.procs w' !! 0
      = Some (legacy.S_return (Some (Simple "set local description"))).
Proof.
  assert (legacy.procs (legacy_after legacy.Answerer offer_arrives) !! 0
          = Some legacy.S_CreateAnswer) as Hi by reflexivity.
  split; [exact Hi|].
  destruct (proj1 (legacy_answer_sent_before_set_locally
                     (legacy_after legacy.Answerer offer_arrives) 0 ok
                     (failing "set local description")
                     (Simple "set local description") eq_refl eq_refl) Hi)
    as (w' & Hrun' & _ & Hp & _).
  exists w'. split; [exact Hrun'|exact Hp].
Defined.

(** X18: [Convert] applied to [CandidateOf] restores the JSON form of a
    pion candidate exactly when the fields other than the candidate line
    have the values that [Convert] writes: an empty [SDPMid], a zero
    [SDPMLineIndex] and no [UsernameFragment]; the candidate line itself is
    always restored, the empty one included.  The candidate procedure of
    the former signaler builds the same value from the same string. *)
Theorem Convert_CandidateOf_restores c s :
  (Convert (CandidateOf c) = webrtc.ToJSON c <->
   webrtc.SDPMid (webrtc.ToJSON c) = Some EmptyString /\
   webrtc.SDPMLineIndex (webrtc.ToJSON c) = Some 0%N /\
   webrtc.UsernameFragment (webrtc.ToJSON c) = None) /\
  webrtc.Candidate (Convert (CandidateOf c)) = webrtc.Candidate (webrtc.ToJSON c) /\
  CandidateOf {| webrtc.ToJSON := Convert s |} = s /\
  legacy.candidate_init (legacy.candidate c) = Convert (CandidateOf c).
Proof.
  destruct c as [[cand mid idx frag]]. unfold Convert, CandidateOf. simpl.
  split_and?; try done. split.
  - intros [= -> -> ->]. done.
  - intros (-> & -> & ->). done.
Qed.

(** X19: a session description goes over the wire unchanged:
    [SessionDescriptionOf] and [Convert] are inverse to each other, and so
    are [signaler.sdp] and the description that the sdp procedure of the
    former signaler builds; the zero value that [Answer] returns with an
    error converts to the description of unknown type with no text. *)
Theorem SessionDescription_roundtrip sd x s :
  SessionDescription_Convert (SessionDescriptionOf sd) = sd /\
  SessionDescriptionOf (SessionDescription_Convert x) = x /\
  legacy.description (legacy.sdp sd) = sd /\
  legacy.sdp (legacy.description s) = s /\
  SessionDescription_Convert zeroSessionDescription
  = {| webrtc.Type_ := webrtc.SDPTypeUnknown; webrtc.SDP := EmptyString |}.
Proof. destruct sd, x, s. done. Qed.

(** X20: the writer of the former channel frames messages like the output
    of the present one: [Close] sends what was written since the previous
    [Close] or [Cancel] as one message and empties the buffer whether
    [Send] fails or not, [Write] reports the length of what it was given,
    and an incoming message goes to the taker of the last [ReaderChain],
    to [msg.Void] when there was none. *)
Theorem writer_Close_sends_written (bs : list former.bytes) r d x :
  let written := foldl (fun x b => (former.writer_Write b x).1) x bs in
  former.writer_Close r written
  = ({| former.buf := []; former.dst := former.dst x |},
     [former.Sent (former.buf x ++ concat bs)], r) /\
  (former.writer_Close r (former.writer_Cancel written).1).1.2 = [former.Sent []] /\
  (forall b, (former.writer_Write b x).2 = (length b, None)) /\
  (forall data, former.message data (former.ReaderChain d written).1 = [former.Took d data]) /\
  (forall data, former.message data former.ChannelNew = [former.Took former.Void data]).
Proof.
  intros written.
  assert (written = {| former.buf := former.buf x ++ concat bs; former.dst := former.dst x |})
    as ->.
  { subst written. revert x. induction bs as [|b bs IH]; intros x; simpl.
    - rewrite app_nil_r. by destruct x.
    - rewrite IH. simpl. by rewrite app_assoc. }
  done.
Qed.
